(** * ClawTrade: on-chain activity ingestion and real-time distribution

    A shallow embedding of the indexing pipeline of the ClawTrade API
    (price.service.ts, blockchain.service.ts, trading.service.ts,
    websocket.service.ts, middleware/rate-limit.ts) and the properties
    its design document states about it.

    Conventions of the embedding:
    - a JS [number] holding money is an exact rational ([Q]); a [bigint],
      a block number or a millisecond timestamp is a [Z]; where the
      rounding of JS numbers decides a statement, the computation is
      given again on binary64 numbers ([JsNumber], [StatsAggregator]);
    - an [Address] is the string the code holds, compared after
      [toLowerCase] wherever the code does so;
    - an awaited call that can reject is a function into [option] (the
      handler of the surrounding try/catch is the [None] branch) or into
      [result] where the rejection escapes to the caller;
    - the database, the price cache and the Redis channel are threaded
      explicitly as a [World]. *)

From Stdlib Require Import ZArith QArith String Ascii Permutation Sorted.
From Stdlib Require SpecFloat.
From stdpp Require Import base gmap strings list.

Local Open Scope string_scope.
Local Open Scope list_scope.
Local Open Scope Z_scope.

(** ** JavaScript helpers *)

Module Js.

(** [String.prototype.toLowerCase], on the ASCII range addresses live in. *)
Definition lowerChar (c : ascii) : ascii :=
  let n := nat_of_ascii c in
  if (Nat.leb 65 n && Nat.leb n 90)%bool then ascii_of_nat (n + 32) else c.

Fixpoint toLowerCase (s : string) : string :=
  match s with
  | EmptyString => EmptyString
  | String c r => String (lowerChar c) (toLowerCase r)
  end.

(** [Math.ceil (x / d)] for integers [x] and a positive integer [d]. *)
Definition ceilDiv (x d : Z) : Z := (x + (d - 1)) / d.

(** An awaited promise: fulfilled with a value, or rejected. *)
Inductive result (A : Type) : Type :=
| Ok (a : A)
| Throw (what : string).
Arguments Ok {A} a.
Arguments Throw {A} what.

End Js.

(** ** JS numbers *)

Module JsNumber.

(** A JS [number] is an IEEE 754 binary64: 53 bits of precision, and
    every operation rounds its exact result to the nearest number, ties
    to even. *)
Definition number : Type := SpecFloat.spec_float.

Definition prec : Z := 53.
Definition emax : Z := 1024.

(** The number an integer converts to: an integer literal, an array
    [length], [Number] of an integer. *)
Definition ofZ (n : Z) : number := SpecFloat.binary_normalize prec emax n 0 false.

(** [x + y], [x * y], [x / y] and [x > y]. *)
Definition add (x y : number) : number := SpecFloat.SFadd prec emax x y.
Definition mul (x y : number) : number := SpecFloat.SFmul prec emax x y.
Definition div (x y : number) : number := SpecFloat.SFdiv prec emax x y.
Definition gt (x y : number) : bool := SpecFloat.SFltb y x.

(** The rational a finite number is. *)
Definition toQ (x : number) : option Q :=
  match x with
  | SpecFloat.S754_zero _ => Some 0%Q
  | SpecFloat.S754_finite s m e =>
      let n := if s then Zneg m else Zpos m in
      match e with
      | Z0 => Some (n # 1)
      | Zpos k => Some ((n * 2 ^ Zpos k) # 1)
      | Zneg k => Some (n # (2 ^ k)%positive)
      end
  | _ => None
  end.

End JsNumber.

(** ** price.service.ts *)

Module PriceService.
Import Js.

(** config/blockchain.ts, [BASE_TOKENS]. *)
Definition WETH : string := "0x4200000000000000000000000000000000000006".
Definition USDC : string := "0x833589fCD6eDb6E08f4c7C32D4f71b54bdA02913".
Definition DAI : string := "0x50c5725949A6F0c72E6C4a641F24049A917DB0Cb".
Definition USDT : string := "0xfde4C96c8593536E31F229EA8f37b2ADa2699bb2".

(** An entry of [priceCache]. *)
Record CacheEntry : Type := mkEntry { price : Q; timestamp : Z }.

Definition CACHE_TTL : Z := 5 * 60 * 1000.

(** What the CoinGecko [fetch] can do: reject, answer with a status that
    is not ok, or answer with a body whose [ethereum.usd] field is present
    or not. *)
Inductive FeedResponse : Type :=
| FetchRejects
| FetchNotOk
| FetchOk (usd : option Q).

(** [x || 2500]: 0 and [undefined] are falsy. *)
Definition orDefault (usd : option Q) (d : Q) : Q :=
  match usd with
  | Some x => if Qeq_bool x 0 then d else x
  | None => d
  end.

Definition getWethPrice (feed : FeedResponse) : Q :=
  match feed with
  | FetchOk usd => orDefault usd 2500
  | FetchNotOk => 2500
  | FetchRejects => 2500
  end.

Definition isStablecoin (tokenAddress : string) : bool :=
  (String.eqb (toLowerCase tokenAddress) (toLowerCase USDC)
   || String.eqb (toLowerCase tokenAddress) (toLowerCase DAI)
   || String.eqb (toLowerCase tokenAddress) (toLowerCase USDT))%bool.

Definition isWeth (tokenAddress : string) : bool :=
  String.eqb (toLowerCase tokenAddress) (toLowerCase WETH).

(** Nothing inside the try block rejects once [getWethPrice] has caught
    its own failures, so the catch branch (return 0) is never taken. *)
Definition getPriceFromUniswap (feed : FeedResponse) (tokenAddress : string) : Q :=
  let wethPriceUsd := getWethPrice feed in
  if isWeth tokenAddress then wethPriceUsd
  else if isStablecoin tokenAddress then 1
  else 0.

Definition getFallbackPrice (tokenAddress : string) : Q :=
  if isStablecoin tokenAddress then 1
  else if isWeth tokenAddress then 2500
  else 0.

(** [price > 0]. *)
Definition Qpositive (p : Q) : bool := negb (Qle_bool p 0).

(** The part of [getTokenPriceUsd] after a cache miss: resolve, fall
    back, and cache a positive price. *)
Definition resolvePrice (cache : gmap string CacheEntry) (now : Z)
    (feed : FeedResponse) (tokenAddress : string) : Q * gmap string CacheEntry :=
  let cacheKey := toLowerCase tokenAddress in
  let price0 := getPriceFromUniswap feed tokenAddress in
  let price1 := if Qeq_bool price0 0 then getFallbackPrice tokenAddress else price0 in
  if Qpositive price1
  then (price1, <[cacheKey := mkEntry price1 now]> cache)
  else (price1, cache).

(** [getTokenPriceUsd]: the price and the cache it leaves. [now] is the
    value of [Date.now()] during the call. *)
Definition getTokenPriceUsd (cache : gmap string CacheEntry) (now : Z)
    (feed : FeedResponse) (tokenAddress : string) : Q * gmap string CacheEntry :=
  let cacheKey := toLowerCase tokenAddress in
  match cache !! cacheKey with
  | Some cached =>
      if now - timestamp cached <? CACHE_TTL then (price cached, cache)
      else resolvePrice cache now feed tokenAddress
  | None => resolvePrice cache now feed tokenAddress
  end.

Definition clearCache (cache : gmap string CacheEntry) : gmap string CacheEntry := ∅.

(** [10 ** decimals]. *)
Definition pow10 (decimals : Z) : Q := Qpower 10 decimals.

(** [calculateUsdValue]: [Number(amount) / 10 ** decimals * price]. *)
Definition calculateUsdValue (cache : gmap string CacheEntry) (now : Z)
    (feed : FeedResponse) (tokenAddress : string) (amount : Z) (decimals : Z)
    : Q * gmap string CacheEntry :=
  let '(price, cache') := getTokenPriceUsd cache now feed tokenAddress in
  let tokenAmount := (inject_Z amount / pow10 decimals)%Q in
  ((tokenAmount * price)%Q, cache').

(** The caches the service can hold: it starts empty and is only written
    by [getTokenPriceUsd] and [clearCache]. *)
Inductive reachable : gmap string CacheEntry -> Prop :=
| reach_init : reachable ∅
| reach_get cache now feed tokenAddress :
    reachable cache ->
    reachable (snd (getTokenPriceUsd cache now feed tokenAddress))
| reach_clear cache : reachable cache -> reachable (clearCache cache).

End PriceService.

(** ** blockchain.service.ts *)

Module BlockchainService.
Import Js.

(** A decoded [Transfer(from, to, value)] log as [getLogs] returns it:
    [address] is the token contract that emitted it. *)
Record TransferLog : Type := mkLog {
  address : string;
  transactionHash : string;
  logBlockNumber : Z;
  logIndex : Z;
  args_from : option string;
  args_to : option string;
  args_value : Z
}.

Record SwapEvent : Type := mkSwap {
  txHash : string;
  blockNumber : Z;
  timestamp : Z;
  tokenIn : string;
  tokenOut : string;
  amountIn : Z;
  amountOut : Z;
  from : string;
  to : string
}.

Record TokenInfo : Type := mkTokenInfo {
  info_address : string;
  name : string;
  symbol : string;
  decimals : Z
}.

(** [toBlock: bigint | 'latest']. *)
Inductive BlockTag : Type :=
| Latest
| BlockNum (n : Z).

(** What the three lookups of [parseSwapFromTransfers] read for one
    transaction hash. *)
Record TxLookup : Type := mkTxLookup {
  receipt_blockNumber : Z;
  block_timestamp : Z;
  tx_from : string;
  tx_to : option string
}.

(** The RPC endpoint behind [publicClient]. A [None] is a rejected call. *)
Record Rpc : Type := mkRpc {
  getBlockNumber : result Z;
  getLogsFrom : string -> Z -> BlockTag -> option (list TransferLog);
  getLogsTo : string -> Z -> BlockTag -> option (list TransferLog);
  getTransactionData : string -> option TxLookup;
  readErc20 : string -> option (string * string * Z)
}.

(** [o?.toLowerCase() === agentAddress.toLowerCase()]. *)
Definition sameAddress (o : option string) (agentAddress : string) : bool :=
  match o with
  | Some a => String.eqb (toLowerCase a) (toLowerCase agentAddress)
  | None => false
  end.

Definition isOutbound (agentAddress : string) (t : TransferLog) : bool :=
  sameAddress (args_from t) agentAddress.

Definition isInbound (agentAddress : string) (t : TransferLog) : bool :=
  sameAddress (args_to t) agentAddress.

(** [parseSwapFromTransfers]: a rejected lookup lands in the catch branch
    and gives [null]. *)
Definition parseSwapFromTransfers (rpc : Rpc) (txHash : string)
    (transfers : list TransferLog) (agentAddress : string) : option SwapEvent :=
  match getTransactionData rpc txHash with
  | None => None
  | Some look =>
      let transfersOut := List.filter (isOutbound agentAddress) transfers in
      let transfersIn := List.filter (isInbound agentAddress) transfers in
      match head transfersOut, last transfersIn with
      | Some firstOut, Some lastIn =>
          Some {| txHash := txHash;
                  blockNumber := receipt_blockNumber look;
                  timestamp := block_timestamp look;
                  tokenIn := address lastIn;
                  tokenOut := address firstOut;
                  amountIn := args_value lastIn;
                  amountOut := args_value firstOut;
                  from := tx_from look;
                  to := match tx_to look with
                        | Some a => a
                        | None => "0x0000000000000000000000000000000000000000"
                        end |}
      | _, _ => None
      end
  end.

(** [txGroups]: a [Map] keeps its keys in insertion order, and each
    group keeps the order in which its transfers were pushed. *)
Fixpoint pushTransfer (transfer : TransferLog)
    (txGroups : list (string * list TransferLog)) : list (string * list TransferLog) :=
  match txGroups with
  | [] => [(transactionHash transfer, [transfer])]
  | (h, g) :: rest =>
      if String.eqb h (transactionHash transfer)
      then (h, g ++ [transfer]) :: rest
      else (h, g) :: pushTransfer transfer rest
  end.

Definition groupByTx (allTransfers : list TransferLog) : list (string * list TransferLog) :=
  fold_left (fun txGroups transfer => pushTransfer transfer txGroups) allTransfers [].

(** The loop over [txGroups.entries()]. *)
Fixpoint parseGroups (rpc : Rpc) (agentAddress : string)
    (txGroups : list (string * list TransferLog)) : list SwapEvent :=
  match txGroups with
  | [] => []
  | (h, transfers) :: rest =>
      if (2 <=? Z.of_nat (length transfers))
      then match parseSwapFromTransfers rpc h transfers agentAddress with
           | Some swap => swap :: parseGroups rpc agentAddress rest
           | None => parseGroups rpc agentAddress rest
           end
      else parseGroups rpc agentAddress rest
  end.

(** [swaps.sort((a, b) => Number(a.blockNumber - b.blockNumber))]:
    [Array.prototype.sort] is stable, so equal block numbers keep their
    order. [insertByBlock] puts a swap in front of the swaps of a sorted
    list that come from later in the array: before the first one whose
    block is not lower than its own. *)
Fixpoint insertByBlock (s : SwapEvent) (sorted : list SwapEvent) : list SwapEvent :=
  match sorted with
  | [] => [s]
  | x :: rest =>
      if blockNumber s <=? blockNumber x then s :: x :: rest
      else x :: insertByBlock s rest
  end.

Definition sortByBlock (swaps : list SwapEvent) : list SwapEvent :=
  fold_right insertByBlock [] swaps.

(** [getSwapEventsForAddress]: a rejected [getLogs] is caught and gives
    the empty list. *)
Definition getSwapEventsForAddress (rpc : Rpc) (address : string)
    (fromBlock : Z) (toBlock : BlockTag) : list SwapEvent :=
  match getLogsFrom rpc address fromBlock toBlock with
  | None => []
  | Some transfersOut =>
      match getLogsTo rpc address fromBlock toBlock with
      | None => []
      | Some transfersIn =>
          let allTransfers := transfersOut ++ transfersIn in
          sortByBlock (parseGroups rpc address (groupByTx allTransfers))
      end
  end.

(** [getTokenInfo]: [null] when a contract read rejects. *)
Definition getTokenInfo (rpc : Rpc) (tokenAddress : string) : option TokenInfo :=
  match readErc20 rpc tokenAddress with
  | Some (n, s, d) =>
      Some {| info_address := tokenAddress; name := n; symbol := s; decimals := d |}
  | None => None
  end.

Definition getCurrentBlock (rpc : Rpc) : result Z := getBlockNumber rpc.

End BlockchainService.

(** ** websocket.service.ts *)

Module WebSocketService.
Import Js.

Inductive WebSocketEvent : Type :=
| AGENT_REGISTERED | AGENT_UPDATED | AGENT_STATS_UPDATED
| TRADE_INDEXED | TRADE_EXECUTED
| LEADERBOARD_UPDATED | RANK_CHANGED
| TOKEN_LAUNCHED | TOKEN_STATS_UPDATED
| GROUP_CREATED | GROUP_MEMBER_JOINED | TRADE_PROPOSED | TRADE_APPROVED
| TRADE_EXECUTED_GROUP
| INDEXER_STARTED | INDEXER_COMPLETED.

(** The string value of each member of the enum. *)
Definition eventName (e : WebSocketEvent) : string :=
  match e with
  | AGENT_REGISTERED => "agent:registered"
  | AGENT_UPDATED => "agent:updated"
  | AGENT_STATS_UPDATED => "agent:stats_updated"
  | TRADE_INDEXED => "trade:indexed"
  | TRADE_EXECUTED => "trade:executed"
  | LEADERBOARD_UPDATED => "leaderboard:updated"
  | RANK_CHANGED => "rank:changed"
  | TOKEN_LAUNCHED => "token:launched"
  | TOKEN_STATS_UPDATED => "token:stats_updated"
  | GROUP_CREATED => "group:created"
  | GROUP_MEMBER_JOINED => "group:member_joined"
  | TRADE_PROPOSED => "trade:proposed"
  | TRADE_APPROVED => "trade:approved"
  | TRADE_EXECUTED_GROUP => "trade:executed_group"
  | INDEXER_STARTED => "indexer:started"
  | INDEXER_COMPLETED => "indexer:completed"
  end.

Section Payloads.

(** [data: any]: the one field the service itself reads is [agentId];
    the rest of the object is carried as it is. *)
Context {Body : Type}.

Record EventData : Type := mkData {
  data_agentId : option string;
  data_body : Body
}.

Record WebSocketPayload : Type := mkPayload {
  event : WebSocketEvent;
  data : EventData;
  timestamp : Z
}.

(** A connected socket and the rooms it has joined. *)
Record Socket : Type := mkSocket {
  socket_id : string;
  socket_agentId : string;
  socket_username : string;
  rooms : list string
}.

(** [this.io]: [null] until [initialize] has run, then the server with
    its connected sockets. *)
Definition Io : Type := option (list Socket).

(** The connection handler: the socket joins its agent room and the
    leaderboard room (Socket.IO itself puts it in the room of its id). *)
Definition onConnection (sockets : list Socket) (id agentId username : string) : list Socket :=
  sockets ++ [ {| socket_id := id;
                  socket_agentId := agentId;
                  socket_username := username;
                  rooms := [id; "agent:" +:+ agentId; "leaderboard"] |} ].

(** One [emit] arriving at one socket. *)
Record Delivery : Type := mkDelivery {
  recipient : string;
  delivered_event : WebSocketEvent;
  delivered_data : EventData;
  delivered_at : Z
}.

Definition inRoom (room : string) (s : Socket) : bool :=
  existsb (String.eqb room) (rooms s).

Definition emitTo (sockets : list Socket) (ev : WebSocketEvent) (d : EventData) (now : Z)
    : list Delivery :=
  List.map (fun s => mkDelivery (socket_id s) ev d now) sockets.

Definition emitToAgent (io : Io) (now : Z) (agentId : string) (ev : WebSocketEvent)
    (d : EventData) : list Delivery :=
  match io with
  | None => []
  | Some sockets => emitTo (List.filter (inRoom ("agent:" +:+ agentId)) sockets) ev d now
  end.

Definition emitToLeaderboard (io : Io) (now : Z) (ev : WebSocketEvent) (d : EventData)
    : list Delivery :=
  match io with
  | None => []
  | Some sockets => emitTo (List.filter (inRoom "leaderboard") sockets) ev d now
  end.

Definition broadcast (io : Io) (now : Z) (ev : WebSocketEvent) (d : EventData)
    : list Delivery :=
  match io with
  | None => []
  | Some sockets => emitTo sockets ev d now
  end.

(** [if (payload.data.agentId)]: the empty string is falsy. *)
Definition truthyId (o : option string) : option string :=
  match o with
  | Some s => if String.eqb s "" then None else Some s
  | None => None
  end.

Definition broadcastFromRedis (io : Io) (now : Z) (payload : WebSocketPayload)
    : list Delivery :=
  match io with
  | None => []
  | Some _ =>
      match truthyId (data_agentId (data payload)) with
      | Some agentId => emitToAgent io now agentId (event payload) (data payload)
      | None =>
          if String.prefix "leaderboard:" (eventName (event payload))
          then emitToLeaderboard io now (event payload) (data payload)
          else broadcast io now (event payload) (data payload)
      end
  end.

(** The [redisSub.on('message')] handler. The message is the payload
    that [publishEvent] serialised. *)
Definition onRedisMessage (io : Io) (now : Z) (channel : string)
    (message : WebSocketPayload) : list Delivery :=
  if String.eqb channel "clawtrade:events"
  then broadcastFromRedis io now message
  else [].

(** [publishEvent]: the payload is appended to the shared channel, unless
    Redis refuses the publish. *)
Definition publishEvent (redisPublish : WebSocketPayload -> bool) (now : Z)
    (channel : list WebSocketPayload) (ev : WebSocketEvent) (d : EventData)
    : result (list WebSocketPayload) :=
  let payload := {| event := ev; data := d; timestamp := now |} in
  if redisPublish payload then Ok (channel ++ [payload])
  else Throw "redis publish rejected".

(** Every instance is subscribed to the channel: one published payload is
    handled once by each of them. *)
Definition relay (instances : list Io) (now : Z) (payload : WebSocketPayload)
    : list (list Delivery) :=
  List.map (fun io => onRedisMessage io now "clawtrade:events" payload) instances.

End Payloads.

Arguments EventData : clear implicits.
Arguments WebSocketPayload : clear implicits.
Arguments Delivery : clear implicits.

(** The server side of [initialize]: the sockets Socket.IO holds and the
    [connectedClients] map (agent id to the ids of its sockets). *)
Record Server : Type := mkServer {
  sockets : list Socket;
  connectedClients : gmap string (gset string)
}.

Definition emptyServer : Server := {| sockets := []; connectedClients := ∅ |}.

(** The connection handler. *)
Definition connect (srv : Server) (id agentId username : string) : Server :=
  {| sockets := onConnection (sockets srv) id agentId username;
     connectedClients :=
       <[agentId := {[id]} ∪ default ∅ (connectedClients srv !! agentId)]>
         (connectedClients srv) |}.

(** The disconnect handler of the socket [id] of [agentId]; Socket.IO
    itself takes the socket out of the server and of its rooms. *)
Definition disconnect (srv : Server) (id agentId : string) : Server :=
  {| sockets := List.filter (fun s => negb (String.eqb (socket_id s) id)) (sockets srv);
     connectedClients :=
       match connectedClients srv !! agentId with
       | Some clients =>
           let clients' := clients ∖ {[id]} in
           if decide (size clients' = 0%nat)
           then delete agentId (connectedClients srv)
           else <[agentId := clients']> (connectedClients srv)
       | None => connectedClients srv
       end |}.

Definition getConnectedCount (srv : Server) : nat := size (connectedClients srv).

Definition getConnectedAgents (srv : Server) : list string :=
  List.map fst (map_to_list (connectedClients srv)).

End WebSocketService.

(** ** trading.service.ts *)

Module TradingService.
Import Js.
Module BC := BlockchainService.
Module WS := WebSocketService.

(** A row of the [trade] table. [amountIn] and [amountOut] are the
    decimal strings of two bigints, kept here as the integers they
    print. *)
Record Trade : Type := mkTrade {
  agentId : string;
  txHash : string;
  blockNumber : Z;
  timestamp : Z;
  dex : string;
  type : string;
  tokenInAddress : string;
  tokenInSymbol : string;
  tokenInDecimals : Z;
  amountIn : Z;
  tokenOutAddress : string;
  tokenOutSymbol : string;
  tokenOutDecimals : Z;
  amountOut : Z;
  valueUsd : Q;
  profitLossUsd : Q
}.

(** A row of the [agent] table, with the columns the indexer touches. *)
Record Agent : Type := mkAgent {
  id : string;
  username : string;
  walletAddress : string;
  totalVolumeUsd : Q;
  totalProfitUsd : Q;
  winRate : Q;
  totalTrades : Z
}.

(** What the indexer puts in the [data] of the events it publishes: the
    saved trade, or the agent row as [prisma.agent.update] returns it
    (the wallet column rides along here; nothing reads it). *)
Inductive EventBody : Type :=
| TradeBody (trade : Trade)
| StatsBody (stats : Agent).

(** Everything the indexer reads from outside during one pass: the node,
    the spot-price feed and the clock, taken as they stand for the length
    of the pass. Database reads are taken to succeed; [tradeCreate] and
    [redisPublish] say whether the store accepts an insert and whether
    Redis accepts a publish. *)
Record Env : Type := mkEnv {
  rpc : BC.Rpc;
  feed : PriceService.FeedResponse;
  now : Z;
  tradeCreate : Trade -> bool;
  redisPublish : WS.WebSocketPayload EventBody -> bool
}.

(** The state the indexer reads and writes. *)
Record World : Type := mkWorld {
  trades : list Trade;
  agents : gmap string Agent;
  priceCache : gmap string PriceService.CacheEntry;
  channel : list (WS.WebSocketPayload EventBody)
}.

Definition ofAgent (a : string) (t : Trade) : bool := String.eqb (agentId t) a.

(** [prisma.trade.findUnique({ where: { txHash } })]. *)
Definition findUnique (rows : list Trade) (h : string) : option Trade :=
  List.find (fun t => String.eqb (txHash t) h) rows.

(** [prisma.trade.findFirst({ where: { agentId }, orderBy: { blockNumber: 'desc' } })]. *)
Definition pickLater (best : option Trade) (t : Trade) : option Trade :=
  match best with
  | None => Some t
  | Some b => if blockNumber b <? blockNumber t then Some t else Some b
  end.

Definition findLastTrade (rows : list Trade) (a : string) : option Trade :=
  fold_left pickLater (List.filter (ofAgent a) rows) None.

(** [prisma.trade.create]: [txHash] is a unique column. *)
Definition createTrade (env : Env) (rows : list Trade) (t : Trade) : result (list Trade) :=
  match findUnique rows (txHash t) with
  | Some _ => Throw "Unique constraint failed on txHash"
  | None => if tradeCreate env t then Ok (rows ++ [t]) else Throw "trade.create rejected"
  end.

Definition setTrades (w : World) (rows : list Trade) : World :=
  {| trades := rows; agents := agents w; priceCache := priceCache w; channel := channel w |}.

Definition setAgents (w : World) (m : gmap string Agent) : World :=
  {| trades := trades w; agents := m; priceCache := priceCache w; channel := channel w |}.

Definition setPriceCache (w : World) (c : gmap string PriceService.CacheEntry) : World :=
  {| trades := trades w; agents := agents w; priceCache := c; channel := channel w |}.

Definition setChannel (w : World) (c : list (WS.WebSocketPayload EventBody)) : World :=
  {| trades := trades w; agents := agents w; priceCache := priceCache w; channel := c |}.

(** [websocketService.publishEvent] on the world's channel. *)
Definition publish (env : Env) (w : World) (ev : WS.WebSocketEvent)
    (d : WS.EventData EventBody) : result World :=
  match WS.publishEvent (redisPublish env) (now env) (channel w) ev d with
  | Ok c => Ok (setChannel w c)
  | Throw e => Throw e
  end.

(** The trade record built from a swap and the two token infos. *)
Definition tradeOfSwap (a : string) (swap : BC.SwapEvent)
    (tokenInInfo tokenOutInfo : BC.TokenInfo) (valueInUsd valueOutUsd : Q) : Trade :=
  let profitLossUsd := (valueOutUsd - valueInUsd)%Q in
  {| agentId := a;
     txHash := BC.txHash swap;
     blockNumber := BC.blockNumber swap;
     timestamp := BC.timestamp swap * 1000;
     dex := "UNISWAP_V2";
     type := "SWAP";
     tokenInAddress := BC.tokenOut swap;
     tokenInSymbol := BC.symbol tokenOutInfo;
     tokenInDecimals := BC.decimals tokenOutInfo;
     amountIn := BC.amountOut swap;
     tokenOutAddress := BC.tokenIn swap;
     tokenOutSymbol := BC.symbol tokenInInfo;
     tokenOutDecimals := BC.decimals tokenInInfo;
     amountOut := BC.amountIn swap;
     valueUsd := valueInUsd;
     profitLossUsd := profitLossUsd |}.

(** What one turn of the [for (const swap of swaps)] loop does: it
    [continue]s without writing, it indexes the swap, or a rejection
    leaves the loop. *)
Inductive Turn : Type :=
| Skipped
| Indexed (w : World)
| Failed (w : World) (what : string).

(** The body of the loop of [indexAgentTrades]. The two
    [calculateUsdValue] calls of the [Promise.all] are run one after the
    other. *)
Definition indexOne (env : Env) (a : string) (swap : BC.SwapEvent) (w : World) : Turn :=
  match findUnique (trades w) (BC.txHash swap) with
  | Some _ => Skipped
  | None =>
      match BC.getTokenInfo (rpc env) (BC.tokenIn swap),
            BC.getTokenInfo (rpc env) (BC.tokenOut swap) with
      | Some tokenInInfo, Some tokenOutInfo =>
          let '(valueInUsd, c1) :=
            PriceService.calculateUsdValue (priceCache w) (now env) (feed env)
              (BC.tokenIn swap) (BC.amountIn swap) (BC.decimals tokenInInfo) in
          let '(valueOutUsd, c2) :=
            PriceService.calculateUsdValue c1 (now env) (feed env)
              (BC.tokenOut swap) (BC.amountOut swap) (BC.decimals tokenOutInfo) in
          let trade := tradeOfSwap a swap tokenInInfo tokenOutInfo valueInUsd valueOutUsd in
          let w1 := setPriceCache w c2 in
          match createTrade env (trades w1) trade with
          | Throw e => Failed w1 e
          | Ok rows =>
              let w2 := setTrades w1 rows in
              match publish env w2 WS.TRADE_INDEXED
                      (WS.mkData (Some (agentId trade)) (TradeBody trade)) with
              | Throw e => Failed w2 e
              | Ok w3 => Indexed w3
              end
          end
      | _, _ => Skipped
      end
  end.

(** The loop itself: a rejection ends it at once, and the world keeps
    what was written before. *)
Fixpoint indexSwaps (env : Env) (a : string) (swaps : list BC.SwapEvent)
    (w : World) (indexed : Z) : World * result Z :=
  match swaps with
  | [] => (w, Ok indexed)
  | swap :: rest =>
      match indexOne env a swap w with
      | Skipped => indexSwaps env a rest w indexed
      | Indexed w' => indexSwaps env a rest w' (indexed + 1)
      | Failed w' e => (w', Throw e)
      end
  end.

(** The aggregates [updateAgentStats] computes from the selected rows,
    read in exact arithmetic like every amount of this module; the same
    expressions on JS numbers, rounding as the code does, are in
    [StatsAggregator]. *)
Definition totalVolumeOf (rows : list Trade) : Q :=
  fold_left (fun sum t => (sum + valueUsd t)%Q) rows 0%Q.

Definition totalProfitOf (rows : list Trade) : Q :=
  fold_left (fun sum t => (sum + profitLossUsd t)%Q) rows 0%Q.

Definition isProfitable (t : Trade) : bool := PriceService.Qpositive (profitLossUsd t).

Definition profitableTradesOf (rows : list Trade) : Z :=
  Z.of_nat (length (List.filter isProfitable rows)).

Definition winRateOf (rows : list Trade) : Q :=
  (inject_Z (profitableTradesOf rows) / inject_Z (Z.of_nat (length rows)) * 100)%Q.

(** [updateAgentStats]. [prisma.agent.update] rejects when the agent row
    does not exist. *)
Definition updateAgentStats (env : Env) (a : string) (w : World) : World * result unit :=
  let rows := List.filter (ofAgent a) (trades w) in
  if (Z.of_nat (length rows) =? 0) then (w, Ok tt)
  else
    match agents w !! a with
    | None => (w, Throw "Record to update not found")
    | Some old =>
        let updatedAgent :=
          {| id := id old;
             username := username old;
             walletAddress := walletAddress old;
             totalVolumeUsd := totalVolumeOf rows;
             totalProfitUsd := totalProfitOf rows;
             winRate := winRateOf rows;
             totalTrades := Z.of_nat (length rows) |} in
        let w1 := setAgents w (<[a := updatedAgent]> (agents w)) in
        match publish env w1 WS.AGENT_STATS_UPDATED
                (WS.mkData (Some a) (StatsBody updatedAgent)) with
        | Throw e => (w1, Throw e)
        | Ok w2 =>
            match publish env w2 WS.LEADERBOARD_UPDATED
                    (WS.mkData (Some a) (StatsBody updatedAgent)) with
            | Throw e => (w2, Throw e)
            | Ok w3 => (w3, Ok tt)
            end
        end
    end.

(** The part of [indexAgentTrades] that follows the choice of the block
    range: reconstruct the swaps, index them, refresh the stats. *)
Definition indexRange (env : Env) (a walletAddress : string)
    (fromBlock currentBlock : Z) (w : World) : World * result Z :=
  let swaps :=
    BC.getSwapEventsForAddress (rpc env) walletAddress fromBlock (BC.BlockNum currentBlock) in
  match indexSwaps env a swaps w 0 with
  | (w1, Throw e) => (w1, Throw e)
  | (w1, Ok indexed) =>
      match updateAgentStats env a w1 with
      | (w2, Throw e) => (w2, Throw e)
      | (w2, Ok _) => (w2, Ok indexed)
      end
  end.

(** Where the scan starts: one past the agent's last indexed block, or
    10000 blocks back on the first pass. *)
Definition fromBlockOf (rows : list Trade) (a : string) (currentBlock : Z) : Z :=
  match findLastTrade rows a with
  | Some lastTrade => blockNumber lastTrade + 1
  | None => currentBlock - 10000
  end.

(** The watermark of the design, as the code derives it: the scan
    resumes at watermark + 1, so it is the highest block number among the
    agent's rows, or the block before the 10000-block lookback when the
    agent has no row. *)
Definition watermark (rows : list Trade) (a : string) (currentBlock : Z) : Z :=
  fromBlockOf rows a currentBlock - 1.

(** [indexAgentTrades]: the catch handler logs and rethrows. *)
Definition indexAgentTrades (env : Env) (a walletAddress : string) (w : World)
    : World * result Z :=
  match BC.getCurrentBlock (rpc env) with
  | Throw e => (w, Throw e)
  | Ok currentBlock =>
      indexRange env a walletAddress (fromBlockOf (trades w) a currentBlock) currentBlock w
  end.

(** What [indexAllAgentTrades] reports. *)
Record SweepReport : Type := mkReport {
  total : Z;
  successful : Z;
  failed : Z
}.

(** The [for (const agent of agents)] loop of [indexAllAgentTrades]: a
    pass that rejects is counted as failed and the loop goes on with the
    next agent, on the world that pass left. *)
Fixpoint indexAgents (env : Env) (found : list Agent) (w : World)
    (successful failed totalTrades : Z) : World * (Z * Z * Z) :=
  match found with
  | [] => (w, (successful, failed, totalTrades))
  | agent :: rest =>
      match indexAgentTrades env (id agent) (walletAddress agent) w with
      | (w', Ok indexed) =>
          indexAgents env rest w' (successful + 1) failed (totalTrades + indexed)
      | (w', Throw _) =>
          indexAgents env rest w' successful (failed + 1) totalTrades
      end
  end.

(** [indexAllAgentTrades], on the rows [prisma.agent.findMany] returned. *)
Definition indexAllAgentTrades (env : Env) (found : list Agent) (w : World)
    : World * SweepReport :=
  let '(w', (successful, failed, _)) := indexAgents env found w 0 0 0 in
  (w', {| total := Z.of_nat (length found);
          successful := successful;
          failed := failed |}).

End TradingService.

(** ** trading.service.ts: the numbers of [updateAgentStats]

    [TradingService] carries amounts as exact rationals. The aggregates
    are computed on JS numbers, each operation rounding, so here is
    [updateAgentStats] once more with the numbers as the code has them,
    on the columns it reads and writes. *)

Module StatsAggregator.
Import Js JsNumber.
Module WS := WebSocketService.

(** A row of the [trade] table as [findMany] selects it for an agent:
    [valueUsd] and [profitLossUsd], each as [Number(...)] reads it. *)
Record Trade : Type := mkTrade {
  agentId : string;
  valueUsd : number;
  profitLossUsd : number
}.

(** A row of the [agent] table as the update selects it. *)
Record Agent : Type := mkAgent {
  id : string;
  username : string;
  totalVolumeUsd : number;
  totalProfitUsd : number;
  winRate : number;
  totalTrades : Z
}.

Record World : Type := mkWorld {
  trades : list Trade;
  agents : gmap string Agent;
  channel : list (WS.WebSocketPayload Agent)
}.

Definition ofAgent (a : string) (t : Trade) : bool := String.eqb (agentId t) a.

(** [trades.reduce((sum, t) => sum + Number(t.valueUsd), 0)]. *)
Definition totalVolumeOf (rows : list Trade) : number :=
  fold_left (fun sum t => add sum (valueUsd t)) rows (ofZ 0).

(** [trades.reduce((sum, t) => sum + Number(t.profitLossUsd), 0)]. *)
Definition totalProfitOf (rows : list Trade) : number :=
  fold_left (fun sum t => add sum (profitLossUsd t)) rows (ofZ 0).

(** [Number(t.profitLossUsd) > 0]. *)
Definition isProfitable (t : Trade) : bool := gt (profitLossUsd t) (ofZ 0).

Definition profitableTradesOf (rows : list Trade) : Z :=
  Z.of_nat (length (List.filter isProfitable rows)).

(** [(profitableTrades / trades.length) * 100]. *)
Definition winRateOf (rows : list Trade) : number :=
  mul (div (ofZ (profitableTradesOf rows)) (ofZ (Z.of_nat (length rows)))) (ofZ 100).

(** [websocketService.publishEvent] on the world's channel. *)
Definition publish (redisPublish : WS.WebSocketPayload Agent -> bool) (now : Z)
    (w : World) (ev : WS.WebSocketEvent) (d : WS.EventData Agent) : result World :=
  match WS.publishEvent redisPublish now (channel w) ev d with
  | Ok c => Ok {| trades := trades w; agents := agents w; channel := c |}
  | Throw e => Throw e
  end.

(** [updateAgentStats]. [prisma.agent.update] rejects when the agent row
    does not exist. *)
Definition updateAgentStats (redisPublish : WS.WebSocketPayload Agent -> bool) (now : Z)
    (a : string) (w : World) : World * result unit :=
  let rows := List.filter (ofAgent a) (trades w) in
  if (Z.of_nat (length rows) =? 0) then (w, Ok tt)
  else
    match agents w !! a with
    | None => (w, Throw "Record to update not found")
    | Some old =>
        let updatedAgent :=
          {| id := id old;
             username := username old;
             totalVolumeUsd := totalVolumeOf rows;
             totalProfitUsd := totalProfitOf rows;
             winRate := winRateOf rows;
             totalTrades := Z.of_nat (length rows) |} in
        let w1 := {| trades := trades w;
                     agents := <[a := updatedAgent]> (agents w);
                     channel := channel w |} in
        match publish redisPublish now w1 WS.AGENT_STATS_UPDATED
                (WS.mkData (Some a) updatedAgent) with
        | Throw e => (w1, Throw e)
        | Ok w2 =>
            match publish redisPublish now w2 WS.LEADERBOARD_UPDATED
                    (WS.mkData (Some a) updatedAgent) with
            | Throw e => (w2, Throw e)
            | Ok w3 => (w3, Ok tt)
            end
        end
    end.

End StatsAggregator.

(** ** middleware/rate-limit.ts *)

Module RateLimit.
Import Js.

Record RateLimitConfig : Type := mkConfig {
  maxRequests : Z;
  windowMs : Z;
  keyPrefix : string
}.

(** A member of the sorted set is the string [`${now}:${Math.random()}`]:
    the time of the request and the printed random draw. *)
Definition Member : Type := (Z * string)%type.

Definition memberEqb (a b : Member) : bool :=
  (Z.eqb (fst a) (fst b) && String.eqb (snd a) (snd b))%bool.

(** A Redis sorted set (score, member) with the time at which the key
    expires. *)
Record SortedSet : Type := mkSet {
  entries : list (Z * Member);
  expireAt : Z
}.

(** The entries a command sees at time [now]: an expired key is gone. *)
Definition live (store : gmap string SortedSet) (key : string) (now : Z)
    : list (Z * Member) :=
  match store !! key with
  | Some s => if expireAt s <=? now then [] else entries s
  | None => []
  end.

(** [ZREMRANGEBYSCORE key lo hi]. *)
Definition zremrangebyscore (lo hi : Z) (es : list (Z * Member)) : list (Z * Member) :=
  List.filter (fun e => negb ((lo <=? fst e) && (fst e <=? hi))%bool) es.

(** [ZCARD key]. *)
Definition zcard (es : list (Z * Member)) : Z := Z.of_nat (length es).

(** [ZADD key score member]: a member that is already present only gets
    the new score. *)
Definition zadd (score : Z) (m : Member) (es : list (Z * Member)) : list (Z * Member) :=
  (score, m) :: List.filter (fun e => negb (memberEqb (snd e) m)) es.

(** The score [ZRANGE key 0 0 WITHSCORES] reports: the lowest one. *)
Fixpoint lowestScore (es : list (Z * Member)) : option Z :=
  match es with
  | [] => None
  | e :: rest =>
      match lowestScore rest with
      | None => Some (fst e)
      | Some m => Some (Z.min (fst e) m)
      end
  end.

(** What [checkRateLimit] does to the reply: it sends a 429, or it only
    sets the three headers and lets the request through. *)
Inductive Reply : Type :=
| Rejected (status : Z) (retryAfter : Z) (limit : Z) (remaining : Z) (reset : Z)
| Allowed (limit : Z) (remaining : Z) (reset : Z).

Definition checkRateLimit (store : gmap string SortedSet) (key : string)
    (config : RateLimitConfig) (now : Z) (random : string)
    : gmap string SortedSet * Reply :=
  let windowStart := now - windowMs config in
  let pruned := zremrangebyscore 0 windowStart (live store key now) in
  let currentCount := zcard pruned in
  let added := zadd now (now, random) pruned in
  let store' :=
    <[key := {| entries := added;
                expireAt := now + ceilDiv (windowMs config) 1000 * 1000 |}]> store in
  if maxRequests config <=? currentCount then
    let resetTime :=
      match lowestScore added with
      | Some oldest => oldest + windowMs config
      | None => now + windowMs config
      end in
    let retryAfter := ceilDiv (resetTime - now) 1000 in
    (store', Rejected 429 retryAfter (maxRequests config) 0 resetTime)
  else
    (store', Allowed (maxRequests config) (maxRequests config - currentCount - 1)
               (now + windowMs config)).

(** The key [rateLimiter] checks: by agent id when the request is
    authenticated, by IP otherwise. *)
Definition limiterKey (config : RateLimitConfig) (agent : option string) (ip : string)
    : string :=
  match agent with
  | None => keyPrefix config +:+ ":ip:" +:+ ip
  | Some agentId => keyPrefix config +:+ ":agent:" +:+ agentId
  end.

Definition rateLimiter (config : RateLimitConfig) (store : gmap string SortedSet)
    (agent : option string) (ip : string) (now : Z) (random : string)
    : gmap string SortedSet * Reply :=
  checkRateLimit store (limiterKey config agent ip) config now random.

End RateLimit.

(** * Properties *)

(** ** Price Resolver *)

Module PriceFacts.
Import Js PriceService.

(** The address is one of the three stablecoins of [BASE_TOKENS], in any
    letter case. *)
Definition knownStablecoin (tokenAddress : string) : Prop :=
  toLowerCase tokenAddress = toLowerCase USDC
  \/ toLowerCase tokenAddress = toLowerCase DAI
  \/ toLowerCase tokenAddress = toLowerCase USDT.

(** The address has a liquidity path the resolver knows: WETH or a
    stablecoin. *)
Definition knownPath (tokenAddress : string) : Prop :=
  toLowerCase tokenAddress = toLowerCase WETH \/ knownStablecoin tokenAddress.

(** What every cache the service builds satisfies: only known tokens are
    cached, and a stablecoin is cached at 1. *)
Definition cacheSound (cache : gmap string CacheEntry) : Prop :=
  forall tokenAddress e,
    cache !! toLowerCase tokenAddress = Some e ->
    knownPath tokenAddress /\ (knownStablecoin tokenAddress -> price e = 1%Q).

Lemma isStablecoin_spec tokenAddress :
  isStablecoin tokenAddress = true <-> knownStablecoin tokenAddress.
Proof.
  unfold isStablecoin, knownStablecoin.
  rewrite !orb_true_iff, !String.eqb_eq. tauto.
Qed.

Lemma isWeth_spec tokenAddress :
  isWeth tokenAddress = true <-> toLowerCase tokenAddress = toLowerCase WETH.
Proof. unfold isWeth. apply String.eqb_eq. Qed.

Lemma weth_not_stable tokenAddress :
  isWeth tokenAddress = true -> isStablecoin tokenAddress = false.
Proof.
  intros Hw. apply isWeth_spec in Hw.
  unfold isStablecoin. rewrite Hw. reflexivity.
Qed.

Lemma same_key_stable a b :
  toLowerCase a = toLowerCase b -> knownStablecoin a -> knownStablecoin b.
Proof. unfold knownStablecoin. intros <-. tauto. Qed.

Lemma same_key_path a b :
  toLowerCase a = toLowerCase b -> knownPath a -> knownPath b.
Proof. unfold knownPath, knownStablecoin. intros <-. tauto. Qed.

(** A cache miss on a stablecoin resolves to exactly 1. *)
Lemma resolve_stablecoin cache now feed tokenAddress :
  knownStablecoin tokenAddress ->
  fst (resolvePrice cache now feed tokenAddress) = 1%Q.
Proof.
  intros Hs. apply isStablecoin_spec in Hs.
  unfold resolvePrice, getPriceFromUniswap.
  destruct (isWeth tokenAddress) eqn:Hw.
  - apply weth_not_stable in Hw. congruence.
  - rewrite Hs. reflexivity.
Qed.

(** A cache miss on an unknown token resolves to 0 and writes nothing. *)
Lemma resolve_unknown cache now feed tokenAddress :
  ~ knownPath tokenAddress ->
  resolvePrice cache now feed tokenAddress = (0%Q, cache).
Proof.
  intros Hn. unfold resolvePrice, getPriceFromUniswap, getFallbackPrice.
  destruct (isWeth tokenAddress) eqn:Hw.
  { exfalso. apply Hn. left. by apply isWeth_spec. }
  destruct (isStablecoin tokenAddress) eqn:Hs.
  { exfalso. apply Hn. right. by apply isStablecoin_spec. }
  reflexivity.
Qed.

Lemma resolve_sound cache now feed tokenAddress :
  cacheSound cache -> cacheSound (snd (resolvePrice cache now feed tokenAddress)).
Proof.
  intros Hc. unfold resolvePrice.
  set (p0 := getPriceFromUniswap feed tokenAddress).
  set (p1 := if Qeq_bool p0 0 then getFallbackPrice tokenAddress else p0).
  destruct (Qpositive p1) eqn:Hpos; simpl; [| exact Hc].
  intros a e. rewrite lookup_insert. case_decide as Hk.
  - intros [= <-]. simpl.
    destruct (isWeth tokenAddress) eqn:Hw.
    + split.
      * left. rewrite <- Hk. by apply isWeth_spec.
      * intros Hs. apply (same_key_stable a tokenAddress) in Hs; [| done].
        apply isStablecoin_spec in Hs. apply weth_not_stable in Hw. congruence.
    + destruct (isStablecoin tokenAddress) eqn:Hs.
      * split.
        -- right. apply (same_key_stable tokenAddress a); [done |].
           by apply isStablecoin_spec.
        -- intros _. subst p1 p0. unfold getPriceFromUniswap.
           rewrite Hw, Hs. reflexivity.
      * exfalso. subst p1 p0.
        unfold getPriceFromUniswap, getFallbackPrice in Hpos.
        rewrite Hw, Hs in Hpos. discriminate.
  - apply Hc.
Qed.

Lemma getTokenPriceUsd_sound cache now feed tokenAddress :
  cacheSound cache -> cacheSound (snd (getTokenPriceUsd cache now feed tokenAddress)).
Proof.
  intros Hc. unfold getTokenPriceUsd.
  destruct (cache !! toLowerCase tokenAddress) as [cached|].
  - destruct (now - timestamp cached <? CACHE_TTL); [exact Hc |].
    by apply resolve_sound.
  - by apply resolve_sound.
Qed.

Lemma reachable_sound cache : reachable cache -> cacheSound cache.
Proof.
  induction 1 as [| cache now feed a _ IH | cache _ _].
  - intros a e. rewrite lookup_empty. discriminate.
  - by apply getTokenPriceUsd_sound.
  - intros a e. unfold clearCache. rewrite lookup_empty. discriminate.
Qed.

Lemma getTokenPriceUsd_unknown cache now feed tokenAddress :
  cacheSound cache -> ~ knownPath tokenAddress ->
  getTokenPriceUsd cache now feed tokenAddress = (0%Q, cache).
Proof.
  intros Hr Hn. unfold getTokenPriceUsd.
  destruct (cache !! toLowerCase tokenAddress) as [cached|] eqn:Hc.
  - exfalso. apply Hn. by apply (Hr tokenAddress cached Hc).
  - by apply resolve_unknown.
Qed.


(** C6. Whatever the service has cached so far, whatever the time and
    whatever the spot-price feed does, [getTokenPriceUsd] returns exactly
    1 for USDC, DAI and USDT, and returns 0 (a value, the function has no
    rejecting path) for an address that is neither WETH nor a stablecoin,
    leaving the cache as it was. *)
Theorem price_fallback cache now feed tokenAddress :
  reachable cache ->
  (knownStablecoin tokenAddress ->
     fst (getTokenPriceUsd cache now feed tokenAddress) = 1%Q)
  /\ (~ knownPath tokenAddress ->
        getTokenPriceUsd cache now feed tokenAddress = (0%Q, cache)).
Proof.
  intros Hr. apply reachable_sound in Hr. split.
  - intros Hs. unfold getTokenPriceUsd.
    destruct (cache !! toLowerCase tokenAddress) as [cached|] eqn:Hc.
    + destruct (now - timestamp cached <? CACHE_TTL).
      * simpl. by apply (Hr tokenAddress cached Hc).
      * by apply resolve_stablecoin.
    + by apply resolve_stablecoin.
  - intros Hn. by apply getTokenPriceUsd_unknown.
Qed.

(** A cache that has already seen WETH and USDC, queried for USDC (in
    lower case) and for an unlisted token. *)
Definition warmCache : gmap string CacheEntry :=
  snd (getTokenPriceUsd
         (snd (getTokenPriceUsd ∅ 1000 (FetchOk (Some 3000%Q)) WETH))
         2000 FetchRejects USDC).

Lemma price_fallback_witness :
  fst (getTokenPriceUsd warmCache 3000 FetchNotOk
         "0x833589fcd6edb6e08f4c7c32d4f71b54bda02913") = 1%Q
  /\ getTokenPriceUsd warmCache 3000 FetchNotOk
       "0x1111111111111111111111111111111111111111" = (0%Q, warmCache).
Proof.
  assert (Hr : reachable warmCache) by (unfold warmCache; do 2 apply reach_get; apply reach_init).
  split.
  - apply (price_fallback warmCache 3000 FetchNotOk _ Hr).
    left. reflexivity.
  - apply (price_fallback warmCache 3000 FetchNotOk _ Hr).
    unfold knownPath, knownStablecoin. intros [H | [H | [H | H]]]; discriminate H.
Defined.

End PriceFacts.

(** ** Swap Reconstructor *)

Module ReconstructorFacts.
Import Js BlockchainService.




(** A chain node holding [logs] and answering every lookup: the fixture
    of the worked example. *)
Definition inRange (fromBlock : Z) (toBlock : BlockTag) (t : TransferLog) : bool :=
  ((fromBlock <=? logBlockNumber t)
   && match toBlock with Latest => true | BlockNum n => logBlockNumber t <=? n end)%bool.

Definition nodeOf (logs : list TransferLog) (head : Z) : Rpc :=
  {| getBlockNumber := Ok head;
     getLogsFrom := fun a f t =>
       Some (List.filter (fun l => (isOutbound a l && inRange f t l)%bool) logs);
     getLogsTo := fun a f t =>
       Some (List.filter (fun l => (isInbound a l && inRange f t l)%bool) logs);
     getTransactionData := fun h =>
       match List.find (fun l => String.eqb (transactionHash l) h) logs with
       | Some l => Some {| receipt_blockNumber := logBlockNumber l;
                           block_timestamp := 1700000000;
                           tx_from := "0xAAAAaaaaAAAAaaaaAAAAaaaaAAAAaaaaAAAAaaaa";
                           tx_to := Some "0xCCCCccccCCCCccccCCCCccccCCCCccccCCCCcccc" |}
       | None => None
       end;
     readErc20 := fun a => Some ("Token", "TKN", 18) |}.

(** The example of the design: in one transaction, A sends 100 TokenX to
    a contract, the contract forwards them to a pool, the pool sends A 40
    TokenY. *)
Definition addrA : string := "0xAAAAaaaaAAAAaaaaAAAAaaaaAAAAaaaaAAAAaaaa".
Definition tokenX : string := "0x1000000000000000000000000000000000000001".



(** *** Grouping *)


Lemma groupByTx_snoc l t : groupByTx (l ++ [t]) = pushTransfer t (groupByTx l).
Proof. unfold groupByTx. rewrite fold_left_app. reflexivity. Qed.



Lemma keys_push t G :
  NoDup (List.map fst G) ->
  NoDup (List.map fst (pushTransfer t G))
  /\ forall k, k ∈ List.map fst (pushTransfer t G) ->
       k = transactionHash t \/ k ∈ List.map fst G.
Proof.
  induction G as [| [k g] rest IH]; simpl; intros Hnd.
  - split; [apply NoDup_singleton |].
    intros k Hk. apply list_elem_of_singleton in Hk. by left.
  - apply NoDup_cons in Hnd as [Hk Hrest].
    destruct (String.eqb k (transactionHash t)) eqn:Hkt; simpl.
    + split; [by apply NoDup_cons |]. intros k' Hk'. by right.
    + destruct (IH Hrest) as [IH1 IH2]. split.
      * apply NoDup_cons. split; [| done].
        intros Hin. destruct (IH2 _ Hin) as [-> | Hin'].
        -- rewrite String.eqb_refl in Hkt. discriminate.
        -- by apply Hk.
      * intros k' Hk'. apply elem_of_cons in Hk' as [-> | Hin].
        -- right. by left.
        -- destruct (IH2 _ Hin); [by left | right; by right].
Qed.

Lemma keys_groupByTx l : NoDup (List.map fst (groupByTx l)).
Proof.
  induction l as [| t l IH] using rev_ind; [constructor |].
  rewrite groupByTx_snoc. by apply keys_push.
Qed.

(** *** Parsing the groups *)

Lemma parse_txHash rpc h transfers a s :
  parseSwapFromTransfers rpc h transfers a = Some s -> txHash s = h.
Proof.
  unfold parseSwapFromTransfers.
  destruct (getTransactionData rpc h); [| discriminate].
  destruct (head _); [| discriminate].
  destruct (last _); [| discriminate].
  by intros [= <-].
Qed.



(** *** Sorting *)

Lemma insertByBlock_perm s l : Permutation (insertByBlock s l) (s :: l).
Proof.
  induction l as [| x l IH]; simpl; [reflexivity |].
  destruct (blockNumber s <=? blockNumber x); [reflexivity |].
  rewrite IH. apply perm_swap.
Qed.

Lemma sortByBlock_perm l : Permutation (sortByBlock l) l.
Proof.
  induction l as [| s l IH]; simpl; [reflexivity |].
  rewrite insertByBlock_perm. by constructor.
Qed.




(** *** Where a candidate comes from *)

Lemma parseGroups_in rpc a G s :
  In s (parseGroups rpc a G) ->
  exists k g, In (k, g) G /\ parseSwapFromTransfers rpc k g a = Some s.
Proof.
  induction G as [| [k g] rest IH]; simpl; [intros [] |].
  assert (Hrest : In s (parseGroups rpc a rest) ->
                  exists k0 g0, In (k0, g0) ((k, g) :: rest)
                    /\ parseSwapFromTransfers rpc k0 g0 a = Some s).
  { intros H. destruct (IH H) as (k0 & g0 & Hin & Hp). exists k0, g0. split; [by right | done]. }
  destruct (2 <=? Z.of_nat (length g)); [| exact Hrest].
  destruct (parseSwapFromTransfers rpc k g a) as [s0 |] eqn:Hp; [| exact Hrest].
  intros [<- | H]; [| by apply Hrest]. exists k, g. split; [by left | done].
Qed.

Lemma groupByTx_key l k g :
  In (k, g) (groupByTx l) -> exists t, In t l /\ transactionHash t = k.
Proof.
  revert k g. induction l as [| t l IH] using rev_ind; intros k g; [intros [] |].
  rewrite groupByTx_snoc. intros Hin.
  assert (Hk : k ∈ List.map fst (pushTransfer t (groupByTx l))).
  { apply list_elem_of_In. change k with (fst (k, g)). by apply List.in_map. }
  destruct (keys_push t (groupByTx l) (keys_groupByTx l)) as [_ Hkeys].
  destruct (Hkeys k Hk) as [-> | Hold].
  - exists t. split; [| done]. apply List.in_or_app. right. by left.
  - apply list_elem_of_In, List.in_map_iff in Hold as ([k0 g0] & Heq & Hin0).
    simpl in Heq. subst k0. destruct (IH _ _ Hin0) as (t0 & Ht0 & Hh).
    exists t0. split; [| done]. apply List.in_or_app. by left.
Qed.

(** Every candidate carries the hash of a fetched transfer and the
    block number of that transaction's receipt. *)
Lemma candidate_origin rpc a fromBlock toBlock transfersOut transfersIn s :
  getLogsFrom rpc a fromBlock toBlock = Some transfersOut ->
  getLogsTo rpc a fromBlock toBlock = Some transfersIn ->
  In s (getSwapEventsForAddress rpc a fromBlock toBlock) ->
  exists t look,
    In t (transfersOut ++ transfersIn)
    /\ getTransactionData rpc (transactionHash t) = Some look
    /\ blockNumber s = receipt_blockNumber look.
Proof.
  intros HOut HIn Hs. unfold getSwapEventsForAddress in Hs. rewrite HOut, HIn in Hs.
  apply (Permutation_in _ (sortByBlock_perm _)) in Hs.
  apply parseGroups_in in Hs as (k & g & Hin & Hp).
  apply groupByTx_key in Hin as (t & Ht & Hk). subst k.
  unfold parseSwapFromTransfers in Hp.
  destruct (getTransactionData rpc (transactionHash t)) as [look |] eqn:Hl; [| discriminate].
  exists t, look. split; [done |]. split; [done |].
  destruct (head _); [| discriminate]. destruct (last _); [| discriminate].
  by injection Hp as <-.
Qed.

(** A node is consistent when the receipt of a transaction whose log it
    returned for a block range lies in that range. *)
Definition chainConsistent (rpc : Rpc) : Prop :=
  forall a fromBlock toBlock logs t look,
    getLogsFrom rpc a fromBlock (BlockNum toBlock) = Some logs
    \/ getLogsTo rpc a fromBlock (BlockNum toBlock) = Some logs ->
    In t logs ->
    getTransactionData rpc (transactionHash t) = Some look ->
    fromBlock <= receipt_blockNumber look <= toBlock.

Lemma candidate_in_range rpc a fromBlock toBlock s :
  chainConsistent rpc ->
  In s (getSwapEventsForAddress rpc a fromBlock (BlockNum toBlock)) ->
  fromBlock <= blockNumber s <= toBlock.
Proof.
  intros Hc Hs.
  destruct (getLogsFrom rpc a fromBlock (BlockNum toBlock)) as [tOut |] eqn:HOut;
    [| unfold getSwapEventsForAddress in Hs; rewrite HOut in Hs; destruct Hs].
  destruct (getLogsTo rpc a fromBlock (BlockNum toBlock)) as [tIn |] eqn:HIn;
    [| unfold getSwapEventsForAddress in Hs; rewrite HOut, HIn in Hs; destruct Hs].
  destruct (candidate_origin _ _ _ _ _ _ _ HOut HIn Hs) as (t & look & Ht & Hl & ->).
  apply List.in_app_or in Ht as [Ht | Ht].
  - eapply Hc; [left; exact HOut | exact Ht | exact Hl].
  - eapply Hc; [right; exact HIn | exact Ht | exact Hl].
Qed.

Lemma nodeOf_fetch logs head a fromBlock toBlock fetched t :
  getLogsFrom (nodeOf logs head) a fromBlock toBlock = Some fetched
  \/ getLogsTo (nodeOf logs head) a fromBlock toBlock = Some fetched ->
  In t fetched ->
  In t logs /\ inRange fromBlock toBlock t = true.
Proof.
  intros [H | H] Ht; simpl in H; injection H as <-;
    apply List.filter_In in Ht as [Ht Hr]; apply andb_true_iff in Hr as [_ Hr]; done.
Qed.

(** *** The reconstruction *)





End ReconstructorFacts.

(** ** Trade Indexer *)

Module IndexerFacts.
Import Js TradingService.

(** The transaction hashes of the persisted rows. *)
Definition hashes (rows : list Trade) : list string := List.map txHash rows.

(** The [@unique] constraint of the [txHash] column. *)
Definition uniqueHashes (rows : list Trade) : Prop := NoDup (hashes rows).

(** The row the loop body builds for a swap, when both token infos are
    available. *)
Definition builtTrade (env : Env) (a : string) (swap : BC.SwapEvent) (w : World)
    : option Trade :=
  match BC.getTokenInfo (rpc env) (BC.tokenIn swap),
        BC.getTokenInfo (rpc env) (BC.tokenOut swap) with
  | Some tokenInInfo, Some tokenOutInfo =>
      let '(valueInUsd, c1) :=
        PriceService.calculateUsdValue (priceCache w) (now env) (feed env)
          (BC.tokenIn swap) (BC.amountIn swap) (BC.decimals tokenInInfo) in
      let '(valueOutUsd, c2) :=
        PriceService.calculateUsdValue c1 (now env) (feed env)
          (BC.tokenOut swap) (BC.amountOut swap) (BC.decimals tokenOutInfo) in
      Some (tradeOfSwap a swap tokenInInfo tokenOutInfo valueInUsd valueOutUsd)
  | _, _ => None
  end.

(** A token-info lookup of the swap came back [null]. *)
Definition infoMissing (env : Env) (swap : BC.SwapEvent) : Prop :=
  BC.getTokenInfo (rpc env) (BC.tokenIn swap) = None
  \/ BC.getTokenInfo (rpc env) (BC.tokenOut swap) = None.

(** The event published for an indexed trade. *)
Definition tradeIndexedPayload (env : Env) (t : Trade) : WS.WebSocketPayload EventBody :=
  WS.mkPayload WS.TRADE_INDEXED (WS.mkData (Some (agentId t)) (TradeBody t)) (now env).

(** A fixture: agent-1 owns wallet A, which in transaction 0xabc1 of
    block 500 sends 100 USDC (6 decimals) to a pool and gets 40 DAI (18
    decimals) back. The node answers every lookup, the price feed is
    down, the store and Redis accept every write. *)
Definition walletA : string := "0xAAAAaaaaAAAAaaaaAAAAaaaaAAAAaaaaAAAAaaaa".
Definition poolP : string := "0xDDDDddddDDDDddddDDDDddddDDDDddddDDDDdddd".

Definition swapLogs : list BC.TransferLog :=
  [ BC.mkLog PriceService.USDC "0xabc1" 500 0 (Some walletA) (Some poolP) 100000000;
    BC.mkLog PriceService.DAI "0xabc1" 500 1 (Some poolP) (Some walletA)
      40000000000000000000 ].

Definition erc20Of (tokenAddress : string) : option (string * string * Z) :=
  if String.eqb (toLowerCase tokenAddress) (toLowerCase PriceService.USDC)
  then Some ("USD Coin", "USDC", 6)
  else if String.eqb (toLowerCase tokenAddress) (toLowerCase PriceService.DAI)
  then Some ("Dai Stablecoin", "DAI", 18)
  else None.

Definition fixtureRpc : BC.Rpc :=
  let node := ReconstructorFacts.nodeOf swapLogs 1000 in
  {| BC.getBlockNumber := BC.getBlockNumber node;
     BC.getLogsFrom := BC.getLogsFrom node;
     BC.getLogsTo := BC.getLogsTo node;
     BC.getTransactionData := BC.getTransactionData node;
     BC.readErc20 := erc20Of |}.

Definition fixtureEnv : Env :=
  {| rpc := fixtureRpc;
     feed := PriceService.FetchRejects;
     now := 1700000000000;
     tradeCreate := fun _ => true;
     redisPublish := fun _ => true |}.

Definition newAgent (i u wallet : string) : Agent :=
  {| id := i; username := u; walletAddress := wallet;
     totalVolumeUsd := 0; totalProfitUsd := 0; winRate := 0; totalTrades := 0 |}.

Definition world0 : World :=
  {| trades := [];
     agents := {[ "agent-1" := newAgent "agent-1" "alice" walletA;
                  "agent-2" := newAgent "agent-2" "bob" walletA ]};
     priceCache := ∅;
     channel := [] |}.

(** The world after agent-1 has been indexed once. *)
Definition world1 : World := fst (indexAgentTrades fixtureEnv "agent-1" walletA world0).





(** The USD value the resolver gives a leg, against the cache of [w]. *)
Definition legUsd (env : Env) (w : World) (token : string) (amount decimals : Z) : Q :=
  fst (PriceService.calculateUsdValue (priceCache w) (now env) (feed env)
         token amount decimals).

(** The five ways a turn of the loop can go. *)
Inductive TurnSpec (env : Env) (a : string) (swap : BC.SwapEvent) (w : World)
    : Turn -> Prop :=
| turn_duplicate :
    BC.txHash swap ∈ hashes (trades w) ->
    TurnSpec env a swap w Skipped
| turn_no_info :
    BC.txHash swap ∉ hashes (trades w) ->
    infoMissing env swap ->
    TurnSpec env a swap w Skipped
| turn_indexed t w' :
    BC.txHash swap ∉ hashes (trades w) ->
    builtTrade env a swap w = Some t ->
    tradeCreate env t = true ->
    redisPublish env (tradeIndexedPayload env t) = true ->
    trades w' = trades w ++ [t] ->
    agents w' = agents w ->
    TurnSpec env a swap w (Indexed w')
| turn_create_rejected t w' e :
    BC.txHash swap ∉ hashes (trades w) ->
    builtTrade env a swap w = Some t ->
    tradeCreate env t = false ->
    trades w' = trades w ->
    agents w' = agents w ->
    TurnSpec env a swap w (Failed w' e)
| turn_publish_rejected t w' e :
    BC.txHash swap ∉ hashes (trades w) ->
    builtTrade env a swap w = Some t ->
    tradeCreate env t = true ->
    redisPublish env (tradeIndexedPayload env t) = false ->
    trades w' = trades w ++ [t] ->
    agents w' = agents w ->
    TurnSpec env a swap w (Failed w' e).

Lemma findUnique_None rows h : findUnique rows h = None <-> h ∉ hashes rows.
Proof.
  unfold findUnique, hashes. induction rows as [| t rows IH]; simpl.
  - split; [intros _; apply not_elem_of_nil | done].
  - rewrite not_elem_of_cons. destruct (String.eqb (txHash t) h) eqn:E.
    + apply String.eqb_eq in E. split; [discriminate | intros [? _]; congruence].
    + apply String.eqb_neq in E. rewrite IH. split; [intros ?; split; congruence | tauto].
Qed.

Lemma findUnique_Some rows h t :
  findUnique rows h = Some t -> In t rows /\ txHash t = h.
Proof.
  unfold findUnique. intros H. apply List.find_some in H as [Hin E].
  split; [done |]. by apply String.eqb_eq.
Qed.

Lemma findUnique_elem rows h : h ∈ hashes rows -> is_Some (findUnique rows h).
Proof.
  intros Hin. destruct (findUnique rows h) eqn:E; [by eexists |].
  apply findUnique_None in E. contradiction.
Qed.

Lemma indexOne_spec env a swap w : TurnSpec env a swap w (indexOne env a swap w).
Proof.
  unfold indexOne.
  destruct (findUnique (trades w) (BC.txHash swap)) as [old |] eqn:Hfind.
  { apply turn_duplicate. destruct (decide (BC.txHash swap ∈ hashes (trades w))); [done |].
    apply findUnique_None in n. congruence. }
  apply findUnique_None in Hfind as Hfresh.
  destruct (BC.getTokenInfo (rpc env) (BC.tokenIn swap)) as [tokenInInfo |] eqn:HiIn;
    [| apply turn_no_info; [done | by left]].
  destruct (BC.getTokenInfo (rpc env) (BC.tokenOut swap)) as [tokenOutInfo |] eqn:HiOut;
    [| apply turn_no_info; [done | by right]].
  destruct (PriceService.calculateUsdValue (priceCache w) (now env) (feed env)
              (BC.tokenIn swap) (BC.amountIn swap) (BC.decimals tokenInInfo))
    as [valueInUsd c1] eqn:Hin.
  destruct (PriceService.calculateUsdValue c1 (now env) (feed env)
              (BC.tokenOut swap) (BC.amountOut swap) (BC.decimals tokenOutInfo))
    as [valueOutUsd c2] eqn:Hout.
  set (t := tradeOfSwap a swap tokenInInfo tokenOutInfo valueInUsd valueOutUsd).
  assert (Hbuilt : builtTrade env a swap w = Some t).
  { unfold builtTrade. rewrite HiIn, HiOut, Hin, Hout. reflexivity. }
  unfold createTrade. simpl. rewrite Hfind.
  destruct (tradeCreate env t) eqn:Hcreate.
  - unfold publish, WS.publishEvent. simpl.
    destruct (redisPublish env (tradeIndexedPayload env t)) eqn:Hpub;
      pose proof Hpub as Hpub'; unfold tradeIndexedPayload in Hpub';
      simpl in Hpub'; rewrite Hpub'.
    + by eapply turn_indexed.
    + by eapply turn_publish_rejected.
  - by eapply turn_create_rejected.
Qed.

Lemma builtTrade_fields env a swap w t :
  builtTrade env a swap w = Some t ->
  agentId t = a /\ txHash t = BC.txHash swap /\ blockNumber t = BC.blockNumber swap.
Proof.
  unfold builtTrade.
  destruct (BC.getTokenInfo _ (BC.tokenIn swap)); [| discriminate].
  destruct (BC.getTokenInfo _ (BC.tokenOut swap)); [| discriminate].
  destruct (PriceService.calculateUsdValue _ _ _ (BC.tokenIn swap) _ _).
  destruct (PriceService.calculateUsdValue _ _ _ (BC.tokenOut swap) _ _).
  intros [= <-]. auto.
Qed.

(** A row written during a pass over [swaps] for agent [a]. *)
Definition fromSwaps (a : string) (swaps : list BC.SwapEvent) (t : Trade) : Prop :=
  agentId t = a
  /\ exists swap, In swap swaps
       /\ txHash t = BC.txHash swap /\ blockNumber t = BC.blockNumber swap.

Lemma fromSwaps_cons a swap swaps t : fromSwaps a swaps t -> fromSwaps a (swap :: swaps) t.
Proof. intros [Ha (s & Hin & Hs)]. split; [done |]. exists s. split; [by right | done]. Qed.

Lemma fromSwaps_built env a swap swaps w t :
  builtTrade env a swap w = Some t -> fromSwaps a (swap :: swaps) t.
Proof.
  intros Hb. apply builtTrade_fields in Hb as (Ha & Hh & Hb).
  split; [done |]. exists swap. split; [by left | done].
Qed.

Lemma hashes_snoc rows t : hashes (rows ++ [t]) = hashes rows ++ [txHash t].
Proof. unfold hashes. by rewrite List.map_app. Qed.

Lemma uniqueHashes_snoc rows t :
  uniqueHashes rows -> txHash t ∉ hashes rows -> uniqueHashes (rows ++ [t]).
Proof.
  unfold uniqueHashes. rewrite hashes_snoc. intros Hu Hn.
  apply NoDup_app. split; [done |]. split; [| apply NoDup_singleton].
  intros h Hh Hin. apply list_elem_of_singleton in Hin. congruence.
Qed.

(** The loop only appends rows, all of them for the agent and built
    from the swaps at hand, and never touches the agent table. *)
Lemma indexSwaps_grows env a swaps :
  forall w n w' r,
    indexSwaps env a swaps w n = (w', r) ->
    exists added,
      trades w' = trades w ++ added
      /\ agents w' = agents w
      /\ Forall (fromSwaps a swaps) added.
Proof.
  induction swaps as [| swap rest IH]; simpl; intros w n w' r Hrun.
  - injection Hrun as <- <-. exists []. by rewrite app_nil_r.
  - pose proof (indexOne_spec env a swap w) as Hs.
    destruct (indexOne env a swap w) as [| w1 | w1 e]; inversion Hs; subst.
    + destruct (IH _ _ _ _ Hrun) as (added & Ht & Ha & Hf).
      exists added. repeat split; try done. eapply Forall_impl; [exact Hf |].
      intros ?. apply fromSwaps_cons.
    + destruct (IH _ _ _ _ Hrun) as (added & Ht & Ha & Hf).
      exists added. repeat split; try done. eapply Forall_impl; [exact Hf |].
      intros ?. apply fromSwaps_cons.
    + destruct (IH _ _ _ _ Hrun) as (added & Ht & Ha & Hf).
      exists (t :: added). split; [| split].
      * rewrite Ht. match goal with H : trades w1 = _ |- _ => rewrite H end.
        by rewrite <- app_assoc.
      * congruence.
      * constructor; [by eapply fromSwaps_built |].
        eapply Forall_impl; [exact Hf |]. intros ?. apply fromSwaps_cons.
    + injection Hrun as <- <-. exists []. rewrite app_nil_r. repeat split; try done.
    + injection Hrun as <- <-. exists [t]. repeat split; try done.
      constructor; [by eapply fromSwaps_built | constructor].
Qed.

(** The loop keeps transaction hashes unique. *)
Lemma indexSwaps_unique env a swaps :
  forall w n w' r,
    indexSwaps env a swaps w n = (w', r) ->
    uniqueHashes (trades w) -> uniqueHashes (trades w').
Proof.
  induction swaps as [| swap rest IH]; simpl; intros w n w' r Hrun Hu.
  - by injection Hrun as <- <-.
  - pose proof (indexOne_spec env a swap w) as Hs.
    destruct (indexOne env a swap w) as [| w1 | w1 e]; inversion Hs; subst.
    + by eapply IH.
    + by eapply IH.
    + eapply IH; [exact Hrun |].
      match goal with H : trades w1 = _ |- _ => rewrite H end.
      apply uniqueHashes_snoc; [done |].
      match goal with H : builtTrade _ _ _ _ = Some _ |- _ =>
        apply builtTrade_fields in H as (_ & -> & _) end. done.
    + injection Hrun as <- <-. congruence.
    + injection Hrun as <- <-.
      match goal with H : trades w1 = _ |- _ => rewrite H end.
      apply uniqueHashes_snoc; [done |].
      match goal with H : builtTrade _ _ _ _ = Some _ |- _ =>
        apply builtTrade_fields in H as (_ & -> & _) end. done.
Qed.

Lemma indexSwaps_keeps_hashes env a swaps w n w' r h :
  indexSwaps env a swaps w n = (w', r) ->
  h ∈ hashes (trades w) -> h ∈ hashes (trades w').
Proof.
  intros Hrun Hh. destruct (indexSwaps_grows _ _ _ _ _ _ _ Hrun) as (added & -> & _).
  unfold hashes in *. rewrite List.map_app. apply elem_of_app. by left.
Qed.

(** A candidate whose hash is stored, or whose token info is missing,
    is passed over. *)
Lemma indexOne_skips env a swap w :
  BC.txHash swap ∈ hashes (trades w) \/ infoMissing env swap ->
  indexOne env a swap w = Skipped.
Proof.
  intros H. unfold indexOne.
  destruct (findUnique (trades w) (BC.txHash swap)) eqn:Hfind; [reflexivity |].
  apply findUnique_None in Hfind. destruct H as [H | [H | H]]; [done | |].
  - by rewrite H.
  - rewrite H. by destruct (BC.getTokenInfo (rpc env) (BC.tokenIn swap)).
Qed.

(** After a pass that completed, the same candidates are all passed
    over by any world that holds at least the hashes the pass left. *)
Lemma indexSwaps_rerun env a swaps :
  forall w n w' m,
    indexSwaps env a swaps w n = (w', Ok m) ->
    forall w2 k,
      (forall h, h ∈ hashes (trades w') -> h ∈ hashes (trades w2)) ->
      indexSwaps env a swaps w2 k = (w2, Ok k).
Proof.
  induction swaps as [| swap rest IH]; simpl; intros w n w' m Hrun w2 k Hsub;
    [reflexivity |].
  pose proof (indexOne_spec env a swap w) as Hs.
  destruct (indexOne env a swap w) as [| w1 | w1 e]; inversion Hs; subst.
  - rewrite indexOne_skips; [by eapply IH |].
    left. apply Hsub. by eapply indexSwaps_keeps_hashes.
  - rewrite indexOne_skips; [by eapply IH |]. by right.
  - rewrite indexOne_skips; [by eapply IH |].
    left. apply Hsub. eapply indexSwaps_keeps_hashes; [exact Hrun |].
    match goal with H : trades w1 = _ |- _ => rewrite H end.
    rewrite hashes_snoc. apply elem_of_app. right.
    match goal with H : builtTrade _ _ _ _ = Some _ |- _ =>
      apply builtTrade_fields in H as (_ & -> & _) end.
    by apply list_elem_of_singleton.
  - discriminate.
  - discriminate.
Qed.

(** The rows stored under one transaction hash. *)
Definition rowsWithHash (h : string) (rows : list Trade) : list Trade :=
  List.filter (fun t => String.eqb (txHash t) h) rows.

(** The rows stored under one transaction hash for one agent. *)
Definition rowsOfAgentWithHash (a h : string) (rows : list Trade) : list Trade :=
  List.filter (fun t => (String.eqb (txHash t) h && ofAgent a t)%bool) rows.

Lemma rowsWithHash_absent h rows : h ∉ hashes rows -> rowsWithHash h rows = [].
Proof.
  induction rows as [| t rows IH]; simpl; intros Hn; [reflexivity |].
  apply not_elem_of_cons in Hn as [Hne Hn].
  assert (E : String.eqb (txHash t) h = false) by (apply String.eqb_neq; congruence).
  rewrite E. by apply IH.
Qed.

Lemma unique_at_most_one rows h :
  uniqueHashes rows -> (length (rowsWithHash h rows) <= 1)%nat.
Proof.
  unfold uniqueHashes. induction rows as [| t rows IH]; simpl; intros Hu; [lia |].
  apply NoDup_cons in Hu as [Hn Hu].
  destruct (String.eqb (txHash t) h) eqn:E.
  - apply String.eqb_eq in E. subst h.
    fold (rowsWithHash (txHash t) rows). rewrite rowsWithHash_absent by done.
    simpl. lia.
  - by apply IH.
Qed.

Lemma agent_rows_le a h rows :
  (length (rowsOfAgentWithHash a h rows) <= length (rowsWithHash h rows))%nat.
Proof.
  induction rows as [| t rows IH]; simpl; [lia |].
  destruct (String.eqb (txHash t) h), (ofAgent a t); simpl; lia.
Qed.

Lemma updateAgentStats_trades env a w :
  trades (fst (updateAgentStats env a w)) = trades w.
Proof.
  unfold updateAgentStats.
  destruct (Z.of_nat (length (List.filter (ofAgent a) (trades w))) =? 0); [reflexivity |].
  destruct (agents w !! a); [| reflexivity].
  unfold publish, WS.publishEvent. simpl.
  repeat (match goal with |- context [if ?b then _ else _] => destruct b end; simpl);
    reflexivity.
Qed.

(** Refreshing the stats a second time, with no new trade in between,
    succeeds again when it succeeded the first time. *)
Lemma updateAgentStats_again env a w w' u :
  updateAgentStats env a w = (w', Ok u) ->
  snd (updateAgentStats env a w') = Ok tt.
Proof.
  unfold updateAgentStats.
  destruct (Z.of_nat (length (List.filter (ofAgent a) (trades w))) =? 0) eqn:Hlen.
  { intros [= <- _]. by rewrite Hlen. }
  destruct (agents w !! a) as [old |] eqn:Hold; [| discriminate].
  unfold publish, WS.publishEvent. simpl.
  match goal with |- context [if redisPublish env ?p then _ else _] =>
    destruct (redisPublish env p) eqn:Hp1 end; simpl; [| discriminate].
  match goal with |- context [if redisPublish env ?p then _ else _] =>
    destruct (redisPublish env p) eqn:Hp2 end; simpl; [| discriminate].
  intros [= <- _]. simpl. rewrite Hlen, lookup_insert_eq. simpl.
  rewrite Hp1. simpl. rewrite Hp2. reflexivity.
Qed.

Lemma indexRange_trades env a walletAddress fromBlock currentBlock w :
  exists r,
    indexSwaps env a
      (BC.getSwapEventsForAddress (rpc env) walletAddress fromBlock
         (BC.BlockNum currentBlock)) w 0
      = (fst r, snd r)
    /\ trades (fst (indexRange env a walletAddress fromBlock currentBlock w))
        = trades (fst r).
Proof.
  unfold indexRange.
  destruct (indexSwaps _ _ _ _ _) as [wl r] eqn:Hloop.
  exists (wl, r). split; [reflexivity |].
  destruct r as [m | e]; [| reflexivity].
  pose proof (updateAgentStats_trades env a wl) as Ht.
  destruct (updateAgentStats env a wl) as [wu [u | e]]; exact Ht.
Qed.

Lemma indexRange_unique env a walletAddress fromBlock currentBlock w :
  uniqueHashes (trades w) ->
  uniqueHashes (trades (fst (indexRange env a walletAddress fromBlock currentBlock w))).
Proof.
  intros Hu. destruct (indexRange_trades env a walletAddress fromBlock currentBlock w)
    as ([wl r] & Hloop & ->).
  by eapply indexSwaps_unique.
Qed.

Lemma indexAgentTrades_unique env a walletAddress w :
  uniqueHashes (trades w) ->
  uniqueHashes (trades (fst (indexAgentTrades env a walletAddress w))).
Proof.
  intros Hu. unfold indexAgentTrades.
  destruct (BC.getCurrentBlock (rpc env)); [by apply indexRange_unique | done].
Qed.

(** C2. When a pass of the Trade Indexer over a block range has
    completed, a second pass over the same range, against the same
    chain responses, writes no Trade row: it returns 0 and leaves the
    table as the first pass left it. A candidate whose transaction hash
    is stored is passed over, and no agent has two rows for one
    transaction hash. *)
Theorem indexer_idempotent env a walletAddress fromBlock currentBlock w w1 n :
  uniqueHashes (trades w) ->
  indexRange env a walletAddress fromBlock currentBlock w = (w1, Ok n) ->
  let second := indexRange env a walletAddress fromBlock currentBlock w1 in
  trades (fst second) = trades w1
  /\ snd second = Ok 0
  /\ (forall swap, BC.txHash swap ∈ hashes (trades w1) ->
                   indexOne env a swap w1 = Skipped)
  /\ (forall b h, (length (rowsOfAgentWithHash b h (trades w1)) <= 1)%nat).
Proof.
  intros Hu Hrun second.
  assert (Hu1 : uniqueHashes (trades w1)).
  { pose proof (indexRange_unique env a walletAddress fromBlock currentBlock w Hu) as H.
    by rewrite Hrun in H. }
  assert (Hsecond : trades (fst second) = trades w1 /\ snd second = Ok 0).
  { subst second. unfold indexRange in *.
    destruct (indexSwaps env a _ w 0) as [wl [m | e]] eqn:Hloop; [| discriminate].
    destruct (updateAgentStats env a wl) as [wu [u | e]] eqn:Hstats; [| discriminate].
    injection Hrun as <- <-.
    pose proof (updateAgentStats_trades env a wl) as Ht. rewrite Hstats in Ht.
    simpl in Ht.
    rewrite (indexSwaps_rerun _ _ _ _ _ _ _ Hloop wu 0) by (by rewrite Ht).
    pose proof (updateAgentStats_again _ _ _ _ _ Hstats) as Hagain.
    pose proof (updateAgentStats_trades env a wu) as Ht2.
    destruct (updateAgentStats env a wu) as [wv [u' | e]]; simpl in *;
      [done | discriminate]. }
  destruct Hsecond as [H1 H2]. repeat split; try done.
  - intros swap Hin. apply indexOne_skips. by left.
  - intros b h. etransitivity; [apply agent_rows_le |]. by apply unique_at_most_one.
Qed.

(** The fixture, indexed twice over blocks 0 to 1000. *)
Lemma indexer_idempotent_witness :
  let first := indexRange fixtureEnv "agent-1" walletA 0 1000 world0 in
  let second := indexRange fixtureEnv "agent-1" walletA 0 1000 (fst first) in
  snd first = Ok 1
  /\ trades (fst second) = trades (fst first)
  /\ snd second = Ok 0.
Proof.
  intros first second.
  assert (Hsnd : snd first = Ok 1) by (vm_compute; reflexivity).
  assert (Hfirst : first = (fst first, Ok 1))
    by (rewrite <- Hsnd; apply surjective_pairing).
  split; [exact Hsnd |].
  assert (Hu : uniqueHashes (trades world0)) by constructor.
  destruct (indexer_idempotent fixtureEnv "agent-1" walletA 0 1000 world0
              (fst first) 1 Hu Hfirst) as (H1 & H2 & _).
  split; [exact H1 | exact H2].
Defined.

(** C10. The duplicate check looks at the transaction hash alone: a
    candidate whose hash is stored for any agent is passed over whoever
    the pass is for, and every pass keeps the table at one row per
    transaction hash across all agents. *)
Theorem txhash_unique_across_agents env a walletAddress w :
  uniqueHashes (trades w) ->
  let w' := fst (indexAgentTrades env a walletAddress w) in
  (forall swap other, In other (trades w) -> txHash other = BC.txHash swap ->
                      indexOne env a swap w = Skipped)
  /\ uniqueHashes (trades w')
  /\ (forall h, (length (rowsWithHash h (trades w')) <= 1)%nat).
Proof.
  intros Hu w'. split; [| split].
  - intros swap other Hin Hh. apply indexOne_skips. left.
    rewrite <- Hh. unfold hashes. apply list_elem_of_In. by apply List.in_map.
  - by apply indexAgentTrades_unique.
  - intros h. apply unique_at_most_one. by apply indexAgentTrades_unique.
Qed.

(** Once agent-1 holds the row of 0xabc1, a pass for agent-2 over the
    same wallet adds nothing. *)
Lemma txhash_unique_across_agents_witness :
  trades (fst (indexAgentTrades fixtureEnv "agent-2" walletA world1)) = trades world1
  /\ uniqueHashes (trades (fst (indexAgentTrades fixtureEnv "agent-2" walletA world1))).
Proof.
  split; [vm_compute; reflexivity |].
  apply (txhash_unique_across_agents fixtureEnv "agent-2" walletA world1).
  unfold uniqueHashes. vm_compute. apply NoDup_singleton.
Defined.

(** *** The watermark *)

Lemma fold_pickLater rows :
  forall best,
    match fold_left pickLater rows best with
    | None => best = None /\ rows = []
    | Some t =>
        (best = Some t \/ In t rows)
        /\ (forall b, best = Some b -> blockNumber b <= blockNumber t)
        /\ (forall t', In t' rows -> blockNumber t' <= blockNumber t)
    end.
Proof.
  induction rows as [| x rows IH]; simpl; intros best.
  - destruct best as [b |]; [| done].
    split; [by left |]. split; [intros ? [= <-]; lia | intros ? []].
  - specialize (IH (pickLater best x)).
    destruct (fold_left pickLater rows (pickLater best x)) as [t |].
    + destruct IH as (Hsrc & Hbest & Hrows). unfold pickLater in *.
      destruct best as [b |].
      * destruct (blockNumber b <? blockNumber x) eqn:E.
        -- apply Z.ltb_lt in E. specialize (Hbest x eq_refl).
           split; [destruct Hsrc as [[= <-] | ?]; right; [by left | by right] |].
           split; [intros ? [= <-]; lia |].
           intros t' [<- | Hin]; [lia | by apply Hrows].
        -- apply Z.ltb_ge in E. specialize (Hbest b eq_refl).
           split; [destruct Hsrc as [[= <-] | ?]; [by left | right; by right] |].
           split; [intros ? [= <-]; lia |].
           intros t' [<- | Hin]; [lia | by apply Hrows].
      * specialize (Hbest x eq_refl).
        split; [destruct Hsrc as [[= <-] | ?]; right; [by left | by right] |].
        split; [intros ? [=] |].
        intros t' [<- | Hin]; [lia | by apply Hrows].
    + destruct IH as [Hbest _]. unfold pickLater in Hbest.
      destruct best as [b |]; [destruct (blockNumber b <? blockNumber x) |]; discriminate.
Qed.

(** [findLastTrade] is a row of the agent with the highest block number,
    and there is none only when the agent has no row. *)
Lemma findLastTrade_spec rows a :
  match findLastTrade rows a with
  | None => List.filter (ofAgent a) rows = []
  | Some t =>
      In t (List.filter (ofAgent a) rows)
      /\ forall t', In t' (List.filter (ofAgent a) rows) -> blockNumber t' <= blockNumber t
  end.
Proof.
  unfold findLastTrade.
  pose proof (fold_pickLater (List.filter (ofAgent a) rows) None) as H.
  destruct (fold_left pickLater (List.filter (ofAgent a) rows) None) as [t |].
  - destruct H as ([[=] | Hin] & _ & Hmax). by split.
  - by destruct H.
Qed.

(** With rows, the watermark is the highest block number among them. *)
Lemma watermark_is_max rows a currentBlock t :
  In t rows -> agentId t = a ->
  blockNumber t <= watermark rows a currentBlock
  /\ exists top, In top rows /\ agentId top = a
       /\ watermark rows a currentBlock = blockNumber top.
Proof.
  intros Hin Ha.
  assert (Hmine : In t (List.filter (ofAgent a) rows)).
  { apply List.filter_In. split; [done |]. unfold ofAgent. by apply String.eqb_eq. }
  pose proof (findLastTrade_spec rows a) as Hspec.
  unfold watermark, fromBlockOf.
  destruct (findLastTrade rows a) as [top |].
  - destruct Hspec as [Htop Hmax]. split; [specialize (Hmax t Hmine); lia |].
    apply List.filter_In in Htop as [Htop Hag]. exists top.
    split; [done |]. split; [by apply String.eqb_eq | lia].
  - rewrite Hspec in Hmine. destruct Hmine.
Qed.

Lemma indexRange_grows env a walletAddress fromBlock currentBlock w :
  exists added,
    trades (fst (indexRange env a walletAddress fromBlock currentBlock w))
      = trades w ++ added
    /\ Forall (fromSwaps a (BC.getSwapEventsForAddress (rpc env) walletAddress
                              fromBlock (BC.BlockNum currentBlock))) added.
Proof.
  destruct (indexRange_trades env a walletAddress fromBlock currentBlock w)
    as ([wl r] & Hloop & ->).
  destruct (indexSwaps_grows _ _ _ _ _ _ _ Hloop) as (added & Ht & _ & Hf).
  by exists added.
Qed.

Lemma findLastTrade_other rows added a :
  Forall (fun t => agentId t <> a) added ->
  findLastTrade (rows ++ added) a = findLastTrade rows a.
Proof.
  intros Hf. unfold findLastTrade. rewrite List.filter_app.
  replace (List.filter (ofAgent a) added) with (@nil Trade); [by rewrite app_nil_r |].
  induction Hf as [| t added Ht _ IH]; simpl; [reflexivity |].
  unfold ofAgent at 1. apply String.eqb_neq in Ht. by rewrite Ht.
Qed.

(** C5. A sweep of the Trade Indexer over a consistent chain view only
    appends rows to the table, every appended row belongs to the agent
    and lies at or above watermark + 1, and the watermark derived after
    the sweep (read against a chain head that has not moved back) is at
    least the watermark before it. The watermark of any other agent is
    not lowered by the sweep either. *)
Theorem watermark_monotone env a walletAddress w currentBlock currentBlock' :
  ReconstructorFacts.chainConsistent (rpc env) ->
  BC.getCurrentBlock (rpc env) = Ok currentBlock ->
  currentBlock <= currentBlock' ->
  let w' := fst (indexAgentTrades env a walletAddress w) in
  watermark (trades w) a currentBlock <= watermark (trades w') a currentBlock'
  /\ (exists added,
        trades w' = trades w ++ added
        /\ Forall (fun t => agentId t = a
                            /\ watermark (trades w) a currentBlock + 1 <= blockNumber t)
             added)
  /\ (forall other, other <> a ->
        watermark (trades w) other currentBlock <= watermark (trades w') other currentBlock').
Proof.
  intros Hc Hhead Hle w'.
  assert (Hadded : exists added,
    trades w' = trades w ++ added
    /\ Forall (fun t => agentId t = a
                        /\ watermark (trades w) a currentBlock + 1 <= blockNumber t) added).
  { subst w'. unfold indexAgentTrades. rewrite Hhead.
    destruct (indexRange_grows env a walletAddress
                (fromBlockOf (trades w) a currentBlock) currentBlock w)
      as (added & Ht & Hf).
    exists added. split; [done |]. eapply Forall_impl; [exact Hf |].
    intros t [Ha (swap & Hin & _ & Hb)]. split; [done |].
    apply (ReconstructorFacts.candidate_in_range _ _ _ _ _ Hc) in Hin.
    unfold watermark. rewrite Hb. lia. }
  split; [| split; [exact Hadded |]].
  2: { intros other Hne. destruct Hadded as (added & -> & Hf).
       unfold watermark, fromBlockOf. rewrite findLastTrade_other.
       - destruct (findLastTrade (trades w) other); lia.
       - eapply Forall_impl; [exact Hf |]. intros t [Ha _]. congruence. }
  destruct Hadded as (added & Ht & Hf). rewrite Ht.
  pose proof (findLastTrade_spec (trades w ++ added) a) as Hafter.
  pose proof (findLastTrade_spec (trades w) a) as Hbefore.
  rewrite List.filter_app in Hafter.
  rewrite Forall_forall in Hf.
  unfold watermark, fromBlockOf in *.
  destruct (findLastTrade (trades w ++ added) a) as [t' |],
           (findLastTrade (trades w) a) as [t |].
  - destruct Hafter as [_ Hmax']. destruct Hbefore as [Hin _].
    assert (blockNumber t <= blockNumber t'); [| lia].
    apply Hmax'. apply List.in_or_app. by left.
  - destruct Hafter as [Hin' _]. rewrite Hbefore in Hin'. simpl in Hin'.
    apply List.filter_In in Hin' as [Hin' _]. apply list_elem_of_In in Hin'.
    destruct (Hf _ Hin') as [_ Hb]. lia.
  - apply List.app_eq_nil in Hafter as [Hnone _].
    destruct Hbefore as [Hin _]. rewrite Hnone in Hin. destruct Hin.
  - lia.
Qed.

Lemma fixture_consistent : ReconstructorFacts.chainConsistent fixtureRpc.
Proof.
  intros a f t logs l look Hlogs Hl Hlook.
  destruct (ReconstructorFacts.nodeOf_fetch swapLogs 1000 a f (BC.BlockNum t) logs l
              Hlogs Hl) as [Hin Hr].
  unfold ReconstructorFacts.inRange in Hr. apply andb_true_iff in Hr as [H1 H2].
  apply Z.leb_le in H1. apply Z.leb_le in H2.
  destruct Hin as [<- | [<- | []]]; simpl in Hlook; injection Hlook as <-;
    simpl in *; lia.
Qed.

(** The first sweep of the fixture: the watermark goes from the lookback
    (1000 - 10000 - 1) to block 500. *)
Lemma watermark_monotone_witness :
  watermark (trades world0) "agent-1" 1000 <= watermark (trades world1) "agent-1" 1005
  /\ watermark (trades world1) "agent-1" 1005 = 500.
Proof.
  assert (Hhead : BC.getCurrentBlock (rpc fixtureEnv) = Ok 1000) by reflexivity.
  assert (Hle : 1000 <= 1005) by lia.
  split.
  - exact (proj1 (watermark_monotone fixtureEnv "agent-1" walletA world0 1000 1005
                    fixture_consistent Hhead Hle)).
  - vm_compute. reflexivity.
Defined.

(** *** Failures inside a pass *)




(** The persisted profit is the value of the row's own [tokenIn] leg
    minus the value of its [tokenOut] leg, and [valueUsd] is the value of
    the [tokenOut] leg. *)
Lemma builtTrade_profit env a swap w t :
  builtTrade env a swap w = Some t ->
  exists c1,
    valueUsd t =
      fst (PriceService.calculateUsdValue (priceCache w) (now env) (feed env)
             (tokenOutAddress t) (amountOut t) (tokenOutDecimals t))
    /\ profitLossUsd t =
        (fst (PriceService.calculateUsdValue c1 (now env) (feed env)
                (tokenInAddress t) (amountIn t) (tokenInDecimals t))
         - valueUsd t)%Q.
Proof.
  unfold builtTrade.
  destruct (BC.getTokenInfo _ (BC.tokenIn swap)) as [i |]; [| discriminate].
  destruct (BC.getTokenInfo _ (BC.tokenOut swap)) as [o |]; [| discriminate].
  destruct (PriceService.calculateUsdValue _ _ _ (BC.tokenIn swap) _ _) as [vin c1] eqn:Hin.
  destruct (PriceService.calculateUsdValue _ _ _ (BC.tokenOut swap) _ _) as [vout c2] eqn:Hout.
  intros [= <-]. exists c1. simpl. rewrite Hin, Hout. simpl. by split.
Qed.

(** C1. On the fixture (the agent sends 100 USDC and receives 40 DAI)
    the persisted row has the sent leg in [tokenIn]/[amountIn] and the
    received leg in [tokenOut]/[amountOut]; the received leg is worth 40
    USD and the sent leg 100 USD, and the stored [profitLossUsd] is +60:
    sent minus received, not received minus sent. *)
Theorem profit_is_sent_minus_received :
  match trades world1 with
  | [t] =>
      tokenInAddress t = PriceService.USDC /\ amountIn t = 100000000
      /\ tokenOutAddress t = PriceService.DAI /\ amountOut t = 40000000000000000000
      /\ (legUsd fixtureEnv world1 (tokenOutAddress t) (amountOut t) (tokenOutDecimals t)
           == 40)%Q
      /\ (legUsd fixtureEnv world1 (tokenInAddress t) (amountIn t) (tokenInDecimals t)
           == 100)%Q
      /\ (profitLossUsd t == 60)%Q
      /\ ~ (profitLossUsd t ==
             legUsd fixtureEnv world1 (tokenOutAddress t) (amountOut t) (tokenOutDecimals t)
             - legUsd fixtureEnv world1 (tokenInAddress t) (amountIn t) (tokenInDecimals t))%Q
  | _ => False
  end.
Proof.
  vm_compute. repeat split; try reflexivity. intros H. discriminate H.
Qed.




End IndexerFacts.

(** ** Stats Aggregator *)

Module StatsFacts.
Import Js TradingService.

(** The sum of a list of amounts. *)
Definition sumQ (xs : list Q) : Q := fold_right Qplus 0%Q xs.

(** The number of rows with a profit above 0. *)
Definition wins (rows : list Trade) : nat :=
  length (List.filter (fun t => if Qlt_le_dec 0 (profitLossUsd t) then true else false) rows).

(** The rows of an agent. *)
Definition rowsOf (a : string) (w : World) : list Trade :=
  List.filter (ofAgent a) (trades w).

(** A row with a given value and profit; the other columns do not matter
    to the aggregates. *)
Definition sampleTrade (a h : string) (value profit : Q) : Trade :=
  {| agentId := a; txHash := h; blockNumber := 1; timestamp := 0;
     dex := "UNISWAP_V2"; type := "SWAP";
     tokenInAddress := PriceService.USDC; tokenInSymbol := "USDC"; tokenInDecimals := 6;
     amountIn := 0;
     tokenOutAddress := PriceService.DAI; tokenOutSymbol := "DAI"; tokenOutDecimals := 18;
     amountOut := 0;
     valueUsd := value; profitLossUsd := profit |}.

(** The synthetic trade set of the design: profits +50, -20 and +5 for
    agent-1, next to a row of another agent. *)
Definition sampleWorld : World :=
  {| trades := [ sampleTrade "agent-1" "0x01" 100 50;
                 sampleTrade "agent-2" "0x02" 7000 1000;
                 sampleTrade "agent-1" "0x03" 80 (-20);
                 sampleTrade "agent-1" "0x04" 10 5 ];
     agents := IndexerFacts.world0.(agents);
     priceCache := ∅;
     channel := [] |}.

Lemma fold_left_sum (f : Trade -> Q) rows :
  forall acc,
    (fold_left (fun sum t => sum + f t) rows acc == acc + sumQ (List.map f rows))%Q.
Proof.
  induction rows as [| t rows IH]; simpl; intros acc; [ring |].
  rewrite IH. ring.
Qed.

Lemma totalVolumeOf_sum rows : (totalVolumeOf rows == sumQ (List.map valueUsd rows))%Q.
Proof. unfold totalVolumeOf. rewrite fold_left_sum. ring. Qed.

Lemma totalProfitOf_sum rows : (totalProfitOf rows == sumQ (List.map profitLossUsd rows))%Q.
Proof. unfold totalProfitOf. rewrite fold_left_sum. ring. Qed.

Lemma isProfitable_spec t :
  isProfitable t = if Qlt_le_dec 0 (profitLossUsd t) then true else false.
Proof.
  unfold isProfitable, PriceService.Qpositive.
  destruct (Qlt_le_dec 0 (profitLossUsd t)) as [Hlt | Hle].
  - destruct (Qle_bool (profitLossUsd t) 0) eqn:E; [| reflexivity].
    apply Qle_bool_iff in E. exfalso. by apply (Qlt_not_le _ _ Hlt).
  - apply Qle_bool_iff in Hle. by rewrite Hle.
Qed.

Lemma profitableTradesOf_wins rows : profitableTradesOf rows = Z.of_nat (wins rows).
Proof.
  unfold profitableTradesOf, wins. do 2 f_equal.
  apply List.filter_ext. intros t. apply isProfitable_spec.
Qed.

(** What [updateAgentStats] writes when the agent has rows and exists. *)
Lemma updateAgentStats_writes env a w old :
  agents w !! a = Some old ->
  rowsOf a w <> [] ->
  agents (fst (updateAgentStats env a w)) !! a =
    Some {| id := id old;
            username := username old;
            walletAddress := walletAddress old;
            totalVolumeUsd := totalVolumeOf (rowsOf a w);
            totalProfitUsd := totalProfitOf (rowsOf a w);
            winRate := winRateOf (rowsOf a w);
            totalTrades := Z.of_nat (length (rowsOf a w)) |}.
Proof.
  intros Hold Hrows. unfold updateAgentStats. fold (rowsOf a w).
  destruct (Z.of_nat (length (rowsOf a w)) =? 0) eqn:Hlen.
  { apply Z.eqb_eq in Hlen. destruct (rowsOf a w); [done | simpl in Hlen; lia]. }
  rewrite Hold. unfold publish, WS.publishEvent. simpl.
  repeat (match goal with |- context [if redisPublish env ?p then _ else _] =>
            destruct (redisPublish env p) end; simpl);
    apply lookup_insert_eq.
Qed.

(** The aggregates in exact arithmetic: the sum of [valueUsd], the sum
    of [profitLossUsd], the number of trades, and 100 times the number of
    trades with a profit above 0 divided by the number of trades; 35 and
    200/3 on the trade set with profits +50, -20, +5. What the code
    writes, on JS numbers, is in [StatsNumberFacts]. *)
Theorem stats_aggregation :
  (forall env a w old,
     agents w !! a = Some old ->
     rowsOf a w <> [] ->
     exists stats,
       agents (fst (updateAgentStats env a w)) !! a = Some stats
       /\ (totalVolumeUsd stats == sumQ (List.map valueUsd (rowsOf a w)))%Q
       /\ (totalProfitUsd stats == sumQ (List.map profitLossUsd (rowsOf a w)))%Q
       /\ totalTrades stats = Z.of_nat (length (rowsOf a w))
       /\ (winRate stats ==
             100 * inject_Z (Z.of_nat (wins (rowsOf a w)))
             / inject_Z (Z.of_nat (length (rowsOf a w))))%Q)
  /\ match agents (fst (updateAgentStats IndexerFacts.fixtureEnv "agent-1" sampleWorld))
             !! "agent-1" with
     | Some stats =>
         (totalProfitUsd stats == 35)%Q
         /\ (winRate stats == 200 # 3)%Q
         /\ (totalVolumeUsd stats == 190)%Q
         /\ totalTrades stats = 3
     | None => False
     end.
Proof.
  split.
  - intros env a w old Hold Hrows. eexists. split; [by apply updateAgentStats_writes |].
    simpl. split; [apply totalVolumeOf_sum |]. split; [apply totalProfitOf_sum |].
    split; [reflexivity |].
    unfold winRateOf. rewrite profitableTradesOf_wins. unfold Qdiv. ring.
  - vm_compute. repeat split; reflexivity.
Qed.

(** The general statement read on the synthetic trade set. *)
Lemma stats_aggregation_witness :
  exists stats,
    agents (fst (updateAgentStats IndexerFacts.fixtureEnv "agent-1" sampleWorld))
      !! "agent-1" = Some stats
    /\ (totalProfitUsd stats == sumQ [50; -20; 5])%Q
    /\ totalTrades stats = 3.
Proof.
  destruct (proj1 stats_aggregation IndexerFacts.fixtureEnv "agent-1" sampleWorld
              (IndexerFacts.newAgent "agent-1" "alice" IndexerFacts.walletA))
    as (stats & Hs & _ & Hp & Ht & _).
  - vm_compute. reflexivity.
  - vm_compute. discriminate.
  - exists stats. split; [exact Hs |]. split; [exact Hp | exact Ht].
Defined.

End StatsFacts.

(** ** Stats Aggregator, on JS numbers *)

Module StatsNumberFacts.
Import Js JsNumber StatsAggregator.

(** The rows of an agent. *)
Definition rowsOf (a : string) (w : World) : list Trade :=
  List.filter (ofAgent a) (trades w).

(** The number of rows with a profit above 0. *)
Definition wins (rows : list Trade) : nat :=
  length (List.filter (fun t => gt (profitLossUsd t) (ofZ 0)) rows).

(** The sum of a list of numbers as [reduce] forms it: from 0, left to
    right, every addition rounded. *)
Definition sumOf (xs : list number) : number := fold_left add xs (ofZ 0).

(** A Redis that accepts every publish. *)
Definition accepting (p : WS.WebSocketPayload Agent) : bool := true.

(** The synthetic trade set of the design: values 100, 80, 10 and
    profits +50, -20, +5 for agent-1, next to a row of another agent. *)
Definition sampleWorld : World :=
  {| trades := [ mkTrade "agent-1" (ofZ 100) (ofZ 50);
                 mkTrade "agent-2" (ofZ 7000) (ofZ 1000);
                 mkTrade "agent-1" (ofZ 80) (ofZ (-20));
                 mkTrade "agent-1" (ofZ 10) (ofZ 5) ];
     agents := <["agent-1" := mkAgent "agent-1" "alice" (ofZ 0) (ofZ 0) (ofZ 0) 0]> ∅;
     channel := [] |}.

(** 66.66666666666666, the number with bits 0x4050AAAAAAAAAAAA. *)
Definition sampleWinRate : Q := 4691249611844266 # 70368744177664.

(** The numbers round as JS numbers do: 0.1 + 0.2 is not 0.3, and a 1
    added to 10^16 is lost. *)
Lemma numbers_round :
  add (div (ofZ 1) (ofZ 10)) (div (ofZ 2) (ofZ 10)) <> div (ofZ 3) (ofZ 10)
  /\ sumOf [ofZ 10000000000000000; ofZ 1; ofZ (-10000000000000000)] = ofZ 0.
Proof. split; [vm_compute; discriminate | vm_compute; reflexivity]. Qed.

Lemma fold_left_add_map (f : Trade -> number) rows :
  forall acc,
    fold_left (fun sum t => add sum (f t)) rows acc = fold_left add (List.map f rows) acc.
Proof. induction rows as [| t rows IH]; simpl; intros acc; [reflexivity | apply IH]. Qed.

(** What [updateAgentStats] writes when the agent has rows and exists. *)
Lemma updateAgentStats_writes_numbers redisPublish now a w old :
  agents w !! a = Some old ->
  rowsOf a w <> [] ->
  agents (fst (updateAgentStats redisPublish now a w)) !! a =
    Some {| id := id old;
            username := username old;
            totalVolumeUsd := totalVolumeOf (rowsOf a w);
            totalProfitUsd := totalProfitOf (rowsOf a w);
            winRate := winRateOf (rowsOf a w);
            totalTrades := Z.of_nat (length (rowsOf a w)) |}.
Proof.
  intros Hold Hrows. unfold updateAgentStats. fold (rowsOf a w).
  destruct (Z.of_nat (length (rowsOf a w)) =? 0) eqn:Hlen.
  { apply Z.eqb_eq in Hlen. destruct (rowsOf a w); [done | simpl in Hlen; lia]. }
  rewrite Hold. unfold publish, WS.publishEvent. cbn [channel].
  repeat (match goal with |- context [if redisPublish ?p then _ else _] =>
            destruct (redisPublish p) end; cbn [channel agents fst]);
    apply lookup_insert_eq.
Qed.

(** C3, as the code has it: on the trade set with profits +50, -20, +5
    the win rate written is the number 66.66666666666666. It is not
    200/3, and it is not the number nearest to 200/3 either, which is
    what 100 * 2 / 3 gives: the code divides first and multiplies by 100
    after, and both operations round. *)
Lemma sample_win_rate_is_not_200_thirds :
  exists stats,
    agents (fst (updateAgentStats accepting 0 "agent-1" sampleWorld)) !! "agent-1"
      = Some stats
    /\ toQ (winRate stats) = Some sampleWinRate
    /\ ~ (sampleWinRate == 200 # 3)%Q
    /\ winRate stats <> div (mul (ofZ 100) (ofZ 2)) (ofZ 3).
Proof.
  eexists. split; [vm_compute; reflexivity |].
  split; [vm_compute; reflexivity |].
  split; [intros H; vm_compute in H; discriminate H |].
  vm_compute. discriminate.
Qed.

(** C3, amended. When the Stats Aggregator runs for an agent that has
    trades, the agent row it writes holds the number of trades, and the
    other aggregates as JS numbers: the sums of [valueUsd] and of
    [profitLossUsd] formed from 0, left to right, and the number of
    trades with a profit above 0 divided by the number of trades and then
    multiplied by 100, every operation rounded to the nearest number. On
    the trade set with profits +50, -20, +5 no sum rounds: it writes
    totalProfitUsd = 35, totalVolumeUsd = 190, totalTrades = 3, and the
    winRate 66.66666666666666, which lies below 200/3 by less than
    10^-14. *)
Theorem stats_aggregation_on_numbers :
  (forall redisPublish now a w old,
     agents w !! a = Some old ->
     rowsOf a w <> [] ->
     exists stats,
       agents (fst (updateAgentStats redisPublish now a w)) !! a = Some stats
       /\ totalTrades stats = Z.of_nat (length (rowsOf a w))
       /\ totalVolumeUsd stats = sumOf (List.map valueUsd (rowsOf a w))
       /\ totalProfitUsd stats = sumOf (List.map profitLossUsd (rowsOf a w))
       /\ winRate stats =
            mul (div (ofZ (Z.of_nat (wins (rowsOf a w))))
                     (ofZ (Z.of_nat (length (rowsOf a w)))))
                (ofZ 100))
  /\ match agents (fst (updateAgentStats accepting 0 "agent-1" sampleWorld))
             !! "agent-1" with
     | Some stats =>
         totalProfitUsd stats = ofZ 35
         /\ totalVolumeUsd stats = ofZ 190
         /\ totalTrades stats = 3
         /\ toQ (winRate stats) = Some sampleWinRate
         /\ (sampleWinRate < 200 # 3)%Q
         /\ ((200 # 3) - sampleWinRate < 1 # 100000000000000)%Q
     | None => False
     end.
Proof.
  split.
  - intros redisPublish now a w old Hold Hrows.
    eexists. split; [by apply updateAgentStats_writes_numbers |]. cbn [totalTrades
      totalVolumeUsd totalProfitUsd winRate].
    split; [reflexivity |].
    split; [apply fold_left_add_map |]. split; [apply fold_left_add_map |].
    reflexivity.
  - vm_compute. repeat split; reflexivity.
Qed.

(** The general statement read on the synthetic trade set. *)
Lemma stats_aggregation_on_numbers_witness :
  exists stats,
    agents (fst (updateAgentStats accepting 0 "agent-1" sampleWorld)) !! "agent-1"
      = Some stats
    /\ totalProfitUsd stats = sumOf [ofZ 50; ofZ (-20); ofZ 5]
    /\ totalTrades stats = 3.
Proof.
  destruct (proj1 stats_aggregation_on_numbers accepting 0 "agent-1" sampleWorld
              (mkAgent "agent-1" "alice" (ofZ 0) (ofZ 0) (ofZ 0) 0))
    as (stats & Hs & Ht & _ & Hp & _).
  - vm_compute. reflexivity.
  - vm_compute. discriminate.
  - exists stats. split; [exact Hs |]. split; [exact Hp | exact Ht].
Defined.

End StatsNumberFacts.

(** ** Rate Limiter *)

Module RateLimitFacts.
Import Js RateLimit.

Lemma ceilDiv_le x y : x <= y -> ceilDiv x 1000 <= ceilDiv y 1000.
Proof. intros H. unfold ceilDiv. apply Z.div_le_mono; lia. Qed.

Lemma ceilDiv_pos x : 0 < x -> 1 <= ceilDiv x 1000.
Proof.
  intros H. unfold ceilDiv.
  assert (1000 / 1000 <= (x + (1000 - 1)) / 1000) by (apply Z.div_le_mono; lia).
  rewrite Z.div_same in H0 by lia. exact H0.
Qed.

Lemma ceilDiv_le_self x : 0 < x -> ceilDiv x 1000 <= x.
Proof.
  intros H. unfold ceilDiv.
  destruct (Z_lt_le_dec x 1000) as [Hsmall | Hbig].
  - assert ((x + (1000 - 1)) / 1000 < 2) by (apply Z.div_lt_upper_bound; lia). lia.
  - assert ((x + (1000 - 1)) / 1000 <= (x + (1000 - 1)) / 2)
      by (apply Z.div_le_compat_l; lia).
    assert ((x + (1000 - 1)) / 2 <= (2 * x) / 2) by (apply Z.div_le_mono; lia).
    rewrite (Z.mul_comm 2 x), Z.div_mul in H1 by lia. lia.
Qed.

Lemma ceilDiv_covers x : 0 < x -> x <= ceilDiv x 1000 * 1000.
Proof.
  intros H. unfold ceilDiv.
  pose proof (Z.div_mod (x + (1000 - 1)) 1000 ltac:(lia)) as Hd.
  pose proof (Z.mod_pos_bound (x + (1000 - 1)) 1000 ltac:(lia)) as Hm.
  lia.
Qed.

Lemma live_insert (store : gmap string SortedSet) key s now :
  live (<[key := s]> store) key now = if expireAt s <=? now then [] else entries s.
Proof. unfold live. by rewrite lookup_insert_eq. Qed.

Lemma prune_all (es : list (Z * Member)) hi :
  (forall e, In e es -> 0 <= fst e <= hi) -> zremrangebyscore 0 hi es = [].
Proof.
  induction es as [| e es IH]; simpl; intros H; [reflexivity |].
  assert (He : 0 <= fst e <= hi) by (apply H; by left).
  replace (0 <=? fst e) with true by (symmetry; apply Z.leb_le; lia).
  replace (fst e <=? hi) with true by (symmetry; apply Z.leb_le; lia).
  simpl. apply IH. intros e' Hin. apply H. by right.
Qed.

Lemma prune_none (es : list (Z * Member)) hi :
  (forall e, In e es -> hi < fst e) -> zremrangebyscore 0 hi es = es.
Proof.
  induction es as [| e es IH]; simpl; intros H; [reflexivity |].
  assert (He : hi < fst e) by (apply H; by left).
  replace (fst e <=? hi) with false by (symmetry; apply Z.leb_gt; lia).
  rewrite andb_false_r. simpl. f_equal. apply IH. intros e' Hin. apply H. by right.
Qed.

Lemma lowestScore_head score m (es : list (Z * Member)) :
  exists low, lowestScore ((score, m) :: es) = Some low /\ low <= score.
Proof.
  simpl. destruct (lowestScore es) as [l |]; eexists; split; try reflexivity; lia.
Qed.

Lemma lowestScore_lower (es : list (Z * Member)) lo low :
  (forall e, In e es -> lo <= fst e) -> lowestScore es = Some low -> lo <= low.
Proof.
  revert low. induction es as [| e es IH]; simpl; intros low H; [discriminate |].
  assert (He : lo <= fst e) by (apply H; by left).
  destruct (lowestScore es) as [l |] eqn:E; intros [= <-]; [| done].
  assert (lo <= l) by (apply IH; [intros e' Hin; apply H; by right | done]). lia.
Qed.

(** Whatever the store holds, a rejection is a 429 whose [retryAfter]
    does not exceed the window, in seconds (rounded up) or as a number. *)
Lemma rejected_retryAfter store key config now random store' status retryAfter limit remaining reset :
  0 < windowMs config ->
  checkRateLimit store key config now random
    = (store', Rejected status retryAfter limit remaining reset) ->
  status = 429
  /\ retryAfter <= ceilDiv (windowMs config) 1000
  /\ retryAfter <= windowMs config.
Proof.
  intros Hw. unfold checkRateLimit.
  destruct (maxRequests config <=? _); [| discriminate].
  destruct (lowestScore_head now (now, random)
              (List.filter (fun e => negb (memberEqb (snd e) (now, random)))
                 (zremrangebyscore 0 (now - windowMs config) (live store key now))))
    as (low & Hlow & Hle).
  unfold zadd. rewrite Hlow. intros [= _ <- <- _ _ _].
  split; [reflexivity |].
  assert (ceilDiv (low + windowMs config - now) 1000 <= ceilDiv (windowMs config) 1000)
    by (apply ceilDiv_le; lia).
  pose proof (ceilDiv_le_self (windowMs config) Hw). lia.
Qed.

Lemma memberEqb_neq (a b : Member) : a <> b -> memberEqb a b = false.
Proof.
  destruct a as [ta ra], b as [tb rb]. unfold memberEqb. simpl. intros Hne.
  destruct (Z.eqb ta tb) eqn:Et; [| reflexivity].
  destruct (String.eqb ra rb) eqn:Er; [| reflexivity].
  apply Z.eqb_eq in Et. apply String.eqb_eq in Er. congruence.
Qed.

Lemma zadd_scores score m (es : list (Z * Member)) e :
  In e (zadd score m es) -> fst e = score \/ In e es.
Proof.
  unfold zadd. intros [<- | Hin]; [by left |].
  apply List.filter_In in Hin as [Hin _]. by right.
Qed.

(** The two outcomes of [checkRateLimit], by the number of entries left
    in the window. *)
Lemma check_allowed store key config now random pruned :
  zremrangebyscore 0 (now - windowMs config) (live store key now) = pruned ->
  zcard pruned < maxRequests config ->
  checkRateLimit store key config now random =
    (<[key := {| entries := zadd now (now, random) pruned;
                 expireAt := now + ceilDiv (windowMs config) 1000 * 1000 |}]> store,
     Allowed (maxRequests config) (maxRequests config - zcard pruned - 1)
       (now + windowMs config)).
Proof.
  intros <- Hlt. unfold checkRateLimit.
  replace (maxRequests config <=? zcard _) with false
    by (symmetry; apply Z.leb_gt; lia).
  reflexivity.
Qed.

Lemma check_rejected store key config now random pruned :
  zremrangebyscore 0 (now - windowMs config) (live store key now) = pruned ->
  maxRequests config <= zcard pruned ->
  exists low,
    lowestScore (zadd now (now, random) pruned) = Some low
    /\ checkRateLimit store key config now random =
        (<[key := {| entries := zadd now (now, random) pruned;
                     expireAt := now + ceilDiv (windowMs config) 1000 * 1000 |}]> store,
         Rejected 429 (ceilDiv (low + windowMs config - now) 1000)
           (maxRequests config) 0 (low + windowMs config)).
Proof.
  intros <- Hle. unfold checkRateLimit.
  replace (maxRequests config <=? zcard _) with true
    by (symmetry; apply Z.leb_le; lia).
  destruct (lowestScore_head now (now, random)
              (List.filter (fun e => negb (memberEqb (snd e) (now, random)))
                 (zremrangebyscore 0 (now - windowMs config) (live store key now))))
    as (low & Hlow & _).
  exists low. unfold zadd in *. rewrite Hlow. by split.
Qed.

(** C9. With a limit of 2 and a window of [w] milliseconds, on a key
    with nothing left in its window: two requests are let through; a
    third one that arrives while both are still inside the trailing
    window gets a 429 whose [retryAfter] is at most the window (rounded
    up to seconds, and as a number); and a request that arrives once
    every earlier entry has left the window is let through again. *)
Theorem sliding_window_limit store key prefix w t1 t2 t3 t4 r1 r2 r3 r4 :
  let config := {| maxRequests := 2; windowMs := w; keyPrefix := prefix |} in
  0 < w -> 0 <= t1 -> t1 <= t2 -> t2 <= t3 -> t3 < t1 + w -> t3 + w <= t4 ->
  (t1, r1) <> (t2, r2) ->
  zremrangebyscore 0 (t1 - w) (live store key t1) = [] ->
  let first := checkRateLimit store key config t1 r1 in
  let second := checkRateLimit (fst first) key config t2 r2 in
  let third := checkRateLimit (fst second) key config t3 r3 in
  let fourth := checkRateLimit (fst third) key config t4 r4 in
  snd first = Allowed 2 1 (t1 + w)
  /\ snd second = Allowed 2 0 (t2 + w)
  /\ (exists retryAfter reset,
        snd third = Rejected 429 retryAfter 2 0 reset
        /\ 1 <= retryAfter <= w
        /\ retryAfter <= ceilDiv w 1000)
  /\ snd fourth = Allowed 2 1 (t4 + w).
Proof.
  intros config Hw H0 H12 H23 Hin Hout Hm Hfresh first second third fourth.
  pose proof (ceilDiv_covers w Hw) as Hcover.
  assert (Hcount : forall es : list (Z * Member), zcard es = Z.of_nat (length es))
    by reflexivity.
  (* first request *)
  assert (E1 : first =
    (<[key := {| entries := [(t1, (t1, r1))];
                 expireAt := t1 + ceilDiv w 1000 * 1000 |}]> store,
     Allowed 2 1 (t1 + w))).
  { subst first. apply (check_allowed store key config t1 r1 [] Hfresh).
    rewrite Hcount. simpl. lia. }
  (* second request *)
  assert (L2 : zremrangebyscore 0 (t2 - w) (live (fst first) key t2) = [(t1, (t1, r1))]).
  { rewrite E1. cbn [fst]. rewrite live_insert. cbn [expireAt entries].
    replace (t1 + ceilDiv w 1000 * 1000 <=? t2) with false
      by (symmetry; apply Z.leb_gt; lia).
    apply prune_none. intros e [<- | []]. cbn [fst]. lia. }
  assert (E2 : second =
    (<[key := {| entries := [(t2, (t2, r2)); (t1, (t1, r1))];
                 expireAt := t2 + ceilDiv w 1000 * 1000 |}]> (fst first),
     Allowed 2 0 (t2 + w))).
  { subst second.
    rewrite (check_allowed (fst first) key config t2 r2 _ L2)
      by (rewrite Hcount; simpl; lia).
    unfold zadd. cbn [List.filter snd]. rewrite (memberEqb_neq (t1, r1) (t2, r2) Hm).
    reflexivity. }
  (* third request *)
  assert (L3 : zremrangebyscore 0 (t3 - w) (live (fst second) key t3)
               = [(t2, (t2, r2)); (t1, (t1, r1))]).
  { rewrite E2. cbn [fst]. rewrite live_insert. cbn [expireAt entries].
    replace (t2 + ceilDiv w 1000 * 1000 <=? t3) with false
      by (symmetry; apply Z.leb_gt; lia).
    apply prune_none. intros e [<- | [<- | []]]; cbn [fst]; lia. }
  destruct (check_rejected (fst second) key config t3 r3 _ L3) as (low & Hlow & E3).
  { rewrite Hcount. simpl. lia. }
  change (windowMs config) with w in E3.
  change (maxRequests config) with 2 in E3.
  fold third in E3.
  assert (Hscores : forall e, In e (zadd t3 (t3, r3) [(t2, (t2, r2)); (t1, (t1, r1))]) ->
                              t1 <= fst e <= t3).
  { intros e He. apply zadd_scores in He as [-> | [<- | [<- | []]]]; cbn [fst]; lia. }
  assert (Hlo : t1 <= low).
  { eapply lowestScore_lower; [| exact Hlow]. intros e He. by apply Hscores. }
  assert (Hhi : low <= t3).
  { destruct (lowestScore_head t3 (t3, r3)
                (List.filter (fun e => negb (memberEqb (snd e) (t3, r3)))
                   [(t2, (t2, r2)); (t1, (t1, r1))])) as (low' & Hlow' & Hle).
    unfold zadd in Hlow. rewrite Hlow in Hlow'. injection Hlow' as <-. exact Hle. }
  (* fourth request *)
  assert (L4 : zremrangebyscore 0 (t4 - w) (live (fst third) key t4) = []).
  { rewrite E3. cbn [fst]. rewrite live_insert. cbn [expireAt entries].
    destruct (t3 + ceilDiv w 1000 * 1000 <=? t4); [reflexivity |].
    apply prune_all. intros e He. apply Hscores in He. lia. }
  split; [by rewrite E1 |]. split; [by rewrite E2 |]. split.
  - exists (ceilDiv (low + w - t3) 1000), (low + w). rewrite E3. cbn [snd].
    split; [reflexivity |].
    pose proof (ceilDiv_pos (low + w - t3) ltac:(lia)).
    pose proof (ceilDiv_le (low + w - t3) w ltac:(lia)).
    pose proof (ceilDiv_le_self w Hw). lia.
  - subst fourth.
    rewrite (check_allowed (fst third) key config t4 r4 [] L4)
      by (rewrite Hcount; simpl; lia).
    reflexivity.
Qed.

(** A window of 2 seconds: requests at 10.0 s and 10.5 s pass, the one
    at 11.0 s is rejected, the one at 13.0 s passes. *)
Lemma sliding_window_limit_witness :
  let config := {| maxRequests := 2; windowMs := 2000; keyPrefix := "ratelimit:read" |} in
  let key := limiterKey config (Some "agent-1") "10.0.0.1" in
  let first := checkRateLimit ∅ key config 10000 "0.11" in
  let second := checkRateLimit (fst first) key config 10500 "0.22" in
  let third := checkRateLimit (fst second) key config 11000 "0.33" in
  let fourth := checkRateLimit (fst third) key config 13000 "0.44" in
  snd first = Allowed 2 1 12000
  /\ snd second = Allowed 2 0 12500
  /\ (exists retryAfter reset,
        snd third = Rejected 429 retryAfter 2 0 reset
        /\ 1 <= retryAfter <= 2000
        /\ retryAfter <= ceilDiv 2000 1000)
  /\ snd fourth = Allowed 2 1 15000.
Proof.
  apply (sliding_window_limit ∅
           (limiterKey {| maxRequests := 2; windowMs := 2000; keyPrefix := "ratelimit:read" |}
              (Some "agent-1") "10.0.0.1")
           "ratelimit:read" 2000 10000 10500 11000 13000 "0.11" "0.22" "0.33" "0.44");
    try lia.
  - intros H. discriminate H.
  - reflexivity.
Defined.

End RateLimitFacts.

(** ** Event Bus *)

Module EventBusFacts.
Import Js TradingService.
Import WebSocketService.

(** Who receives the deliveries. *)
Definition recipients (ds : list (Delivery EventBody)) : list string :=
  List.map recipient ds.

(** The sockets of an instance that sit in a room. *)
Definition members (room : string) (sockets : list Socket) : list string :=
  List.map socket_id (List.filter (inRoom room) sockets).

(** Two backend instances: A has no socket, B has one socket of agent-1
    and one of agent-2. Both sockets of B joined the leaderboard room. *)
Definition instanceA : Io := Some [].

Definition instanceB : Io :=
  Some (onConnection (onConnection [] "socket-1" "agent-1" "alice")
          "socket-2" "agent-2" "bob").

(** What the Stats Aggregator publishes for agent-1 on the synthetic
    trade set. *)
Definition publishedStats : list (WebSocketPayload EventBody) :=
  channel (fst (updateAgentStats IndexerFacts.fixtureEnv "agent-1" StatsFacts.sampleWorld)).

Lemma recipients_emitTo sockets ev (d : EventData EventBody) now :
  recipients (emitTo sockets ev d now) = List.map socket_id sockets.
Proof. unfold recipients, emitTo. rewrite List.map_map. reflexivity. Qed.

(** A payload that carries an agent id goes to the room of that agent
    and to no other socket, whatever its event is. *)
Lemma routed_to_agent sockets now (p : WebSocketPayload EventBody) agent :
  truthyId (data_agentId (data p)) = Some agent ->
  recipients (broadcastFromRedis (Some sockets) now p)
    = members ("agent:" +:+ agent) sockets.
Proof.
  intros H. unfold broadcastFromRedis. rewrite H. unfold emitToAgent.
  apply recipients_emitTo.
Qed.

(** A payload without agent id whose event name starts with
    [leaderboard:] goes to the leaderboard room. *)
Lemma routed_to_leaderboard sockets now (p : WebSocketPayload EventBody) :
  truthyId (data_agentId (data p)) = None ->
  String.prefix "leaderboard:" (eventName (event p)) = true ->
  recipients (broadcastFromRedis (Some sockets) now p) = members "leaderboard" sockets.
Proof.
  intros H Hp. unfold broadcastFromRedis. rewrite H, Hp. unfold emitToLeaderboard.
  apply recipients_emitTo.
Qed.

(** Any other payload goes to every connected socket. *)
Lemma routed_to_all sockets now (p : WebSocketPayload EventBody) :
  truthyId (data_agentId (data p)) = None ->
  String.prefix "leaderboard:" (eventName (event p)) = false ->
  recipients (broadcastFromRedis (Some sockets) now p) = List.map socket_id sockets.
Proof.
  intros H Hp. unfold broadcastFromRedis. rewrite H, Hp. unfold broadcast.
  apply recipients_emitTo.
Qed.

(** One published payload is handled by every instance of the cluster,
    each delivering to its own sockets. *)
Lemma relay_every_instance instances now (p : WebSocketPayload EventBody) io :
  In io instances -> In (broadcastFromRedis io now p) (relay instances now p).
Proof.
  intros Hin. unfold relay.
  apply List.in_map_iff. exists io. split; [| done].
  unfold onRedisMessage. by rewrite String.eqb_refl.
Qed.

(** C8. An event published on one instance is handed to every instance
    of the cluster, and each instance delivers it to the sockets of the
    room its routing hint names, to all of them and to no other socket: a
    payload that carries an agent id to room agent:{agentId}, a
    leaderboard event without agent id to the leaderboard room, any other
    payload to every socket. *)
Theorem routed_by_hint_on_every_instance
    (redisPublish : WebSocketPayload EventBody -> bool) now now'
    (channel : list (WebSocketPayload EventBody)) ev (d : EventData EventBody)
    instances sockets :
  redisPublish (mkPayload ev d now) = true ->
  In (Some sockets) instances ->
  exists p,
    publishEvent redisPublish now channel ev d = Ok (channel ++ [p])
    /\ event p = ev /\ data p = d
    /\ In (broadcastFromRedis (Some sockets) now' p) (relay instances now' p)
    /\ (forall agent, truthyId (data_agentId d) = Some agent ->
          recipients (broadcastFromRedis (Some sockets) now' p)
            = members ("agent:" +:+ agent) sockets)
    /\ (truthyId (data_agentId d) = None ->
        String.prefix "leaderboard:" (eventName ev) = true ->
        recipients (broadcastFromRedis (Some sockets) now' p)
          = members "leaderboard" sockets)
    /\ (truthyId (data_agentId d) = None ->
        String.prefix "leaderboard:" (eventName ev) = false ->
        recipients (broadcastFromRedis (Some sockets) now' p)
          = List.map socket_id sockets).
Proof.
  intros Hpub Hin. exists (mkPayload ev d now).
  split; [unfold publishEvent; by rewrite Hpub |].
  split; [reflexivity |]. split; [reflexivity |].
  split; [by apply relay_every_instance |].
  split; [intros agent Ha; by apply routed_to_agent |].
  split; [intros Hn Hp; by apply routed_to_leaderboard |].
  intros Hn Hp. by apply routed_to_all.
Qed.

(** A trade event for agent-2 published on instance A, which has no
    socket, is delivered on instance B to the socket of agent-2 and to
    nothing else. *)
Lemma routed_by_hint_on_every_instance_witness :
  exists p,
    publishEvent (fun _ => true) 1700000000000 [] TRADE_INDEXED
      (mkData (Some "agent-2") (TradeBody (StatsFacts.sampleTrade "agent-2" "0x02" 7000 1000)))
      = Ok [p]
    /\ List.map recipients (relay [instanceA; instanceB] 1700000000001 p)
       = [[]; ["socket-2"]].
Proof.
  destruct (routed_by_hint_on_every_instance (fun _ => true) 1700000000000 1700000000001
              [] TRADE_INDEXED
              (mkData (Some "agent-2")
                 (TradeBody (StatsFacts.sampleTrade "agent-2" "0x02" 7000 1000)))
              [instanceA; instanceB]
              (onConnection (onConnection [] "socket-1" "agent-1" "alice")
                 "socket-2" "agent-2" "bob"))
    as (p & Hp & _).
  - reflexivity.
  - right. by left.
  - exists p. split; [exact Hp |].
    injection Hp as <-. vm_compute. reflexivity.
Defined.

(** The agent id is looked at first: the [leaderboard:updated] event the
    Stats Aggregator publishes carries the agent id, so it is an
    agent-scoped payload and is delivered in room agent:agent-1, like the
    [agent:stats_updated] event published with it. *)
Lemma agent_hint_is_read_first :
  match publishedStats with
  | [statsUpdated; leaderboardUpdated] =>
      event statsUpdated = AGENT_STATS_UPDATED
      /\ event leaderboardUpdated = LEADERBOARD_UPDATED
      /\ data_agentId (data leaderboardUpdated) = Some "agent-1"
      /\ members "leaderboard" (default [] instanceB) = ["socket-1"; "socket-2"]
      /\ members "agent:agent-1" (default [] instanceB) = ["socket-1"]
      /\ List.map recipients (relay [instanceA; instanceB] 1700000000001 leaderboardUpdated)
         = [[]; ["socket-1"]]
  | _ => False
  end.
Proof. vm_compute. repeat split; reflexivity. Qed.

End EventBusFacts.

(** * Further properties of the code *)

(** ** Price cache *)

Module PriceCacheFacts.
Import Js PriceService PriceFacts.

Lemma Qpositive_spec p : Qpositive p = true <-> (0 < p)%Q.
Proof.
  unfold Qpositive. rewrite negb_true_iff. split.
  - intros H. apply Qnot_le_lt. intros Hle. apply Qle_bool_iff in Hle. congruence.
  - intros H. destruct (Qle_bool p 0) eqn:E; [| reflexivity].
    apply Qle_bool_iff in E. exfalso. by apply (Qlt_not_le _ _ H).
Qed.

(** [getWethPrice] never answers 0: a zero from the feed is replaced. *)
Lemma getWethPrice_nonzero feed : Qeq_bool (getWethPrice feed) 0 = false.
Proof.
  destruct feed as [| | [x |]]; simpl; try reflexivity.
  destruct (Qeq_bool x 0) eqn:E; [reflexivity | exact E].
Qed.

(** The hard-coded table of [getFallbackPrice] never changes an answer:
    on a cache miss the price returned is the one [getPriceFromUniswap]
    computed, so WETH is worth what the feed says, or 2500 when the feed
    rejects, is not ok, or reports nothing or 0. *)
Theorem fallback_table_never_changes_price cache now feed tokenAddress :
  cache !! toLowerCase tokenAddress = None ->
  fst (getTokenPriceUsd cache now feed tokenAddress)
    = getPriceFromUniswap feed tokenAddress
  /\ (isWeth tokenAddress = true ->
      fst (getTokenPriceUsd cache now feed tokenAddress) =
        match feed with
        | FetchOk (Some usd) => if Qeq_bool usd 0 then 2500%Q else usd
        | _ => 2500%Q
        end).
Proof.
  intros Hmiss. unfold getTokenPriceUsd. rewrite Hmiss.
  assert (H : fst (resolvePrice cache now feed tokenAddress)
              = getPriceFromUniswap feed tokenAddress).
  { unfold resolvePrice.
    set (p1 := if Qeq_bool (getPriceFromUniswap feed tokenAddress) 0
               then getFallbackPrice tokenAddress
               else getPriceFromUniswap feed tokenAddress).
    assert (Hp : p1 = getPriceFromUniswap feed tokenAddress).
    { subst p1. unfold getPriceFromUniswap, getFallbackPrice.
      destruct (isWeth tokenAddress) eqn:Hw.
      - by rewrite getWethPrice_nonzero.
      - destruct (isStablecoin tokenAddress); reflexivity. }
    rewrite Hp. by destruct (Qpositive _). }
  split; [exact H |].
  intros Hw. rewrite H. unfold getPriceFromUniswap. rewrite Hw.
  by destruct feed as [| | [x |]].
Qed.

Lemma fallback_table_never_changes_price_witness :
  fst (getTokenPriceUsd ∅ 1000 (FetchOk (Some 3100%Q)) WETH) = 3100%Q
  /\ fst (getTokenPriceUsd ∅ 1000 (FetchOk (Some 0%Q)) WETH) = 2500%Q.
Proof.
  split.
  - exact (proj2 (fallback_table_never_changes_price ∅ 1000 (FetchOk (Some 3100%Q)) WETH
                    eq_refl) eq_refl).
  - exact (proj2 (fallback_table_never_changes_price ∅ 1000 (FetchOk (Some 0%Q)) WETH
                    eq_refl) eq_refl).
Defined.

(** A positive price that a call returns is in the cache the call
    leaves, and is served from there, unchanged and without a write, to
    every later call for the same address in any letter case until the
    entry is five minutes old, whatever the feed then says. *)
Theorem positive_price_is_served_from_cache cache now feed tokenAddress p cache' :
  getTokenPriceUsd cache now feed tokenAddress = (p, cache') ->
  (0 < p)%Q ->
  exists e,
    cache' !! toLowerCase tokenAddress = Some e
    /\ price e = p
    /\ forall now' feed' other,
         toLowerCase other = toLowerCase tokenAddress ->
         now' - timestamp e < CACHE_TTL ->
         getTokenPriceUsd cache' now' feed' other = (p, cache').
Proof.
  intros Hcall Hpos.
  assert (Hentry : exists e, cache' !! toLowerCase tokenAddress = Some e /\ price e = p).
  { unfold getTokenPriceUsd in Hcall.
    assert (Hres : resolvePrice cache now feed tokenAddress = (p, cache') ->
                   exists e, cache' !! toLowerCase tokenAddress = Some e /\ price e = p).
    { unfold resolvePrice.
      destruct (Qpositive _) eqn:Hq; intros [= <- <-].
      - eexists. split; [apply lookup_insert_eq | reflexivity].
      - apply Qpositive_spec in Hpos. congruence. }
    destruct (cache !! toLowerCase tokenAddress) as [cached |] eqn:Hc; [| by apply Hres].
    destruct (now - timestamp cached <? CACHE_TTL); [| by apply Hres].
    injection Hcall as <- <-. by exists cached. }
  destruct Hentry as (e & He & Hp). exists e. split; [done |]. split; [done |].
  intros now' feed' other Hsame Hfresh. unfold getTokenPriceUsd.
  rewrite Hsame, He.
  replace (now' - timestamp e <? CACHE_TTL) with true by (symmetry; apply Z.ltb_lt; lia).
  by rewrite Hp.
Qed.

Lemma positive_price_is_served_from_cache_witness :
  let first := getTokenPriceUsd ∅ 1000 (FetchOk (Some 3100%Q)) WETH in
  getTokenPriceUsd (snd first) 200000 FetchRejects
    "0x4200000000000000000000000000000000000006" = (3100%Q, snd first).
Proof.
  intros first.
  destruct (positive_price_is_served_from_cache ∅ 1000 (FetchOk (Some 3100%Q)) WETH
              3100%Q (snd first)) as (e & He & _ & Hserve).
  - reflexivity.
  - reflexivity.
  - apply Hserve; [reflexivity |].
    vm_compute in He. injection He as <-. reflexivity.
Defined.

(** Every price the service has cached is strictly positive. *)
Theorem cached_prices_are_positive cache key e :
  reachable cache -> cache !! key = Some e -> (0 < price e)%Q.
Proof.
  intros Hr. revert key e.
  induction Hr as [| cache now feed a _ IH | cache _ _]; intros key e.
  - rewrite lookup_empty. discriminate.
  - unfold getTokenPriceUsd.
    assert (Hres : snd (resolvePrice cache now feed a) !! key = Some e -> (0 < price e)%Q).
    { unfold resolvePrice. destruct (Qpositive _) eqn:Hq; simpl; [| apply IH].
      rewrite lookup_insert. case_decide; [| apply IH].
      intros [= <-]. simpl. by apply Qpositive_spec. }
    destruct (cache !! toLowerCase a) as [cached |]; [| exact Hres].
    destruct (now - timestamp cached <? CACHE_TTL); [apply IH | exact Hres].
  - unfold clearCache. rewrite lookup_empty. discriminate.
Qed.

Lemma cached_prices_are_positive_witness :
  warmCache !! toLowerCase WETH = Some {| price := 3000; timestamp := 1000 |}
  /\ (0 < price {| price := 3000; timestamp := 1000 |})%Q.
Proof.
  assert (Hc : warmCache !! toLowerCase WETH = Some {| price := 3000; timestamp := 1000 |})
    by (vm_compute; reflexivity).
  split; [exact Hc |].
  apply (cached_prices_are_positive warmCache (toLowerCase WETH)
           {| price := 3000; timestamp := 1000 |}); [| exact Hc].
  unfold warmCache. do 2 apply reach_get. apply reach_init.
Defined.



End PriceCacheFacts.

(** ** Shape of the reconstructed swaps *)

Module ReconstructorShape.
Import Js BlockchainService ReconstructorFacts.

(** Candidates in ascending block order. *)
Definition byBlock (a b : SwapEvent) : Prop := blockNumber a <= blockNumber b.

Lemma insertByBlock_sorted s l :
  Sorted byBlock l -> Sorted byBlock (insertByBlock s l).
Proof.
  induction l as [| x l IH]; simpl; intros Hs.
  - repeat constructor.
  - destruct (blockNumber s <=? blockNumber x) eqn:E.
    + constructor; [done |]. constructor. unfold byBlock. by apply Z.leb_le in E.
    + apply Z.leb_gt in E. assert (Hxs : byBlock x s) by (unfold byBlock; lia).
      inversion Hs as [| ? ? Hl Hhd]; subst.
      constructor; [by apply IH |].
      destruct l as [| y l]; simpl.
      * constructor. exact Hxs.
      * destruct (blockNumber s <=? blockNumber y); constructor; [exact Hxs |].
        by inversion Hhd.
Qed.

Lemma sortByBlock_sorted l : Sorted byBlock (sortByBlock l).
Proof.
  induction l as [| s l IH]; simpl; [constructor | by apply insertByBlock_sorted].
Qed.

(** Candidates of equal block keep the order they had. *)
Lemma sortByBlock_keeps_ties a b c d :
  blockNumber a = 5 -> blockNumber b = 3 -> blockNumber c = 5 -> blockNumber d = 3 ->
  sortByBlock [a; b; c; d] = [b; d; a; c].
Proof.
  intros Ha Hb Hc Hd. unfold sortByBlock.
  repeat (cbn [fold_right insertByBlock]; rewrite ?Ha, ?Hb, ?Hc, ?Hd; cbn [Z.leb Z.compare Pos.compare Pos.compare_cont]).
  reflexivity.
Qed.

(** The sort is stable: candidates that are already in block order,
    equal blocks included, stay as they are. *)
Lemma sortByBlock_stable l : StronglySorted byBlock l -> sortByBlock l = l.
Proof.
  induction l as [| s l IH]; [reflexivity |]. intros Hs.
  inversion Hs as [| ? ? Hl Hall]; subst. simpl. rewrite (IH Hl).
  destruct l as [| x l]; [reflexivity |]. simpl.
  inversion Hall as [| ? ? Hsx _]; subst. unfold byBlock in Hsx.
  by replace (blockNumber s <=? blockNumber x) with true
    by (symmetry; by apply Z.leb_le).
Qed.

Lemma parseGroups_hash rpc a G s :
  In s (parseGroups rpc a G) -> txHash s ∈ List.map fst G.
Proof.
  intros Hs. apply parseGroups_in in Hs as (k & g & Hin & Hp).
  apply parse_txHash in Hp. rewrite Hp.
  apply list_elem_of_In. change k with (fst (k, g)). by apply List.in_map.
Qed.

Lemma parseGroups_distinct rpc a G :
  NoDup (List.map fst G) -> NoDup (List.map txHash (parseGroups rpc a G)).
Proof.
  induction G as [| [k g] rest IH]; simpl; intros Hnd; [constructor |].
  apply NoDup_cons in Hnd as [Hk Hrest].
  destruct (2 <=? Z.of_nat (length g)); [| by apply IH].
  destruct (parseSwapFromTransfers rpc k g a) as [s |] eqn:Hp; [| by apply IH].
  simpl. apply NoDup_cons. split; [| by apply IH].
  apply parse_txHash in Hp. rewrite Hp. intros Hin.
  apply list_elem_of_In, List.in_map_iff in Hin as (s' & Hh & Hs').
  apply parseGroups_hash in Hs'. rewrite Hh in Hs'. contradiction.
Qed.

(** Whatever the node answers, [getSwapEventsForAddress] returns its
    candidates in ascending block order, and no two of them carry the same
    transaction hash. *)
Theorem swaps_sorted_and_distinct rpc wallet fromBlock toBlock :
  StronglySorted byBlock (getSwapEventsForAddress rpc wallet fromBlock toBlock)
  /\ NoDup (List.map txHash (getSwapEventsForAddress rpc wallet fromBlock toBlock)).
Proof.
  unfold getSwapEventsForAddress.
  destruct (getLogsFrom rpc wallet fromBlock toBlock) as [tOut |];
    [| split; constructor].
  destruct (getLogsTo rpc wallet fromBlock toBlock) as [tIn |];
    [| split; constructor].
  split.
  - apply Sorted_StronglySorted; [| apply sortByBlock_sorted].
    intros x y z. unfold byBlock. lia.
  - apply NoDup_ListNoDup.
    eapply Permutation_NoDup;
      [apply Permutation_map; symmetry; apply sortByBlock_perm |].
    apply NoDup_ListNoDup. apply parseGroups_distinct, keys_groupByTx.
Qed.

(** A transfer of the wallet to itself is fetched by both log queries,
    so its group has two entries and both sides: it is reported as a swap
    of the token for itself, same amount in and out. *)
Theorem self_transfer_is_reported_as_swap rpc wallet fromBlock toBlock t look :
  getLogsFrom rpc wallet fromBlock toBlock = Some [t] ->
  getLogsTo rpc wallet fromBlock toBlock = Some [t] ->
  isOutbound wallet t = true ->
  isInbound wallet t = true ->
  getTransactionData rpc (transactionHash t) = Some look ->
  exists s,
    getSwapEventsForAddress rpc wallet fromBlock toBlock = [s]
    /\ txHash s = transactionHash t
    /\ tokenIn s = address t /\ tokenOut s = address t
    /\ amountIn s = args_value t /\ amountOut s = args_value t.
Proof.
  intros HOut HIn Ho Hi Hl. unfold getSwapEventsForAddress. rewrite HOut, HIn.
  assert (Hg : groupByTx ([t] ++ [t]) = [(transactionHash t, [t; t])]).
  { unfold groupByTx. simpl. by rewrite String.eqb_refl. }
  rewrite Hg. simpl.
  unfold parseSwapFromTransfers. rewrite Hl. simpl. rewrite Ho, Hi. simpl.
  eexists. split; [reflexivity |]. simpl. repeat split; reflexivity.
Qed.

Definition selfTransfer : TransferLog :=
  mkLog tokenX "0x5e1f" 700 0 (Some addrA) (Some addrA) 25.

Lemma self_transfer_is_reported_as_swap_witness :
  exists s,
    getSwapEventsForAddress (nodeOf [selfTransfer] 1000) addrA 0 (BlockNum 1000) = [s]
    /\ tokenIn s = tokenX /\ tokenOut s = tokenX
    /\ amountIn s = 25 /\ amountOut s = 25.
Proof.
  destruct (self_transfer_is_reported_as_swap (nodeOf [selfTransfer] 1000) addrA 0
              (BlockNum 1000) selfTransfer
              {| receipt_blockNumber := 700; block_timestamp := 1700000000;
                 tx_from := "0xAAAAaaaaAAAAaaaaAAAAaaaaAAAAaaaaAAAAaaaa";
                 tx_to := Some "0xCCCCccccCCCCccccCCCCccccCCCCccccCCCCcccc" |}
              eq_refl eq_refl eq_refl eq_refl eq_refl)
    as (s & Hs & _ & H1 & H2 & H3 & H4).
  exists s. repeat split; assumption.
Defined.

End ReconstructorShape.

(** ** What a pass of the indexer writes *)

Module IndexerEffects.
Import Js TradingService IndexerFacts.

(** The agent row [updateAgentStats] writes over [old] from [rows]. *)
Definition refreshed (old : Agent) (rows : list Trade) : Agent :=
  {| id := id old;
     username := username old;
     walletAddress := walletAddress old;
     totalVolumeUsd := totalVolumeOf rows;
     totalProfitUsd := totalProfitOf rows;
     winRate := winRateOf rows;
     totalTrades := Z.of_nat (length rows) |}.

(** The two events [updateAgentStats] publishes. *)
Definition statsPayloads (env : Env) (a : string) (stats : Agent)
    : list (WS.WebSocketPayload EventBody) :=
  [ WS.mkPayload WS.AGENT_STATS_UPDATED (WS.mkData (Some a) (StatsBody stats)) (now env);
    WS.mkPayload WS.LEADERBOARD_UPDATED (WS.mkData (Some a) (StatsBody stats)) (now env) ].

Lemma indexOne_indexed env a swap w w' :
  indexOne env a swap w = Indexed w' ->
  exists t,
    builtTrade env a swap w = Some t
    /\ trades w' = trades w ++ [t]
    /\ agents w' = agents w
    /\ channel w' = channel w ++ [tradeIndexedPayload env t].
Proof.
  unfold indexOne, builtTrade.
  destruct (findUnique (trades w) (BC.txHash swap)) eqn:Hfind; [discriminate |].
  destruct (BC.getTokenInfo (rpc env) (BC.tokenIn swap)) as [i |]; [| discriminate].
  destruct (BC.getTokenInfo (rpc env) (BC.tokenOut swap)) as [o |]; [| discriminate].
  destruct (PriceService.calculateUsdValue _ _ _ (BC.tokenIn swap) _ _) as [vin c1].
  destruct (PriceService.calculateUsdValue _ _ _ (BC.tokenOut swap) _ _) as [vout c2].
  unfold createTrade. simpl. rewrite Hfind.
  destruct (tradeCreate env _); [| discriminate].
  unfold publish, WS.publishEvent. simpl.
  destruct (redisPublish env _); [| discriminate].
  intros [= <-]. eexists. repeat split; reflexivity.
Qed.

(** A pass of the loop that completes has appended one row per counted
    candidate and published one trade:indexed event per appended row, in
    the same order and carrying that row. *)
Lemma indexSwaps_report env a swaps :
  forall w n w' m,
    indexSwaps env a swaps w n = (w', Ok m) ->
    exists added,
      trades w' = trades w ++ added
      /\ m = n + Z.of_nat (length added)
      /\ agents w' = agents w
      /\ channel w' = channel w ++ List.map (tradeIndexedPayload env) added.
Proof.
  induction swaps as [| swap rest IH]; simpl; intros w n w' m Hrun.
  - injection Hrun as <- <-. exists []. simpl. rewrite !app_nil_r.
    repeat split; [lia].
  - destruct (indexOne env a swap w) as [| w1 | w1 e] eqn:Hone.
    + by apply IH.
    + apply indexOne_indexed in Hone as (t & _ & Ht & Ha & Hc).
      destruct (IH _ _ _ _ Hrun) as (added & Ht' & Hm & Ha' & Hc').
      exists (t :: added). rewrite Ht', Ht, Ha', Ha, Hc', Hc. simpl.
      rewrite <- !app_assoc. repeat split; [lia].
    + discriminate.
Qed.

Lemma updateAgentStats_ok env a w w' u :
  updateAgentStats env a w = (w', Ok u) ->
  let rows := StatsFacts.rowsOf a w in
  trades w' = trades w
  /\ ((rows = [] /\ w' = w)
      \/ (rows <> []
          /\ exists old,
               agents w !! a = Some old
               /\ agents w' = <[a := refreshed old rows]> (agents w)
               /\ channel w' = channel w ++ statsPayloads env a (refreshed old rows))).
Proof.
  intros Hrun rows.
  pose proof (updateAgentStats_trades env a w) as Ht. rewrite Hrun in Ht. simpl in Ht.
  split; [exact Ht |].
  unfold updateAgentStats in Hrun. fold (StatsFacts.rowsOf a w) in Hrun. fold rows in Hrun.
  destruct (Z.of_nat (length rows) =? 0) eqn:Hlen.
  { left. injection Hrun as <-. split; [| reflexivity].
    apply Z.eqb_eq in Hlen. destruct rows; [done | simpl in Hlen; lia]. }
  right. split.
  { intros Hnil. rewrite Hnil in Hlen. discriminate. }
  destruct (agents w !! a) as [old |]; [| discriminate].
  exists old. split; [reflexivity |].
  unfold publish, WS.publishEvent in Hrun. simpl in Hrun.
  destruct (redisPublish env _); simpl in Hrun; [| discriminate].
  destruct (redisPublish env _); simpl in Hrun; [| discriminate].
  injection Hrun as <-. simpl. rewrite <- app_assoc. by split.
Qed.

(** Whatever its outcome, [updateAgentStats] leaves the rows of the other
    agents alone, creates and deletes no agent, and keeps the identity
    columns of the agent it refreshes. *)
Lemma updateAgentStats_agents env a w :
  let w' := fst (updateAgentStats env a w) in
  (forall b, b <> a -> agents w' !! b = agents w !! b)
  /\ match agents w !! a with
     | None => agents w' !! a = None
     | Some old =>
         exists s, agents w' !! a = Some s
           /\ id s = id old /\ username s = username old
           /\ walletAddress s = walletAddress old
     end.
Proof.
  unfold updateAgentStats.
  destruct (Z.of_nat (length _) =? 0).
  { simpl. split; [done |]. destruct (agents w !! a) as [old |]; [by exists old | done]. }
  destruct (agents w !! a) as [old |] eqn:Hold; [| simpl; by rewrite Hold].
  unfold publish, WS.publishEvent. simpl.
  repeat (match goal with |- context [if redisPublish env ?p then _ else _] =>
            destruct (redisPublish env p) end; simpl).
  all: split; [intros b Hb; by rewrite lookup_insert_ne |].
  all: eexists; split; [apply lookup_insert_eq | by repeat split].
Qed.

(** When [indexAgentTrades] returns a count, that count is the number
    of rows it appended, every appended row is the agent's, and it
    published exactly one trade:indexed event per appended row, followed
    by the two stats events or by nothing. *)
Theorem pass_count_matches_rows_and_events env a walletAddress w w' n :
  indexAgentTrades env a walletAddress w = (w', Ok n) ->
  exists added statsEvents,
    trades w' = trades w ++ added
    /\ n = Z.of_nat (length added)
    /\ Forall (fun t => agentId t = a) added
    /\ channel w' = channel w ++ List.map (tradeIndexedPayload env) added ++ statsEvents
    /\ (statsEvents = [] \/ exists stats, statsEvents = statsPayloads env a stats).
Proof.
  unfold indexAgentTrades, indexRange.
  destruct (BC.getCurrentBlock (rpc env)) as [cb | e]; [| discriminate].
  destruct (indexSwaps env a _ w 0) as [wl [m | e]] eqn:Hloop; [| discriminate].
  destruct (updateAgentStats env a wl) as [wu [u | e]] eqn:Hstats; [| discriminate].
  intros [= <- <-].
  destruct (indexSwaps_report _ _ _ _ _ _ _ Hloop) as (added & Ht & Hm & _ & Hc).
  destruct (indexSwaps_grows _ _ _ _ _ _ _ Hloop) as (added' & Ht' & _ & Hf).
  assert (added' = added) by (rewrite Ht in Ht'; by apply app_inv_head in Ht'). subst added'.
  destruct (updateAgentStats_ok _ _ _ _ _ Hstats) as (Htu & Hcase).
  assert (Hmine : Forall (fun t => agentId t = a) added).
  { eapply Forall_impl; [exact Hf |]. by intros t [Ha _]. }
  destruct Hcase as [[_ ->] | (_ & old & _ & _ & Hcu)].
  - exists added, []. rewrite app_nil_r.
    split; [done |]. split; [lia |]. split; [done |]. split; [done | by left].
  - exists added, (statsPayloads env a (refreshed old (StatsFacts.rowsOf a wl))).
    rewrite Htu, Hcu, Hc, <- app_assoc.
    split; [done |]. split; [lia |]. split; [done |]. split; [done |].
    right. by eexists.
Qed.

Lemma world1_run :
  indexAgentTrades fixtureEnv "agent-1" walletA world0 = (world1, Ok 1).
Proof. apply injective_projections; [reflexivity | vm_compute; reflexivity]. Qed.

Lemma pass_count_matches_rows_and_events_witness :
  exists added statsEvents,
    trades world1 = trades world0 ++ added
    /\ 1 = Z.of_nat (length added)
    /\ channel world1
        = channel world0 ++ List.map (tradeIndexedPayload fixtureEnv) added ++ statsEvents.
Proof.
  destruct (pass_count_matches_rows_and_events fixtureEnv "agent-1" walletA world0
              world1 1) as (added & evs & H1 & H2 & _ & H3 & _).
  - exact world1_run.
  - exists added, evs. split; [exact H1 |]. split; [exact H2 | exact H3].
Defined.



(** Whatever happens during a pass for one agent, the agent table keeps
    the same agents, the rows of the other agents are not touched, and the
    agent's own identity columns stay as they were. *)
Theorem pass_leaves_other_agents_alone env a wallet w :
  let w' := fst (indexAgentTrades env a wallet w) in
  (forall b, b <> a -> agents w' !! b = agents w !! b)
  /\ match agents w !! a with
     | None => agents w' !! a = None
     | Some old =>
         exists s, agents w' !! a = Some s
           /\ id s = id old /\ username s = username old
           /\ walletAddress s = walletAddress old
     end.
Proof.
  unfold indexAgentTrades, indexRange.
  destruct (BC.getCurrentBlock (rpc env)) as [cb | e].
  2: { simpl. split; [done |]. destruct (agents w !! a) as [old |]; [by exists old | done]. }
  destruct (indexSwaps env a _ w 0) as [wl r] eqn:Hloop.
  destruct (indexSwaps_grows _ _ _ _ _ _ _ Hloop) as (_ & _ & Hag & _).
  destruct r as [m | e].
  - pose proof (updateAgentStats_agents env a wl) as Hu. simpl in Hu.
    rewrite Hag in Hu.
    destruct (updateAgentStats env a wl) as [wu [u | e]]; exact Hu.
  - simpl. rewrite Hag. split; [done |].
    destruct (agents w !! a) as [old |]; [by exists old | done].
Qed.

End IndexerEffects.

(** ** Passes and sweeps over the block range *)

Module IndexerSweep.
Import Js TradingService IndexerFacts.

(** The rows a pass appends: all of the agent, none below the block the
    scan started from. *)
Lemma pass_rows env a wallet w :
  ReconstructorFacts.chainConsistent (rpc env) ->
  exists added,
    trades (fst (indexAgentTrades env a wallet w)) = trades w ++ added
    /\ Forall (fun t => agentId t = a
                        /\ forall cb, BC.getCurrentBlock (rpc env) = Ok cb ->
                                      fromBlockOf (trades w) a cb <= blockNumber t)
         added.
Proof.
  intros Hc. unfold indexAgentTrades.
  destruct (BC.getCurrentBlock (rpc env)) as [cb | e].
  - destruct (indexRange_grows env a wallet (fromBlockOf (trades w) a cb) cb w)
      as (added & Ht & Hf).
    exists added. split; [done |]. eapply Forall_impl; [exact Hf |].
    intros t [Ha (swap & Hin & _ & Hb)]. split; [done |].
    intros cb' [= <-].
    apply (ReconstructorFacts.candidate_in_range _ _ _ _ _ Hc) in Hin. lia.
  - exists []. simpl. by rewrite app_nil_r.
Qed.

(** Appending rows of one agent, none below its scan start, lowers no
    watermark. *)
Lemma appended_watermark rows added a cb cb' b :
  Forall (fun t => agentId t = a /\ fromBlockOf rows a cb <= blockNumber t) added ->
  cb <= cb' ->
  watermark rows b cb <= watermark (rows ++ added) b cb'.
Proof.
  intros Hf Hle. destruct (decide (b = a)) as [-> | Hne].
  - pose proof (findLastTrade_spec (rows ++ added) a) as Hafter.
    pose proof (findLastTrade_spec rows a) as Hbefore.
    rewrite List.filter_app in Hafter. rewrite Forall_forall in Hf.
    unfold watermark, fromBlockOf in *.
    destruct (findLastTrade (rows ++ added) a) as [t' |],
             (findLastTrade rows a) as [t |].
    + destruct Hafter as [_ Hmax']. destruct Hbefore as [Hin _].
      assert (blockNumber t <= blockNumber t'); [| lia].
      apply Hmax'. apply List.in_or_app. by left.
    + destruct Hafter as [Hin' _]. rewrite Hbefore in Hin'. simpl in Hin'.
      apply List.filter_In in Hin' as [Hin' _]. apply list_elem_of_In in Hin'.
      destruct (Hf _ Hin') as [_ Hb]. lia.
    + apply List.app_eq_nil in Hafter as [Hnone _].
      destruct Hbefore as [Hin _]. rewrite Hnone in Hin. destruct Hin.
    + lia.
  - unfold watermark, fromBlockOf. rewrite findLastTrade_other.
    + destruct (findLastTrade rows b); lia.
    + eapply Forall_impl; [exact Hf |]. intros t [Ha _]. congruence.
Qed.

(** A pass never goes back: every row it appends lies strictly above
    every row the agent already had, so a transaction that was passed
    over at or below the agent's last indexed block is never indexed by a
    later pass. *)
Theorem pass_never_backfills env a wallet w earlier :
  ReconstructorFacts.chainConsistent (rpc env) ->
  In earlier (trades w) -> agentId earlier = a ->
  exists added,
    trades (fst (indexAgentTrades env a wallet w)) = trades w ++ added
    /\ Forall (fun t => blockNumber earlier < blockNumber t) added.
Proof.
  intros Hc Hin Ha.
  destruct (pass_rows env a wallet w Hc) as (added & Ht & Hf).
  exists added. split; [done |].
  destruct (BC.getCurrentBlock (rpc env)) as [cb | e] eqn:Hhead.
  - eapply Forall_impl; [exact Hf |]. intros t [_ Hb].
    specialize (Hb cb eq_refl).
    destruct (watermark_is_max (trades w) a cb earlier Hin Ha) as [Hmax _].
    unfold watermark in Hmax. lia.
  - unfold indexAgentTrades in Ht. rewrite Hhead in Ht. simpl in Ht.
    assert (added = []) by (apply (app_inv_head (trades w)); by rewrite app_nil_r).
    subst added. constructor.
Qed.

Lemma pass_never_backfills_witness :
  exists added,
    trades (fst (indexAgentTrades fixtureEnv "agent-1" walletA world1))
      = trades world1 ++ added
    /\ Forall (fun t => 500 < blockNumber t) added.
Proof.
  destruct (trades world1) as [| row rest] eqn:Hrows; [vm_compute in Hrows; discriminate |].
  assert (Hb : blockNumber row = 500) by (vm_compute in Hrows; by injection Hrows as <- _).
  assert (Ha : agentId row = "agent-1") by (vm_compute in Hrows; by injection Hrows as <- _).
  destruct (pass_never_backfills fixtureEnv "agent-1" walletA world1 row
              fixture_consistent) as (added & Ht & Hf).
  - rewrite Hrows. by left.
  - exact Ha.
  - exists added. rewrite <- Hrows. split; [exact Ht |]. by rewrite <- Hb.
Defined.

(** The loop over the agents: the counters account for every agent. *)
Lemma indexAgents_counts env found :
  forall w s f tt w' s' f' tt',
    indexAgents env found w s f tt = (w', (s', f', tt')) ->
    s' + f' = s + f + Z.of_nat (length found) /\ s <= s' /\ f <= f'.
Proof.
  induction found as [| agent rest IH]; simpl; intros w s f tt w' s' f' tt' Hrun.
  - injection Hrun as <- <- <- <-. lia.
  - destruct (indexAgentTrades env (id agent) (walletAddress agent) w) as [w1 [n | e]];
      apply IH in Hrun; lia.
Qed.

(** What the loop over the agents keeps, whatever passes fail. *)
Lemma indexAgents_keeps env found cb :
  ReconstructorFacts.chainConsistent (rpc env) ->
  BC.getCurrentBlock (rpc env) = Ok cb ->
  forall w s f tt,
    let w' := fst (indexAgents env found w s f tt) in
    (exists added, trades w' = trades w ++ added)
    /\ (uniqueHashes (trades w) -> uniqueHashes (trades w'))
    /\ (forall b, watermark (trades w) b cb <= watermark (trades w') b cb).
Proof.
  intros Hc Hhead.
  induction found as [| agent rest IH]; simpl; intros w s f tt.
  - split; [exists []; by rewrite app_nil_r |]. split; [done | intros; lia].
  - pose proof (indexAgentTrades_unique env (id agent) (walletAddress agent) w) as Hu.
    destruct (pass_rows env (id agent) (walletAddress agent) w Hc) as (added & Ht & Hf).
    assert (Hw : forall b, watermark (trades w) b cb
                           <= watermark (trades w ++ added) b cb).
    { intros b. eapply appended_watermark; [| lia].
      eapply Forall_impl; [exact Hf |]. intros t [Ha Hb]. split; [exact Ha | by apply Hb]. }
    destruct (indexAgentTrades env (id agent) (walletAddress agent) w) as [w1 [n | e]];
      simpl in Ht, Hu;
      match goal with |- context [indexAgents env rest w1 ?s' ?f' ?t'] =>
        destruct (IH w1 s' f' t') as ((added' & Ht') & Hu' & Hw') end;
      (split; [exists (added ++ added'); by rewrite Ht', Ht, app_assoc |]);
      (split; [tauto |]);
      intros b; specialize (Hw b); specialize (Hw' b); rewrite Ht in Hw'; lia.
Qed.

(** A sweep over all agents reports every agent once, as successful or
    as failed; and whichever passes fail, it only appends rows, keeps the
    transaction hashes unique, and lowers the watermark of no agent. *)
Theorem sweep_accounts_and_never_regresses env found w cb cb' :
  ReconstructorFacts.chainConsistent (rpc env) ->
  BC.getCurrentBlock (rpc env) = Ok cb ->
  cb <= cb' ->
  let w' := fst (indexAllAgentTrades env found w) in
  let report := snd (indexAllAgentTrades env found w) in
  total report = Z.of_nat (length found)
  /\ successful report + failed report = total report
  /\ 0 <= successful report /\ 0 <= failed report
  /\ (exists added, trades w' = trades w ++ added)
  /\ (uniqueHashes (trades w) -> uniqueHashes (trades w'))
  /\ (forall b, watermark (trades w) b cb <= watermark (trades w') b cb').
Proof.
  intros Hc Hhead Hle. unfold indexAllAgentTrades.
  pose proof (indexAgents_keeps env found cb Hc Hhead w 0 0 0) as Hk.
  destruct (indexAgents env found w 0 0 0) as [w1 [[s f] tt]] eqn:Hrun.
  apply indexAgents_counts in Hrun. simpl in *.
  destruct Hk as (Happ & Hu & Hw).
  split; [reflexivity |]. split; [lia |]. split; [lia |]. split; [lia |].
  split; [exact Happ |]. split; [exact Hu |].
  intros b. specialize (Hw b). unfold watermark, fromBlockOf in *.
  destruct (findLastTrade (trades w1) b), (findLastTrade (trades w) b); lia.
Qed.

(** The two agents of the fixture share the wallet: the sweep indexes
    its one swap for the first of them and finds it stored for the
    second. *)
Lemma sweep_accounts_and_never_regresses_witness :
  let found := [newAgent "agent-1" "alice" walletA; newAgent "agent-2" "bob" walletA] in
  let report := snd (indexAllAgentTrades fixtureEnv found world0) in
  total report = 2 /\ successful report + failed report = 2.
Proof.
  intros found report.
  assert (Hhead : BC.getCurrentBlock (rpc fixtureEnv) = Ok 1000) by reflexivity.
  assert (Hle : 1000 <= 1000) by lia.
  destruct (sweep_accounts_and_never_regresses fixtureEnv found world0 1000 1000
              fixture_consistent Hhead Hle) as (H1 & H2 & _).
  fold report in H1, H2. split; [exact H1 |]. rewrite H2. exact H1.
Defined.

End IndexerSweep.

(** ** Bounds of the aggregates *)

Module StatsBounds.
Import Js TradingService.

Lemma profitable_le_all rows : (profitableTradesOf rows <= Z.of_nat (length rows))%Z.
Proof.
  unfold profitableTradesOf. apply Nat2Z.inj_le.
  induction rows as [| t rows IH]; simpl; [lia |].
  destruct (isProfitable t); simpl; lia.
Qed.

Lemma winRateOf_bounds rows :
  rows <> [] -> (0 <= winRateOf rows)%Q /\ (winRateOf rows <= 100)%Q.
Proof.
  intros Hne. unfold winRateOf.
  set (p := profitableTradesOf rows). set (n := Z.of_nat (length rows)).
  assert (Hp : (0 <= p)%Z) by (unfold p, profitableTradesOf; lia).
  assert (Hpn : (p <= n)%Z) by apply profitable_le_all.
  assert (Hn : (0 < n)%Z) by (unfold n; destruct rows; [done | simpl; lia]).
  assert (Hratio : (0 <= inject_Z p / inject_Z n)%Q /\ (inject_Z p / inject_Z n <= 1)%Q).
  { split.
    - apply Qle_shift_div_l.
      + change 0%Q with (inject_Z 0). by rewrite <- Zlt_Qlt.
      + rewrite Qmult_0_l. change 0%Q with (inject_Z 0). by rewrite <- Zle_Qle.
    - apply Qle_shift_div_r.
      + change 0%Q with (inject_Z 0). by rewrite <- Zlt_Qlt.
      + rewrite Qmult_1_l. by rewrite <- Zle_Qle. }
  destruct Hratio as [H0 H1]. split.
  - apply Qmult_le_0_compat; [exact H0 | discriminate].
  - apply Qle_trans with (1 * 100)%Q; [| discriminate].
    apply Qmult_le_compat_r; [exact H1 | discriminate].
Qed.

(** Whenever the Stats Aggregator writes an agent row, the win rate it
    writes lies between 0 and 100, the trade count is at least 1, and the
    win rate is 100 exactly when every counted trade has a profit above
    0. *)
Theorem written_stats_are_within_bounds env a w old :
  agents w !! a = Some old ->
  StatsFacts.rowsOf a w <> [] ->
  exists stats,
    agents (fst (updateAgentStats env a w)) !! a = Some stats
    /\ (0 <= winRate stats)%Q /\ (winRate stats <= 100)%Q
    /\ 1 <= totalTrades stats
    /\ (profitableTradesOf (StatsFacts.rowsOf a w) = totalTrades stats
        -> (winRate stats == 100)%Q).
Proof.
  intros Hold Hrows. eexists.
  split; [by apply StatsFacts.updateAgentStats_writes |]. simpl.
  destruct (winRateOf_bounds _ Hrows) as [H0 H1].
  split; [exact H0 |]. split; [exact H1 |].
  split; [destruct (StatsFacts.rowsOf a w); [done | simpl; lia] |].
  intros Hall. unfold winRateOf. rewrite Hall. field.
  intros Hz. destruct (StatsFacts.rowsOf a w); [done |].
  unfold Qeq in Hz. simpl in Hz. lia.
Qed.

Lemma written_stats_are_within_bounds_witness :
  exists stats,
    agents (fst (updateAgentStats IndexerFacts.fixtureEnv "agent-1" StatsFacts.sampleWorld))
      !! "agent-1" = Some stats
    /\ (0 <= winRate stats)%Q /\ (winRate stats <= 100)%Q.
Proof.
  destruct (written_stats_are_within_bounds IndexerFacts.fixtureEnv "agent-1"
              StatsFacts.sampleWorld
              (IndexerFacts.newAgent "agent-1" "alice" IndexerFacts.walletA))
    as (stats & Hs & H0 & H1 & _).
  - vm_compute. reflexivity.
  - vm_compute. discriminate.
  - by exists stats.
Defined.

End StatsBounds.

(** ** token.service.ts: the price refresher *)

Module TokenService.
Import Js.
Module WS := WebSocketService.

(** A row of the [launchedToken] table, with the columns the refresher
    reads and writes. *)
Record LaunchedToken : Type := mkToken {
  agentId : string;
  tokenAddress : string;
  name : string;
  symbol : string;
  decimals : Z;
  priceUsd : Q;
  marketCapUsd : Q
}.

(** The [data] of a token:stats_updated event. *)
Record TokenStatsBody : Type := mkTokenStats {
  body_tokenAddress : string;
  body_symbol : string;
  body_priceUsd : Q;
  body_marketCapUsd : Q
}.

(** What the refresher reads from outside: the spot-price feed, the
    clock, the [totalSupply] of a token contract ([None] when the read
    rejects), and whether the store and Redis accept a write. *)
Record Env : Type := mkEnv {
  feed : PriceService.FeedResponse;
  now : Z;
  totalSupplyOf : string -> option Z;
  tokenUpdate : LaunchedToken -> bool;
  redisPublish : WS.WebSocketPayload TokenStatsBody -> bool
}.

(** The state the refresher reads and writes. The table is keyed by the
    stored [tokenAddress]. *)
Record World : Type := mkWorld {
  launched : gmap string LaunchedToken;
  priceCache : gmap string PriceService.CacheEntry;
  channel : list (WS.WebSocketPayload TokenStatsBody)
}.

(** [updateTokenStats]: every rejection inside lands in the catch
    handler, which only logs. *)
Definition updateTokenStats (env : Env) (address : string) (w : World) : World :=
  match launched w !! toLowerCase address with
  | None => w
  | Some token =>
      let '(price, cache) :=
        PriceService.getTokenPriceUsd (priceCache w) (now env) (feed env) address in
      let w1 := {| launched := launched w; priceCache := cache; channel := channel w |} in
      match totalSupplyOf env address with
      | None => w1
      | Some totalSupply =>
          let totalSupplyFormatted :=
            (inject_Z totalSupply / PriceService.pow10 (decimals token))%Q in
          let marketCap := (price * totalSupplyFormatted)%Q in
          let updated :=
            {| agentId := agentId token;
               tokenAddress := tokenAddress token;
               name := name token;
               symbol := symbol token;
               decimals := decimals token;
               priceUsd := price;
               marketCapUsd := marketCap |} in
          if tokenUpdate env updated then
            let w2 := {| launched := <[toLowerCase address := updated]> (launched w);
                         priceCache := cache;
                         channel := channel w |} in
            match WS.publishEvent (redisPublish env) (now env) (channel w2)
                    WS.TOKEN_STATS_UPDATED
                    (WS.mkData None
                       {| body_tokenAddress := toLowerCase address;
                          body_symbol := symbol token;
                          body_priceUsd := price;
                          body_marketCapUsd := marketCap |}) with
            | Ok c => {| launched := launched w2; priceCache := cache; channel := c |}
            | Throw _ => w2
            end
          else w1
      end
  end.

(** The loop of [updateAllTokenStats] over the addresses [findMany]
    returned. *)
Definition updateTokens (env : Env) (addresses : list string) (w : World) : World :=
  fold_left (fun w address => updateTokenStats env address w) addresses w.

(** [updateAllTokenStats]: the addresses are those stored in the table. *)
Definition updateAllTokenStats (env : Env) (w : World) : World :=
  let tokens := List.map fst (map_to_list (launched w)) in
  if (Z.of_nat (length tokens) =? 0) then w else updateTokens env tokens w.

End TokenService.

Module TokenFacts.
Import Js TokenService.

(** The token row is there, priced 0 with a market cap of 0. *)
Definition zeroed (w : World) (k : string) (original : LaunchedToken) : Prop :=
  exists t,
    launched w !! k = Some t
    /\ priceUsd t = 0%Q /\ (marketCapUsd t == 0)%Q
    /\ symbol t = symbol original /\ decimals t = decimals original
    /\ tokenAddress t = tokenAddress original.

(** A launched token, priced at launch, that the price service knows no
    path for. *)
Definition clawToken : LaunchedToken :=
  {| agentId := "agent-1";
     tokenAddress := "0x00000000000000000000000000000000c1a30001";
     name := "Claw";
     symbol := "CLAW";
     decimals := 18;
     priceUsd := 25 # 100000;
     marketCapUsd := 25000 |}.

Definition tokenEnv : Env :=
  {| feed := PriceService.FetchRejects;
     now := 1700000000000;
     totalSupplyOf := fun _ => Some 100000000000000000000000000;
     tokenUpdate := fun _ => true;
     redisPublish := fun _ => true |}.

Definition tokenWorld : World :=
  {| launched := {[ "0x00000000000000000000000000000000c1a30001" := clawToken ]};
     priceCache := ∅;
     channel := [] |}.

Lemma updateTokenStats_cache env address w :
  PriceService.reachable (priceCache w) ->
  PriceService.reachable (priceCache (updateTokenStats env address w)).
Proof.
  intros Hr. unfold updateTokenStats.
  destruct (launched w !! toLowerCase address) as [token |]; [| exact Hr].
  pose proof (PriceService.reach_get (priceCache w) (now env) (feed env) address Hr) as Hr'.
  destruct (PriceService.getTokenPriceUsd _ _ _ address) as [price cache]. simpl in Hr'.
  destruct (totalSupplyOf env address); [| exact Hr'].
  destruct (tokenUpdate env _); [| exact Hr'].
  unfold WS.publishEvent. destruct (redisPublish env _); exact Hr'.
Qed.

Lemma updateTokenStats_other env address w k :
  toLowerCase address <> k ->
  launched (updateTokenStats env address w) !! k = launched w !! k.
Proof.
  intros Hne. unfold updateTokenStats.
  destruct (launched w !! toLowerCase address) as [token |]; [| reflexivity].
  destruct (PriceService.getTokenPriceUsd _ _ _ address) as [price cache].
  destruct (totalSupplyOf env address); [| reflexivity].
  destruct (tokenUpdate env _); [| reflexivity].
  unfold WS.publishEvent. destruct (redisPublish env _); simpl;
    by rewrite lookup_insert_ne.
Qed.

Lemma updateTokenStats_zeroes env address w original supply :
  PriceService.reachable (priceCache w) ->
  ~ PriceFacts.knownPath address ->
  launched w !! toLowerCase address = Some original ->
  totalSupplyOf env address = Some supply ->
  (forall t, tokenUpdate env t = true) ->
  zeroed (updateTokenStats env address w) (toLowerCase address) original.
Proof.
  intros Hr Hn Hl Hs Hup. unfold updateTokenStats. rewrite Hl.
  rewrite (PriceFacts.getTokenPriceUsd_unknown _ _ _ _ (PriceFacts.reachable_sound _ Hr) Hn).
  rewrite Hs, Hup. unfold WS.publishEvent.
  destruct (redisPublish env _); simpl; eexists;
    (split; [apply lookup_insert_eq |]); simpl;
    (split; [reflexivity |]); (split; [ring | by repeat split]).
Qed.

Lemma updateTokens_zeroes env addresses :
  forall w k original supply,
    (forall a, In a addresses -> toLowerCase a = a) ->
    (forall t, tokenUpdate env t = true) ->
    PriceService.reachable (priceCache w) ->
    ~ PriceFacts.knownPath k ->
    totalSupplyOf env k = Some supply ->
    (In k addresses /\ launched w !! k = Some original) \/ zeroed w k original ->
    zeroed (updateTokens env addresses w) k original.
Proof.
  unfold updateTokens.
  induction addresses as [| a rest IH]; simpl;
    intros w k original supply Hlow Hup Hr Hn Hs Hcase.
  - destruct Hcase as [[[] _] | Hz]. exact Hz.
  - assert (Ha : toLowerCase a = a) by (apply Hlow; by left).
    apply (IH _ k original supply);
      [intros a' Ha'; apply Hlow; by right | done
      | by apply updateTokenStats_cache | done | done |].
    destruct (decide (a = k)) as [-> | Hne].
    + right.
      assert (Hz : forall t0, launched w !! k = Some t0 ->
                              zeroed (updateTokenStats env k w) k t0).
      { intros t0 Ht0.
        pose proof (updateTokenStats_zeroes env k w t0 supply Hr Hn) as H.
        rewrite Ha in H. by apply H. }
      destruct Hcase as [[_ Hl] | (t & Hl & Hp & Hm & Hsy & Hd & Hta)];
        [by apply Hz |].
      destruct (Hz t Hl) as (t' & H1 & H2 & H3 & H4 & H5 & H6).
      exists t'. repeat split; try done; congruence.
    + assert (Hother : launched (updateTokenStats env a w) !! k = launched w !! k)
        by (apply updateTokenStats_other; congruence).
      destruct Hcase as [[[Heq | Hin] Hl] | (t & Hl & Hrest)]; [congruence | |].
      * left. split; [done |]. by rewrite Hother.
      * right. exists t. by rewrite Hother.
Qed.

(** The refresher zeroes what it cannot price: after
    [updateAllTokenStats], every launched token that is neither WETH nor
    a stablecoin, and whose total supply could be read, is stored with
    price 0 and market cap 0, whatever it was priced at before; its
    address, symbol and decimals are kept. (Stored addresses are lower
    case, as [launchToken] writes them, and the store accepts the
    updates.) *)
Theorem refresh_zeroes_unpriced_tokens env w k original supply :
  (forall a t, launched w !! a = Some t -> toLowerCase a = a) ->
  (forall t, tokenUpdate env t = true) ->
  PriceService.reachable (priceCache w) ->
  launched w !! k = Some original ->
  ~ PriceFacts.knownPath k ->
  totalSupplyOf env k = Some supply ->
  zeroed (updateAllTokenStats env w) k original.
Proof.
  intros Hlow Hup Hr Hl Hn Hs. unfold updateAllTokenStats.
  assert (Hin : In k (List.map fst (map_to_list (launched w)))).
  { apply List.in_map_iff. exists (k, original). split; [reflexivity |].
    apply list_elem_of_In. by apply elem_of_map_to_list. }
  destruct (Z.of_nat (length _) =? 0) eqn:Hlen.
  { apply Z.eqb_eq in Hlen. destruct (List.map fst (map_to_list (launched w)));
      [destruct Hin | simpl in Hlen; lia]. }
  apply (updateTokens_zeroes _ _ _ _ _ supply); try done.
  - intros a Ha. apply List.in_map_iff in Ha as ([a' t] & <- & Hat).
    apply list_elem_of_In, elem_of_map_to_list in Hat. by eapply Hlow.
  - left. by split.
Qed.

Lemma refresh_zeroes_unpriced_tokens_witness :
  zeroed (updateAllTokenStats tokenEnv tokenWorld)
    "0x00000000000000000000000000000000c1a30001" clawToken.
Proof.
  apply (refresh_zeroes_unpriced_tokens tokenEnv tokenWorld _ clawToken
           100000000000000000000000000).
  - intros a t Ha. unfold tokenWorld in Ha. simpl in Ha.
    apply lookup_singleton_Some in Ha as [<- _]. reflexivity.
  - reflexivity.
  - apply PriceService.reach_init.
  - reflexivity.
  - unfold PriceFacts.knownPath, PriceFacts.knownStablecoin.
    intros [H | [H | [H | H]]]; discriminate H.
  - reflexivity.
Defined.

(** The row of [k] after a refresh step, against the row before it:
    same identity columns, and the very same row when the supply read of
    [k] rejects. *)
Definition keptRow (env : Env) (k : string) (before after : option LaunchedToken) : Prop :=
  match before with
  | None => after = None
  | Some t =>
      exists t', after = Some t'
        /\ agentId t' = agentId t /\ tokenAddress t' = tokenAddress t
        /\ name t' = name t /\ symbol t' = symbol t /\ decimals t' = decimals t
        /\ (totalSupplyOf env k = None -> t' = t)
  end.

Lemma keptRow_refl env k row : keptRow env k row row.
Proof. destruct row as [t |]; simpl; [| reflexivity]. exists t. by repeat split. Qed.

Lemma keptRow_trans env k r1 r2 r3 :
  keptRow env k r1 r2 -> keptRow env k r2 r3 -> keptRow env k r1 r3.
Proof.
  destruct r1 as [t1 |]; simpl.
  - intros (t2 & -> & H). simpl. intros (t3 & -> & H'). exists t3.
    destruct H as (? & ? & ? & ? & ? & Hs), H' as (? & ? & ? & ? & ? & Hs').
    repeat split; try congruence. intros Hn. rewrite (Hs' Hn). by apply Hs.
  - by intros ->.
Qed.

Lemma updateTokenStats_keeps env a w k :
  toLowerCase a = a ->
  keptRow env k (launched w !! k) (launched (updateTokenStats env a w) !! k).
Proof.
  intros Ha. destruct (decide (a = k)) as [-> | Hne].
  2: { rewrite updateTokenStats_other by congruence. apply keptRow_refl. }
  unfold updateTokenStats. rewrite Ha.
  destruct (launched w !! k) as [token |] eqn:Hl; [| simpl; by rewrite Hl].
  destruct (PriceService.getTokenPriceUsd _ _ _ k) as [price cache].
  destruct (totalSupplyOf env k) as [supply |] eqn:Hs.
  2: { simpl. rewrite Hl. exists token. by repeat split. }
  destruct (tokenUpdate env _).
  2: { simpl. rewrite Hl. exists token. by repeat split. }
  unfold WS.publishEvent. destruct (redisPublish env _); simpl;
    rewrite lookup_insert_eq; eexists; (split; [reflexivity |]); simpl;
    repeat split; try reflexivity; intros Hnone; congruence.
Qed.

Lemma updateTokens_keeps env addresses k :
  (forall a, In a addresses -> toLowerCase a = a) ->
  forall w, keptRow env k (launched w !! k) (launched (updateTokens env addresses w) !! k).
Proof.
  unfold updateTokens. induction addresses as [| a rest IH]; simpl; intros Hlow w.
  - apply keptRow_refl.
  - eapply keptRow_trans.
    + apply (updateTokenStats_keeps env a w k). apply Hlow. by left.
    + apply IH. intros a' Ha'. apply Hlow. by right.
Qed.

(** A refresh creates and deletes no token and changes nothing of a
    token but its price and market cap; and a token whose total supply
    cannot be read keeps its row exactly as it was, whatever happens to
    the other tokens of the sweep. *)
Theorem refresh_keeps_rows env w k :
  (forall a t, launched w !! a = Some t -> toLowerCase a = a) ->
  keptRow env k (launched w !! k) (launched (updateAllTokenStats env w) !! k).
Proof.
  intros Hlow. unfold updateAllTokenStats.
  destruct (Z.of_nat (length _) =? 0); [apply keptRow_refl |].
  apply updateTokens_keeps.
  intros a Ha. apply List.in_map_iff in Ha as ([a' t] & <- & Hat).
  apply list_elem_of_In, elem_of_map_to_list in Hat. by eapply Hlow.
Qed.

(** The fixture with a node on which the supply read rejects. *)
Definition blindEnv : Env :=
  {| feed := PriceService.FetchRejects;
     now := 1700000000000;
     totalSupplyOf := fun _ => None;
     tokenUpdate := fun _ => true;
     redisPublish := fun _ => true |}.

Lemma refresh_keeps_rows_witness :
  launched (updateAllTokenStats blindEnv tokenWorld)
    !! "0x00000000000000000000000000000000c1a30001" = Some clawToken.
Proof.
  pose proof (refresh_keeps_rows blindEnv tokenWorld
                "0x00000000000000000000000000000000c1a30001") as H.
  assert (Hl : launched tokenWorld !! "0x00000000000000000000000000000000c1a30001"
               = Some clawToken) by reflexivity.
  rewrite Hl in H. destruct H as (t' & Ht' & _ & _ & _ & _ & _ & Hsame).
  - intros a t Ha. unfold tokenWorld in Ha. simpl in Ha.
    apply lookup_singleton_Some in Ha as [<- _]. reflexivity.
  - rewrite Ht'. f_equal. by apply Hsame.
Defined.

End TokenFacts.

(** ** Connected sockets *)

Module SocketFacts.
Import Js WebSocketService.

Local Set Warnings "-clear-no-such-hyp".

Definition ofAgentSocket (a : string) (s : Socket) : bool :=
  String.eqb (socket_agentId s) a.

(** The ids of the sockets of agent [a], as a list and as a set. *)
Definition socketsOf (a : string) (ss : list Socket) : list string :=
  List.map socket_id (List.filter (ofAgentSocket a) ss).

Definition idsOf (a : string) (ss : list Socket) : gset string :=
  list_to_set (socketsOf a ss).

(** A Socket.IO id: random characters, never the name of a room the
    service uses. *)
Definition plainId (id : string) : Prop :=
  id <> "leaderboard" /\ forall x, id <> "agent:" +:+ x.

(** The socket sits in the rooms the connection handler put it in. *)
Definition joined (s : Socket) : Prop :=
  rooms s = [socket_id s; "agent:" +:+ socket_agentId s; "leaderboard"]
  /\ plainId (socket_id s).

(** The servers that connections and disconnections can build. A new
    socket gets an id no connected socket has. *)
Inductive reachable : Server -> Prop :=
| reach_empty : reachable emptyServer
| reach_connect srv id a u :
    reachable srv ->
    plainId id ->
    (forall s, In s (sockets srv) -> socket_id s <> id) ->
    reachable (connect srv id a u)
| reach_disconnect srv s :
    reachable srv ->
    In s (sockets srv) ->
    reachable (disconnect srv (socket_id s) (socket_agentId s)).

(** [connectedClients] holds, for each agent with a socket, exactly the
    ids of its sockets, and holds nothing for the others. *)
Definition tracked (srv : Server) : Prop :=
  forall a,
    connectedClients srv !! a =
      if decide (idsOf a (sockets srv) = ∅) then None
      else Some (idsOf a (sockets srv)).

Definition uniqueIds (ss : list Socket) : Prop :=
  forall s s', In s ss -> In s' ss -> socket_id s = socket_id s' -> s = s'.

Lemma elem_of_idsOf a ss x :
  x ∈ idsOf a ss <-> exists s, In s ss /\ socket_agentId s = a /\ socket_id s = x.
Proof.
  unfold idsOf, socketsOf. rewrite elem_of_list_to_set, list_elem_of_In, List.in_map_iff.
  split.
  - intros (s & Hx & Hin). apply List.filter_In in Hin as [Hin Ha].
    exists s. split; [done |]. split; [by apply String.eqb_eq | done].
  - intros (s & Hin & Ha & Hx). exists s. split; [done |].
    apply List.filter_In. split; [done |]. by apply String.eqb_eq.
Qed.

Lemma idsOf_connect a ss id b u :
  idsOf a (onConnection ss id b u) =
    idsOf a ss ∪ (if decide (b = a) then {[id]} else ∅).
Proof.
  apply set_eq. intros x. rewrite elem_of_union, !elem_of_idsOf. unfold onConnection.
  split.
  - intros (s & Hin & Ha & Hx). apply List.in_app_or in Hin as [Hin | [<- | []]].
    + left. by exists s.
    + right. simpl in *. rewrite decide_True by done. set_solver.
  - intros [(s & Hin & Ha & Hx) | Hx].
    + exists s. split; [apply List.in_or_app; by left | done].
    + destruct (decide (b = a)) as [-> |]; [| set_solver].
      apply elem_of_singleton in Hx as ->.
      eexists. split; [apply List.in_or_app; right; by left |]. by split.
Qed.

Lemma idsOf_disconnect a ss id :
  idsOf a (List.filter (fun s => negb (String.eqb (socket_id s) id)) ss)
    = idsOf a ss ∖ {[id]}.
Proof.
  apply set_eq. intros x. rewrite elem_of_difference, !elem_of_idsOf, elem_of_singleton.
  split.
  - intros (s & Hin & Ha & Hx). apply List.filter_In in Hin as [Hin Hne].
    apply negb_true_iff, String.eqb_neq in Hne.
    split; [by exists s | congruence].
  - intros [(s & Hin & Ha & Hx) Hne]. exists s. split; [| done].
    apply List.filter_In. split; [done |].
    apply negb_true_iff, String.eqb_neq. congruence.
Qed.

Lemma connect_uniqueIds srv id a u :
  uniqueIds (sockets srv) ->
  (forall s, In s (sockets srv) -> socket_id s <> id) ->
  uniqueIds (sockets (connect srv id a u)).
Proof.
  intros Hu Hfresh s s' Hs Hs' Heq. simpl in *. unfold onConnection in *.
  apply List.in_app_or in Hs as [Hs | [<- | []]];
    apply List.in_app_or in Hs' as [Hs' | [<- | []]]; simpl in *.
  - by apply Hu.
  - exfalso. by apply (Hfresh s).
  - exfalso. by apply (Hfresh s').
  - reflexivity.
Qed.

Lemma disconnect_uniqueIds srv id a :
  uniqueIds (sockets srv) -> uniqueIds (sockets (disconnect srv id a)).
Proof.
  intros Hu s s' Hs Hs' Heq. simpl in *.
  apply List.filter_In in Hs as [Hs _]. apply List.filter_In in Hs' as [Hs' _].
  by apply Hu.
Qed.

Lemma connect_tracked srv id a u : tracked srv -> tracked (connect srv id a u).
Proof.
  intros Ht b. simpl. rewrite idsOf_connect.
  destruct (decide (a = b)) as [-> | Hne].
  - rewrite lookup_insert_eq, Ht.
    destruct (decide (idsOf b (sockets srv) ∪ {[id]} = ∅)) as [He | _];
      [set_solver |].
    f_equal.
    destruct (decide (idsOf b (sockets srv) = ∅)) as [He |]; simpl;
      [rewrite He |]; set_solver.
  - rewrite lookup_insert_ne by done. rewrite Ht.
    replace (idsOf b (sockets srv) ∪ ∅) with (idsOf b (sockets srv)) by set_solver.
    reflexivity.
Qed.

Lemma disconnect_tracked srv s :
  uniqueIds (sockets srv) -> In s (sockets srv) -> tracked srv ->
  tracked (disconnect srv (socket_id s) (socket_agentId s)).
Proof.
  intros Hu Hin Ht b. simpl. rewrite idsOf_disconnect.
  assert (Hmine : socket_id s ∈ idsOf (socket_agentId s) (sockets srv)).
  { apply elem_of_idsOf. by exists s. }
  rewrite (Ht (socket_agentId s)).
  rewrite decide_False by set_solver.
  destruct (decide (socket_agentId s = b)) as [<- | Hne].
  - destruct (decide (size (idsOf (socket_agentId s) (sockets srv) ∖ {[socket_id s]}) = 0%nat))
      as [Hz | Hnz].
    + apply size_empty_inv in Hz. apply leibniz_equiv in Hz.
      rewrite lookup_delete_eq. by rewrite decide_True.
    + rewrite lookup_insert_eq. rewrite decide_False; [reflexivity |].
      intros He. apply Hnz. rewrite He. apply size_empty.
  - assert (Hnot : socket_id s ∉ idsOf b (sockets srv)).
    { intros Hx. apply elem_of_idsOf in Hx as (s' & Hin' & Ha' & Hid').
      assert (s' = s) by (by apply Hu). subst s'. congruence. }
    replace (idsOf b (sockets srv) ∖ {[socket_id s]}) with (idsOf b (sockets srv))
      by set_solver.
    destruct (decide (size _ = 0%nat)).
    + rewrite lookup_delete_ne by done. apply Ht.
    + rewrite lookup_insert_ne by done. apply Ht.
Qed.

Lemma reachable_wellFormed srv :
  reachable srv ->
  uniqueIds (sockets srv) /\ Forall joined (sockets srv) /\ tracked srv.
Proof.
  induction 1 as [| srv id a u _ (Hu & Hj & Ht) Hplain Hfresh
                  | srv s _ (Hu & Hj & Ht) Hin].
  - split; [intros ? ? []|]. split; [constructor |]. intros a. simpl.
    rewrite lookup_empty. by rewrite decide_True.
  - split; [by apply connect_uniqueIds |]. split; [| by apply connect_tracked].
    simpl. unfold onConnection. apply Forall_app. split; [done |].
    constructor; [| constructor]. by split.
  - split; [by apply disconnect_uniqueIds |]. split; [| by apply disconnect_tracked].
    simpl. rewrite Forall_forall in Hj. apply Forall_forall. intros x Hx.
    apply Hj. apply list_elem_of_In in Hx. apply List.filter_In in Hx as [Hx _].
    by apply list_elem_of_In.
Qed.

(** [getConnectedAgents] lists exactly the agents that have a socket
    connected, and [connectedClients] holds for each of them exactly the
    ids of its sockets, never an empty set: the bookkeeping of the
    connect and disconnect handlers stays in step with the sockets. *)
Theorem tracking_matches_sockets srv :
  reachable srv ->
  (forall a, In a (getConnectedAgents srv)
             <-> exists s, In s (sockets srv) /\ socket_agentId s = a)
  /\ (forall a ids, connectedClients srv !! a = Some ids ->
                    ids = idsOf a (sockets srv) /\ ids <> ∅).
Proof.
  intros Hr. destruct (reachable_wellFormed srv Hr) as (_ & _ & Ht). split.
  - intros a. unfold getConnectedAgents. rewrite List.in_map_iff. split.
    + intros ([a' ids] & <- & Hin). simpl.
      apply list_elem_of_In, elem_of_map_to_list in Hin. rewrite Ht in Hin.
      destruct (decide (idsOf a' (sockets srv) = ∅)) as [| Hne]; [discriminate |].
      assert (Hex : exists x, x ∈ idsOf a' (sockets srv)) by (by apply set_choose_L).
      destruct Hex as (x & Hx). apply elem_of_idsOf in Hx as (s & Hs & Ha & _).
      by exists s.
    + intros (s & Hs & Ha).
      assert (Hx : socket_id s ∈ idsOf a (sockets srv))
        by (apply elem_of_idsOf; by exists s).
      exists (a, idsOf a (sockets srv)). split; [reflexivity |].
      apply list_elem_of_In, elem_of_map_to_list. rewrite Ht.
      rewrite decide_False; [reflexivity | set_solver].
  - intros a ids Hl. rewrite Ht in Hl.
    destruct (decide (idsOf a (sockets srv) = ∅)) as [| Hne]; [discriminate |].
    injection Hl as <-. by split.
Qed.

(** Two sockets of agent-1 and one of agent-2 connect, then one socket
    of agent-1 and the socket of agent-2 go away. *)
Definition busyServer : Server :=
  disconnect
    (disconnect
       (connect (connect (connect emptyServer "sock-a" "agent-1" "alice")
                   "sock-b" "agent-2" "bob")
          "sock-c" "agent-1" "alice")
       "sock-a" "agent-1")
    "sock-b" "agent-2".

Lemma plain_sock x : plainId ("sock-" +:+ x).
Proof. split; [discriminate | intros y; discriminate]. Qed.

Lemma busyServer_reachable : reachable busyServer.
Proof.
  unfold busyServer.
  set (s1 := connect emptyServer "sock-a" "agent-1" "alice").
  set (s2 := connect s1 "sock-b" "agent-2" "bob").
  set (s3 := connect s2 "sock-c" "agent-1" "alice").
  assert (H1 : reachable s1).
  { apply reach_connect; [apply reach_empty | apply (plain_sock "a") | intros ? []]. }
  assert (H2 : reachable s2).
  { apply reach_connect; [exact H1 | apply (plain_sock "b") |].
    intros s [<- | []]. discriminate. }
  assert (H3 : reachable s3).
  { apply reach_connect; [exact H2 | apply (plain_sock "c") |].
    intros s [<- | [<- | []]]; discriminate. }
  apply (reach_disconnect (disconnect s3 "sock-a" "agent-1")
           (mkSocket "sock-b" "agent-2" "bob" ["sock-b"; "agent:agent-2"; "leaderboard"])).
  - apply (reach_disconnect s3
             (mkSocket "sock-a" "agent-1" "alice" ["sock-a"; "agent:agent-1"; "leaderboard"]));
      [exact H3 | by left].
  - vm_compute. by left.
Qed.

Lemma tracking_matches_sockets_witness :
  In "agent-1" (getConnectedAgents busyServer)
  <-> exists s, In s (sockets busyServer) /\ socket_agentId s = "agent-1".
Proof.
  exact (proj1 (tracking_matches_sockets busyServer busyServer_reachable) "agent-1").
Defined.

Section Routing.
Context {Body : Type}.

Definition receivers (ds : list (Delivery Body)) : list string := List.map recipient ds.

Lemma receivers_emitTo ss ev (d : EventData Body) now :
  receivers (emitTo ss ev d now) = List.map socket_id ss.
Proof. unfold receivers, emitTo. by rewrite List.map_map. Qed.

Lemma agent_room_is_the_agent a s :
  joined s -> inRoom ("agent:" +:+ a) s = ofAgentSocket a s.
Proof.
  intros [Hrooms [_ Hplain]]. unfold inRoom, ofAgentSocket. rewrite Hrooms.
  cbn [existsb].
  assert (H1 : String.eqb ("agent:" +:+ a) (socket_id s) = false).
  { apply String.eqb_neq. intros He. by apply (Hplain a). }
  assert (H2 : String.eqb ("agent:" +:+ a) ("agent:" +:+ socket_agentId s)
               = String.eqb a (socket_agentId s)) by reflexivity.
  assert (H3 : String.eqb ("agent:" +:+ a) "leaderboard" = false) by reflexivity.
  rewrite H1, H2, H3, !orb_false_r. apply String.eqb_sym.
Qed.

Lemma leaderboard_room_is_everyone s : joined s -> inRoom "leaderboard" s = true.
Proof.
  intros [Hrooms _]. unfold inRoom. rewrite Hrooms. cbn [existsb].
  rewrite String.eqb_refl. by rewrite !orb_true_r.
Qed.

(** A payload that carries an agent id is delivered to the sockets that
    authenticated as that agent, to all of them and to no other socket. *)
Theorem agent_events_reach_only_that_agent srv now (p : WebSocketPayload Body) a :
  reachable srv ->
  truthyId (data_agentId (data p)) = Some a ->
  receivers (broadcastFromRedis (Some (sockets srv)) now p) = socketsOf a (sockets srv)
  /\ forall s, In s (sockets srv) -> socket_agentId s <> a ->
       ~ In (socket_id s) (receivers (broadcastFromRedis (Some (sockets srv)) now p)).
Proof.
  intros Hr Hid. destruct (reachable_wellFormed srv Hr) as (Hu & Hj & _).
  assert (Heq : receivers (broadcastFromRedis (Some (sockets srv)) now p)
                = socketsOf a (sockets srv)).
  { unfold broadcastFromRedis. rewrite Hid. unfold emitToAgent.
    rewrite receivers_emitTo. unfold socketsOf. f_equal.
    apply List.filter_ext_in. intros s Hs. apply agent_room_is_the_agent.
    rewrite Forall_forall in Hj. apply Hj. by apply list_elem_of_In. }
  split; [exact Heq |].
  intros s Hs Hne Hin. rewrite Heq in Hin. unfold socketsOf in Hin.
  apply List.in_map_iff in Hin as (s' & Hid' & Hs').
  apply List.filter_In in Hs' as [Hs' Ha']. apply String.eqb_eq in Ha'.
  assert (s' = s) by (by apply Hu). congruence.
Qed.

(** A payload without agent id reaches every connected socket, whether
    its event is leaderboard-scoped or not: every socket joins the
    leaderboard room, so that room never narrows a delivery. *)
Theorem events_without_agent_reach_everyone srv now (p : WebSocketPayload Body) :
  reachable srv ->
  truthyId (data_agentId (data p)) = None ->
  receivers (broadcastFromRedis (Some (sockets srv)) now p)
    = List.map socket_id (sockets srv).
Proof.
  intros Hr Hid. destruct (reachable_wellFormed srv Hr) as (_ & Hj & _).
  unfold broadcastFromRedis. rewrite Hid.
  destruct (String.prefix "leaderboard:" (eventName (event p))).
  - unfold emitToLeaderboard. rewrite receivers_emitTo. f_equal.
    rewrite Forall_forall in Hj.
    induction (sockets srv) as [| s ss IH]; simpl; [reflexivity |].
    rewrite leaderboard_room_is_everyone by (apply Hj; by left).
    f_equal. apply IH. intros x Hx. apply Hj. by right.
  - unfold broadcast. apply receivers_emitTo.
Qed.

End Routing.

Lemma agent_events_reach_only_that_agent_witness :
  receivers (broadcastFromRedis (Some (sockets busyServer)) 5
               (mkPayload TRADE_INDEXED (mkData (Some "agent-1") tt) 4))
    = ["sock-c"].
Proof.
  rewrite (proj1 (agent_events_reach_only_that_agent busyServer 5
                    (mkPayload TRADE_INDEXED (mkData (Some "agent-1") tt) 4) "agent-1"
                    busyServer_reachable eq_refl)).
  reflexivity.
Defined.

Lemma events_without_agent_reach_everyone_witness :
  receivers (broadcastFromRedis (Some (sockets busyServer)) 5
               (mkPayload RANK_CHANGED (mkData None tt) 4))
    = ["sock-c"].
Proof.
  rewrite (events_without_agent_reach_everyone busyServer 5
             (mkPayload RANK_CHANGED (mkData None tt) 4) busyServer_reachable eq_refl).
  reflexivity.
Defined.

End SocketFacts.

(** ** The rate limiter over a stream of requests *)

Module RateLimitTrace.
Import Js RateLimit RateLimitFacts.

(** A request on one key: its arrival time and the random draw that
    goes into its member. *)
Definition Request : Type := (Z * string)%type.

(** The sorted-set entry [checkRateLimit] adds for a request. *)
Definition entryOf (q : Request) : Z * Member := (fst q, (fst q, snd q)).

Definition isAllowed (r : Reply) : bool :=
  match r with Allowed _ _ _ => true | Rejected _ _ _ _ _ => false end.

(** The requests of one key served one after the other: the store they
    leave and, for each, the reply it got. *)
Definition step (config : RateLimitConfig) (key : string)
    (acc : gmap string SortedSet * list (Request * Reply)) (q : Request)
    : gmap string SortedSet * list (Request * Reply) :=
  let '(store', reply) := checkRateLimit (fst acc) key config (fst q) (snd q) in
  (store', snd acc ++ [(q, reply)]).

Definition serve (config : RateLimitConfig) (key : string)
    (store : gmap string SortedSet) (requests : list Request)
    : gmap string SortedSet * list (Request * Reply) :=
  fold_left (step config key) requests (store, []).

(** The requests of the log that were let through with an arrival time
    in the window (lo, hi]. *)
Definition admittedIn (lo hi : Z) (log : list (Request * Reply)) : list (Request * Reply) :=
  List.filter (fun e => (isAllowed (snd e) && (lo <? fst (fst e)) && (fst (fst e) <=? hi))%bool)
    log.

(** The requests of the log that arrived after [lo]. *)
Definition arrivedAfter (lo : Z) (log : list (Request * Reply)) : list (Request * Reply) :=
  List.filter (fun e => lo <? fst (fst e)) log.

(** Requests in order of arrival. *)
Definition chronological (requests : list Request) : Prop :=
  StronglySorted (fun a b => fst a <= fst b) requests.

(** What was left in the window of [key] at time [t]. *)
Definition prunedAt (config : RateLimitConfig) (key : string)
    (store : gmap string SortedSet) (t : Z) : list (Z * Member) :=
  zremrangebyscore 0 (t - windowMs config) (live store key t).

Lemma check_shape store key config t r :
  fst (checkRateLimit store key config t r) =
    <[key := {| entries := zadd t (t, r) (prunedAt config key store t);
                expireAt := t + ceilDiv (windowMs config) 1000 * 1000 |}]> store
  /\ isAllowed (snd (checkRateLimit store key config t r)) =
       negb (maxRequests config <=? zcard (prunedAt config key store t)).
Proof.
  unfold checkRateLimit, prunedAt.
  destruct (maxRequests config <=? _); simpl; by split.
Qed.

(** What the store remembers of the requests served so far, the last of
    them at [tl]: every one of them is either out of any later window or
    still has its entry in the set. *)
Definition remembers (config : RateLimitConfig) (key : string)
    (store : gmap string SortedSet) (log : list (Request * Reply)) (tl : Z) : Prop :=
  (forall e, In e log -> fst (fst e) <= tl)
  /\ (log <> [] ->
      exists set,
        store !! key = Some set
        /\ expireAt set = tl + ceilDiv (windowMs config) 1000 * 1000
        /\ forall e, In e log ->
             fst (fst e) + windowMs config <= tl \/ In (entryOf (fst e)) (entries set)).

Lemma remembered_in_window config key store log tl t e :
  0 < windowMs config ->
  remembers config key store log tl ->
  tl <= t ->
  In e log ->
  t - windowMs config < fst (fst e) ->
  In (entryOf (fst e)) (prunedAt config key store t).
Proof.
  intros Hw [Htimes Hset] Hle He Hin.
  destruct Hset as (set & Hl & Hexp & Hentries); [by destruct log |].
  destruct (Hentries e He) as [Hold | Hentry].
  { specialize (Htimes e He). lia. }
  pose proof (ceilDiv_covers _ Hw) as Hcover. specialize (Htimes e He).
  unfold prunedAt, live. rewrite Hl.
  replace (expireAt set <=? t) with false by (symmetry; apply Z.leb_gt; lia).
  unfold zremrangebyscore. apply List.filter_In. split; [exact Hentry |].
  unfold entryOf. simpl.
  replace (fst (fst e) <=? t - windowMs config) with false
    by (symmetry; apply Z.leb_gt; lia).
  by rewrite andb_false_r.
Qed.

Lemma step_remembers config key store log tl t r reply :
  0 < windowMs config ->
  remembers config key store log tl ->
  tl <= t ->
  (forall e, In e log -> fst e <> (t, r)) ->
  remembers config key (fst (checkRateLimit store key config t r))
    (log ++ [((t, r), reply)]) t.
Proof.
  intros Hw Hrem Hle Hfresh. destruct (check_shape store key config t r) as [-> _].
  split.
  - intros e He. apply List.in_app_or in He as [He | [<- | []]]; [| simpl; lia].
    destruct Hrem as [Htimes _]. specialize (Htimes e He). lia.
  - intros _. eexists. split; [apply lookup_insert_eq |]. split; [reflexivity |].
    simpl. intros e He. apply List.in_app_or in He as [He | [<- | []]].
    + destruct (Z_le_gt_dec (fst (fst e) + windowMs config) t) as [Hold | Hnew];
        [by left | right].
      unfold zadd. right. apply List.filter_In. split.
      * apply (remembered_in_window config key store log tl t e); try done. lia.
      * apply negb_true_iff, memberEqb_neq. specialize (Hfresh e He).
        unfold entryOf. simpl. destruct (fst e) as [te re]. exact Hfresh.
    + right. unfold zadd. by left.
Qed.

Lemma NoDup_map_filter {A B} (f : A -> B) (P : A -> bool) l :
  List.NoDup (List.map f l) -> List.NoDup (List.map f (List.filter P l)).
Proof.
  induction l as [| x l IH]; simpl; intros Hnd; [constructor |].
  inversion Hnd as [| ? ? Hx Hrest]; subst.
  destruct (P x); simpl; [| by apply IH].
  constructor; [| by apply IH].
  intros Hin. apply Hx. apply List.in_map_iff in Hin as (y & Hy & Hyl).
  apply List.filter_In in Hyl as [Hyl _]. apply List.in_map_iff. by exists y.
Qed.

Lemma entryOf_inj q q' : entryOf q = entryOf q' -> q = q'.
Proof. destruct q, q'. unfold entryOf. simpl. intros H. by injection H as -> _ ->. Qed.

(** At any time after the last request, the set still holds an entry
    for every request that arrived within the window. *)
Lemma window_is_counted config key store log tl t :
  0 < windowMs config ->
  remembers config key store log tl ->
  tl <= t ->
  List.NoDup (List.map fst log) ->
  (length (arrivedAfter (t - windowMs config) log)
   <= length (prunedAt config key store t))%nat.
Proof.
  intros Hw Hrem Hle Hnd.
  rewrite <- (List.length_map (fun e => entryOf (fst e))
                (arrivedAfter (t - windowMs config) log)).
  apply List.NoDup_incl_length.
  - rewrite <- (List.map_map fst entryOf).
    apply Finite.Injective_map_NoDup; [intros q q'; apply entryOf_inj |].
    by apply NoDup_map_filter.
  - intros x Hx. apply List.in_map_iff in Hx as (e & <- & He).
    apply List.filter_In in He as [He Hin]. apply Z.ltb_lt in Hin.
    by apply (remembered_in_window config key store log tl t e).
Qed.

Lemma admitted_le_arrived w t hi log :
  (forall e, In e log -> fst (fst e) <= t) ->
  t <= hi ->
  (length (admittedIn (hi - w) hi log) <= length (arrivedAfter (t - w) log))%nat.
Proof.
  intros Htimes Hle. unfold admittedIn, arrivedAfter.
  induction log as [| e log IH]; simpl; [lia |].
  assert (IH' := IH (fun x Hx => Htimes x (or_intror Hx))).
  destruct (isAllowed (snd e) && (hi - w <? fst (fst e)) && (fst (fst e) <=? hi))%bool
    eqn:E.
  - apply andb_true_iff in E as [E _]. apply andb_true_iff in E as [_ E].
    apply Z.ltb_lt in E.
    replace (t - w <? fst (fst e)) with true by (symmetry; apply Z.ltb_lt; lia).
    simpl. lia.
  - destruct (t - w <? fst (fst e)); simpl; lia.
Qed.

Lemma admittedIn_snoc lo hi log e :
  length (admittedIn lo hi (log ++ [e]))
  = Nat.add (length (admittedIn lo hi log))
      (if isAllowed (snd e) && (lo <? fst (fst e)) && (fst (fst e) <=? hi)
       then 1%nat else 0%nat).
Proof.
  unfold admittedIn. rewrite List.filter_app, List.length_app. simpl.
  unfold Request in *.
  by destruct (isAllowed (snd e) && (lo <? fst (fst e)) && (fst (fst e) <=? hi)).
Qed.

Lemma serve_bound config key :
  0 < windowMs config ->
  forall rest store log tl,
    remembers config key store log tl ->
    (forall hi, Z.of_nat (length (admittedIn (hi - windowMs config) hi log))
                <= Z.max 0 (maxRequests config)) ->
    chronological rest ->
    (forall q, In q rest -> tl <= fst q) ->
    List.NoDup (List.map fst log ++ rest) ->
    forall hi,
      Z.of_nat (length (admittedIn (hi - windowMs config) hi
                          (snd (fold_left (step config key) rest (store, log)))))
      <= Z.max 0 (maxRequests config).
Proof.
  intros Hw. induction rest as [| q rest IH]; intros store log tl Hrem Hbound Hchr Hlater Hnd.
  - exact Hbound.
  - simpl. unfold step at 2. simpl.
    destruct q as [t r]. simpl.
    destruct (checkRateLimit store key config t r) as [store' reply] eqn:Hcheck.
    assert (Htl : tl <= t) by (apply (Hlater (t, r)); by left).
    assert (Hfresh : forall e, In e log -> fst e <> (t, r)).
    { intros e He Heq. apply List.NoDup_remove_2 in Hnd. apply Hnd.
      apply List.in_or_app. left. rewrite <- Heq. by apply List.in_map. }
    inversion Hchr as [| ? ? Hchr' Hhead]; subst.
    apply (IH store' (log ++ [((t, r), reply)]) t).
    + pose proof (step_remembers config key store log tl t r reply Hw Hrem Htl Hfresh) as H.
      by rewrite Hcheck in H.
    + intros hi. specialize (Hbound hi).
      pose proof (admitted_le_arrived (windowMs config) t hi log) as H1.
      rewrite admittedIn_snoc. cbn [fst snd].
      destruct (isAllowed reply && (hi - windowMs config <? t) && (t <=? hi))%bool eqn:E;
        [| lia].
      apply andb_true_iff in E as [E Ehi]. apply andb_true_iff in E as [Eok _].
      apply Z.leb_le in Ehi.
      destruct (check_shape store key config t r) as [_ Hallowed].
      rewrite Hcheck in Hallowed. simpl in Hallowed. rewrite Eok in Hallowed.
      symmetry in Hallowed. apply negb_true_iff, Z.leb_gt in Hallowed.
      unfold zcard in Hallowed.
      assert (Htimes : forall e, In e log -> fst (fst e) <= t).
      { intros e He. destruct Hrem as [Hrem _]. specialize (Hrem e He). lia. }
      specialize (H1 Htimes Ehi).
      assert (H2 := window_is_counted config key store log tl t Hw Hrem Htl
                      (List.NoDup_app_remove_r _ _ Hnd)).
      lia.
    + exact Hchr'.
    + intros q Hq. rewrite Forall_forall in Hhead. apply (Hhead q).
      by apply list_elem_of_In.
    + rewrite List.map_app. simpl. by rewrite <- app_assoc.
Qed.

(** The limit holds over any stream: when the requests of a key arrive
    in order and no two of them draw the same member, then whatever the
    store held before, no window of [windowMs] milliseconds contains more
    than [maxRequests] requests that were let through. *)
Theorem at_most_max_admitted_per_window config key store requests hi :
  0 < windowMs config ->
  chronological requests ->
  List.NoDup requests ->
  Z.of_nat (length (admittedIn (hi - windowMs config) hi
                      (snd (serve config key store requests))))
  <= Z.max 0 (maxRequests config).
Proof.
  intros Hw Hchr Hnd. unfold serve.
  destruct requests as [| q rest]; [simpl; lia |].
  apply (serve_bound config key Hw (q :: rest) store [] (fst q)); try done.
  - intros hi'. simpl. lia.
  - intros q' [<- | Hq']; [lia |].
    inversion Hchr as [| ? ? _ Hhead]; subst.
    rewrite Forall_forall in Hhead. apply (Hhead q'). by apply list_elem_of_In.
Qed.

(** Five requests within one second against a limit of 2 per second. *)
Definition burst : list Request :=
  [(1000, "0.1"); (1100, "0.2"); (1200, "0.3"); (1300, "0.4"); (1900, "0.5")].

Lemma at_most_max_admitted_per_window_witness :
  Z.of_nat (length (admittedIn 1000 2000
                      (snd (serve (mkConfig 2 1000 "ratelimit:read") "k" ∅ burst))))
  <= 2.
Proof.
  apply (at_most_max_admitted_per_window (mkConfig 2 1000 "ratelimit:read") "k" ∅ burst 2000).
  - reflexivity.
  - unfold chronological, burst.
    repeat (constructor; [| repeat (constructor; [simpl; lia |]); constructor]).
    constructor.
  - apply NoDup_ListNoDup. by apply (bool_decide_unpack (NoDup burst)).
Defined.

(** The other direction: on a key that starts empty, the set holds
    nothing but entries of the requests served, each once. *)
Definition onlyLogged (key : string) (store : gmap string SortedSet)
    (log : list (Request * Reply)) : Prop :=
  forall set, store !! key = Some set ->
    List.NoDup (entries set)
    /\ forall x, In x (entries set) -> exists e, In e log /\ x = entryOf (fst e).

Lemma pruned_incl config key store t x :
  In x (prunedAt config key store t) ->
  (exists set, store !! key = Some set /\ In x (entries set))
  /\ ~ (0 <= fst x <= t - windowMs config).
Proof.
  unfold prunedAt, zremrangebyscore, live. intros H.
  apply List.filter_In in H as [Hin Hkeep].
  destruct (store !! key) as [set |] eqn:E; [| destruct Hin].
  destruct (expireAt set <=? t); [destruct Hin |].
  split; [by exists set |].
  apply negb_true_iff, andb_false_iff in Hkeep.
  destruct Hkeep as [H | H]; apply Z.leb_gt in H; lia.
Qed.

Lemma pruned_NoDup config key store log t :
  onlyLogged key store log -> List.NoDup (prunedAt config key store t).
Proof.
  intros H. unfold prunedAt, zremrangebyscore. apply List.NoDup_filter.
  unfold live. destruct (store !! key) as [set |] eqn:E; [| constructor].
  destruct (expireAt set <=? t); [constructor |]. by apply (H set E).
Qed.

Lemma step_onlyLogged config key store log t r reply :
  onlyLogged key store log ->
  onlyLogged key (fst (checkRateLimit store key config t r)) (log ++ [((t, r), reply)]).
Proof.
  intros Hlog. destruct (check_shape store key config t r) as [-> _].
  intros set Hset. rewrite lookup_insert_eq in Hset. injection Hset as <-.
  cbn [entries]. unfold zadd. split.
  - constructor.
    + intros Hin. apply List.filter_In in Hin as [_ Hne].
      unfold memberEqb in Hne. cbn [fst snd] in Hne.
      rewrite Z.eqb_refl, String.eqb_refl in Hne. discriminate Hne.
    + apply List.NoDup_filter. by apply (pruned_NoDup config key store log).
  - intros x [<- | Hx].
    + exists ((t, r), reply). split; [apply List.in_or_app; right; by left | reflexivity].
    + apply List.filter_In in Hx as [Hx _].
      apply pruned_incl in Hx as [(set & Hset & Hin) _].
      destruct (Hlog set Hset) as [_ Hsub]. destruct (Hsub x Hin) as (e & He & ->).
      exists e. split; [apply List.in_or_app; by left | reflexivity].
Qed.

(** Nothing but the arrivals of the window is counted. *)
Lemma counted_is_in_window config key store log t :
  onlyLogged key store log ->
  (forall e, In e log -> 0 <= fst (fst e)) ->
  (length (prunedAt config key store t)
   <= length (arrivedAfter (t - windowMs config) log))%nat.
Proof.
  intros Hlog Hpos.
  rewrite <- (List.length_map (fun e => entryOf (fst e))
                (arrivedAfter (t - windowMs config) log)).
  apply List.NoDup_incl_length; [by apply (pruned_NoDup config key store log) |].
  intros x Hx. apply pruned_incl in Hx as [(set & Hset & Hin) Hout].
  destruct (Hlog set Hset) as [_ Hsub]. destruct (Hsub x Hin) as (e & He & ->).
  apply List.in_map_iff. exists e. split; [reflexivity |].
  apply List.filter_In. split; [exact He |]. apply Z.ltb_lt.
  specialize (Hpos e He). destruct e as [[te re] reply].
  unfold entryOf in Hout. cbn [fst] in *. lia.
Qed.

Lemma serve_state config key :
  0 < windowMs config ->
  forall rest store log tl,
    remembers config key store log tl ->
    onlyLogged key store log ->
    chronological rest ->
    (forall q, In q rest -> tl <= fst q) ->
    List.NoDup (List.map fst log ++ rest) ->
    exists tl',
      remembers config key (fst (fold_left (step config key) rest (store, log)))
        (snd (fold_left (step config key) rest (store, log))) tl'
      /\ onlyLogged key (fst (fold_left (step config key) rest (store, log)))
           (snd (fold_left (step config key) rest (store, log)))
      /\ List.map fst (snd (fold_left (step config key) rest (store, log)))
         = List.map fst log ++ rest
      /\ In tl' (tl :: List.map fst rest).
Proof.
  intros Hw. induction rest as [| q rest IH]; intros store log tl Hrem Hlog Hchr Hlater Hnd.
  - exists tl. simpl. rewrite app_nil_r.
    split; [exact Hrem |]. split; [exact Hlog |]. split; [reflexivity | by left].
  - destruct q as [t r]. cbn [fold_left].
    destruct (checkRateLimit store key config t r) as [store' reply] eqn:Hcheck.
    assert (Hstep : step config key (store, log) (t, r)
                    = (store', log ++ [((t, r), reply)])).
    { unfold step. cbn [fst snd]. by rewrite Hcheck. }
    rewrite Hstep.
    assert (Htl : tl <= t) by (apply (Hlater (t, r)); by left).
    assert (Hfresh : forall e, In e log -> fst e <> (t, r)).
    { intros e He Heq. apply List.NoDup_remove_2 in Hnd. apply Hnd.
      apply List.in_or_app. left. rewrite <- Heq. by apply List.in_map. }
    inversion Hchr as [| ? ? Hchr' Hhead]; subst.
    destruct (IH store' (log ++ [((t, r), reply)]) t) as (tl' & H1 & H2 & H3 & H4).
    + pose proof (step_remembers config key store log tl t r reply Hw Hrem Htl Hfresh) as H.
      by rewrite Hcheck in H.
    + pose proof (step_onlyLogged config key store log t r reply Hlog) as H.
      by rewrite Hcheck in H.
    + exact Hchr'.
    + intros q Hq. rewrite Forall_forall in Hhead. apply (Hhead q).
      by apply list_elem_of_In.
    + rewrite List.map_app. simpl. by rewrite <- app_assoc.
    + exists tl'. split; [exact H1 |]. split; [exact H2 |]. split.
      * rewrite H3, List.map_app. simpl. by rewrite <- app_assoc.
      * by right.
Qed.

Lemma arrivedAfter_length lo log :
  length (arrivedAfter lo log)
  = length (List.filter (fun p : Request => lo <? fst p) (List.map fst log)).
Proof.
  unfold arrivedAfter. induction log as [| e log IH]; [reflexivity |].
  cbn [List.filter List.map]. destruct e as [[te re] reply]. cbn [fst].
  destruct (lo <? te); cbn [length]; by rewrite IH.
Qed.

(** Refused requests use up the limit too: on a key that starts empty, a
    request is let through exactly when fewer than [maxRequests] of the
    requests before it, whatever the answer they got, arrived within the
    window that ends with it. *)
Theorem admission_counts_every_arrival config key store earlier q :
  0 < windowMs config ->
  store !! key = None ->
  chronological earlier ->
  (forall p, In p earlier -> fst p <= fst q) ->
  (forall p, In p (q :: earlier) -> 0 <= fst p) ->
  List.NoDup (q :: earlier) ->
  isAllowed (snd (checkRateLimit (fst (serve config key store earlier)) key config
                    (fst q) (snd q)))
  = (Z.of_nat (length (List.filter (fun p : Request => fst q - windowMs config <? fst p)
                         earlier))
     <? maxRequests config).
Proof.
  intros Hw Hnone Hchr Hbefore Hpos Hnd.
  inversion Hnd as [| ? ? Hq Hnd']; subst.
  destruct (serve_state config key Hw earlier store [] 0) as (tl & Hrem & Hlog & Hmap & Htl).
  - split; [intros e [] | done].
  - intros set Hset. congruence.
  - exact Hchr.
  - intros p Hp. apply Hpos. by right.
  - exact Hnd'.
  - fold (serve config key store earlier) in Hrem, Hlog, Hmap.
    simpl in Hmap.
    destruct (check_shape (fst (serve config key store earlier)) key config (fst q) (snd q))
      as [_ ->].
    assert (Htlq : tl <= fst q).
    { destruct Htl as [<- | Htl]; [apply Hpos; by left |].
      apply List.in_map_iff in Htl as (p & <- & Hp). by apply Hbefore. }
    assert (Hnd'' : List.NoDup (List.map fst (snd (serve config key store earlier))))
      by (by rewrite Hmap).
    pose proof (window_is_counted config key _ _ tl (fst q) Hw Hrem Htlq Hnd'') as Hlow.
    assert (Hposlog : forall e, In e (snd (serve config key store earlier)) ->
                        0 <= fst (fst e)).
    { intros e He. apply Hpos. right. rewrite <- Hmap. by apply List.in_map. }
    pose proof (counted_is_in_window config key _ _ (fst q) Hlog Hposlog) as Hhigh.
    rewrite arrivedAfter_length, Hmap in Hlow, Hhigh.
    unfold zcard. rewrite Z.ltb_antisym. do 2 f_equal. lia.
Qed.

(** Limit 1 per second: the request at 1100 is refused because of the
    refused retry at 600, though nothing was let through since 0. *)
Lemma admission_counts_every_arrival_witness :
  isAllowed (snd (checkRateLimit
                    (fst (serve (mkConfig 1 1000 "ratelimit:read") "k" ∅
                            [(0, "0.1"); (600, "0.2")]))
                    "k" (mkConfig 1 1000 "ratelimit:read") 1100 "0.3"))
  = false.
Proof.
  apply (admission_counts_every_arrival (mkConfig 1 1000 "ratelimit:read") "k" ∅
           [(0, "0.1"); (600, "0.2")] (1100, "0.3")).
  - reflexivity.
  - reflexivity.
  - unfold chronological.
    repeat (constructor; [| repeat (constructor; [simpl; lia |]); constructor]).
    constructor.
  - intros p [<- | [<- | []]]; simpl; lia.
  - intros p [<- | [<- | [<- | []]]]; simpl; lia.
  - apply NoDup_ListNoDup.
    by apply (bool_decide_unpack (NoDup [(1100, "0.3"); (0, "0.1"); (600, "0.2")])).
Defined.

(** Who a request is counted against: the agent when it is
    authenticated, the IP address otherwise. *)
Definition caller (agent : option string) (ip : string) : string + string :=
  match agent with
  | Some agentId => inl agentId
  | None => inr ip
  end.

Lemma append_inj_r s a b : s +:+ a = s +:+ b -> a = b.
Proof. induction s as [| c s IH]; simpl; [done |]. intros H. injection H as H. by apply IH. Qed.

Lemma limiterKey_inj config agent ip agent' ip' :
  limiterKey config agent ip = limiterKey config agent' ip' ->
  caller agent ip = caller agent' ip'.
Proof.
  unfold limiterKey, caller.
  destruct agent as [a |], agent' as [a' |]; intros H; apply append_inj_r in H.
  - apply (append_inj_r ":agent:") in H. by rewrite H.
  - exfalso. inversion H.
  - exfalso. inversion H.
  - apply (append_inj_r ":ip:") in H. by rewrite H.
Qed.

Lemma reply_of_live store store' key config t r :
  live store key t = live store' key t ->
  snd (checkRateLimit store key config t r) = snd (checkRateLimit store' key config t r).
Proof.
  intros H. unfold checkRateLimit. cbv zeta. rewrite H.
  by destruct (maxRequests config <=? _).
Qed.

(** Callers do not share a counter: under one configuration, the answer
    a caller gets does not depend on a request of another caller served
    before it; an agent and an IP address are different callers even
    when they are the same string. *)
Theorem callers_do_not_share_counters config store agent ip agent' ip' t r t' r' :
  caller agent ip <> caller agent' ip' ->
  snd (rateLimiter config (fst (rateLimiter config store agent ip t r)) agent' ip' t' r')
  = snd (rateLimiter config store agent' ip' t' r').
Proof.
  intros Hne. unfold rateLimiter. apply reply_of_live.
  destruct (check_shape store (limiterKey config agent ip) config t r) as [-> _].
  unfold live. rewrite lookup_insert_ne; [reflexivity |].
  intros Heq. by apply Hne, (limiterKey_inj config).
Qed.

Lemma callers_do_not_share_counters_witness :
  snd (rateLimiter (mkConfig 1 1000 "ratelimit:read")
         (fst (rateLimiter (mkConfig 1 1000 "ratelimit:read") ∅ (Some "10.0.0.1")
                 "10.0.0.9" 5 "0.1"))
         None "10.0.0.1" 6 "0.2")
  = snd (rateLimiter (mkConfig 1 1000 "ratelimit:read") ∅ None "10.0.0.1" 6 "0.2").
Proof.
  apply (callers_do_not_share_counters (mkConfig 1 1000 "ratelimit:read") ∅
           (Some "10.0.0.1") "10.0.0.9" None "10.0.0.1" 5 "0.1" 6 "0.2").
  simpl. discriminate.
Defined.

End RateLimitTrace.
